(** * population_structure.helper_funcs: a verified model

    A shallow embedding of [helper_funcs.py] and the proofs of its
    specification.  Python integers are [Z] (or [nat] where the code only
    counts), numpy's float64 and Python's float are Rocq's primitive binary64
    [float], arrays are lists, matrices are lists of rows, and an exception
    is a value of the error monad [res]. *)

From Stdlib Require Import ZArith Zpower Lia Floats String.
From stdpp Require Import base option list gmap sets sorting.

Local Open Scope Z_scope.

(** ** Python's exceptions *)

Inductive exn : Set :=
  | ValueError
  | ZeroDivisionError
  | OverflowError
  | IndexError
  | KeyError.

(** The outcome of a call: a value, an exception, or [OutOfFuel] when a
    [while] loop of the model was not given enough steps to finish (the
    theorems show that it never is). *)
Inductive res (A : Type) : Type :=
  | Ok (a : A)
  | Raise (e : exn)
  | OutOfFuel.
Arguments Ok {A} a.
Arguments Raise {A} e.
Arguments OutOfFuel {A}.

#[global] Instance res_ret : MRet res := fun A a => Ok a.
#[global] Instance res_bind : MBind res := fun A B f m =>
  match m with
  | Ok a => f a
  | Raise e => Raise e
  | OutOfFuel => OutOfFuel
  end.
#[global] Instance res_fmap : FMap res := fun A B f m =>
  match m with
  | Ok a => Ok (f a)
  | Raise e => Raise e
  | OutOfFuel => OutOfFuel
  end.

(** [for x in xs: s = body(s, x)]. *)
Fixpoint for_ {S A : Type} (xs : list A) (body : S -> A -> res S) (s : S) : res S :=
  match xs with
  | [] => Ok s
  | x :: xs' => s' ← body s x; for_ xs' body s'
  end.

(** [while cond(s): s = body(s)], for at most [fuel] iterations. *)
Fixpoint while_ {S : Type} (fuel : nat) (cond : S -> bool) (body : S -> res S)
    (s : S) : res S :=
  if cond s then
    match fuel with
    | O => OutOfFuel
    | Datatypes.S fuel' => s' ← body s; while_ fuel' cond body s'
    end
  else Ok s.

(** [[f(x) for x in xs]]. *)
Fixpoint map_res {A B : Type} (f : A -> res B) (xs : list A) : res (list B) :=
  match xs with
  | [] => Ok []
  | x :: xs' => y ← f x; ys ← map_res f xs'; Ok (y :: ys)
  end.

(** [range(a, b)]. *)
Definition range (a b : nat) : list nat := seq a (b - a).

(** [l[i]] for an index that is not negative. *)
Definition getitem {A : Type} (l : list A) (i : nat) : res A :=
  match l !! i with
  | Some x => Ok x
  | None => Raise IndexError
  end.

(** [l[a:b]] for bounds that are not negative. *)
Definition slice {A : Type} (a b : nat) (l : list A) : list A :=
  take (b - a) (drop a l).

(** ** Python's numbers *)

(** [math.factorial]: defined on the non-negative integers that fit a C
    long of 64 bits; [ValueError] below zero and [OverflowError] above
    2^63 - 1. *)
Fixpoint fact_Z (n : nat) : Z :=
  match n with
  | O => 1
  | S k => Z.of_nat (S k) * fact_Z k
  end.

Definition factorial (n : Z) : res Z :=
  if n <? 0 then Raise ValueError
  else if 2 ^ 63 <=? n then Raise OverflowError
  else Ok (fact_Z (Z.to_nat n)).

(** An integer as an unrounded binary number, significand and exponent 0. *)
Definition Z2SF (z : Z) : spec_float :=
  match z with
  | Z0 => S754_zero false
  | Zpos p => S754_finite false p 0
  | Zneg p => S754_finite true p 0
  end.

(** [a / b] on two Python integers is true division: the quotient of the
    exact integers, rounded once to the nearest binary64 (ties to even), which
    is IEEE division on the unrounded operands.  A zero divisor raises, and so
    does a quotient beyond the largest float. *)
Definition int_truediv (a b : Z) : res float :=
  if b =? 0 then Raise ZeroDivisionError
  else match SFdiv prec emax (Z2SF a) (Z2SF b) with
       | S754_infinity _ => Raise OverflowError
       | q => Ok (SF2Prim q)
       end.

(** [int(x)] on a float truncates toward zero. *)
Definition int_of_float (x : float) : res Z :=
  match Prim2SF x with
  | S754_nan => Raise ValueError
  | S754_infinity _ => Raise OverflowError
  | S754_zero _ => Ok 0
  | S754_finite s m e =>
      Ok (cond_Zopp s (if e <? 0 then Z.pos m / 2 ^ (- e) else Z.pos m * 2 ^ e))
  end.

(** The conversion of an integer operand in [float / int]: rounded to the
    nearest binary64, [OverflowError] when it is too large. *)
Definition float_of_int (z : Z) : res float :=
  match binary_normalize prec emax z 0 false with
  | S754_infinity _ => Raise OverflowError
  | s => Ok (SF2Prim s)
  end.

(** [x / z] for a Python float [x] and a Python integer [z]. *)
Definition float_div_int (x : float) (z : Z) : res float :=
  d ← float_of_int z;
  if (d =? 0)%float then Raise ZeroDivisionError else Ok (x / d)%float.

(** ** comb *)

Definition comb (n k : Z) : res Z :=
  fn ← factorial n;
  fk ← factorial k;
  fnk ← factorial (n - k);
  q ← int_truediv fn (fk * fnk);
  int_of_float q.

(** The binomial coefficient n!/(k!(n-k)!) as an exact integer. *)
Definition binomial (n k : Z) : Z :=
  fact_Z (Z.to_nat n) / (fact_Z (Z.to_nat k) * fact_Z (Z.to_nat (n - k))).


(** ** numpy *)

#[global] Instance float_inhabited : Inhabited float := populate 0%float.

Abbreviation vector := (list float).
Abbreviation matrix := (list (list float)).

(** *** Sums and dot products

    numpy and the BLAS library behind it choose the order in which the terms
    of a sum are added.  [np.sum] adds a float64 array from the left while
    it has fewer than 8 entries, and in 8 interleaved partial sums, pairwise
    above 128 entries, from there on.  [x @ y] and [np.linalg.norm] hand
    their vectors to the dot product of BLAS, which adds the products in
    blocks of its own and may fuse a product with the addition that follows
    it.  So the functions that call them take the sum and the dot product as
    parameters, [sum] and [dot]: the value that [np.sum] returns on an array
    and the value that BLAS returns on two vectors of one length.  The
    theorems hold for every such pair; what is assumed of them is said by
    [summation] and [dot_product] below. *)

(** The entries added up from the left, starting from 0: what [np.sum]
    returns on fewer than 8 entries. *)
Definition np_sum (xs : vector) : float := foldl PrimFloat.add 0%float xs.

(** The products added up from the left, each rounded: one of the orders
    that BLAS may follow, and the value of a single product. *)
Definition blas_seq (xs ys : vector) : float := np_sum (zip_with PrimFloat.mul xs ys).

(** An elementwise operation on two one-dimensional arrays; an array of
    length 1 is stretched to the length of the other. *)
Definition np_binop (op : float -> float -> float) (xs ys : vector) : res vector :=
  match xs, ys with
  | [x], _ => Ok (op x <$> ys)
  | _, [y] => Ok ((fun x => op x y) <$> xs)
  | _, _ =>
      if (length xs =? length ys)%nat then Ok (zip_with op xs ys)
      else Raise ValueError
  end.

(** The same on two-dimensional arrays, first along the rows. *)
Definition np_binop2 (op : float -> float -> float) (a b : matrix) : res matrix :=
  match a, b with
  | [r], _ => map_res (np_binop op r) b
  | _, [r] => map_res (fun x => np_binop op x r) a
  | _, _ =>
      if (length a =? length b)%nat
      then map_res (fun xy => np_binop op xy.1 xy.2) (zip a b)
      else Raise ValueError
  end.

(** [x @ y] on one-dimensional arrays. *)
Definition np_matmul (dot : vector -> vector -> float) (xs ys : vector) : res float :=
  if (length xs =? length ys)%nat then Ok (dot xs ys) else Raise ValueError.

(** [np.linalg.norm] of a one-dimensional array: sqrt(x.dot(x)). *)
Definition np_linalg_norm (dot : vector -> vector -> float) (xs : vector) : float :=
  PrimFloat.sqrt (dot xs xs).

(** Both with the terms added from the left. *)
Definition np_dot : vector -> vector -> res float := np_matmul blas_seq.
Definition np_norm : vector -> float := np_linalg_norm blas_seq.

(** [m[r, c]]. *)
Definition getitem2 (m : matrix) (r c : nat) : res float :=
  row ← getitem m r; getitem row c.

(** [argmin] of a one-dimensional float array: the first position of the
    smallest entry, and the first NaN when there is one.  [mp] is the
    smallest entry so far, [mi] its position, [i] the position of the head of
    [xs]. *)
Fixpoint argmin_from (mp : float) (mi i : nat) (xs : vector) : nat :=
  match xs with
  | [] => mi
  | x :: xs' =>
      if is_nan mp then mi
      else if (mp <=? x)%float then argmin_from mp mi (S i) xs'
      else argmin_from x i (S i) xs'
  end.

Definition np_argmin (xs : vector) : res nat :=
  match xs with
  | [] => Raise ValueError
  | x :: xs' => Ok (argmin_from x 0 1 xs')
  end.

(** ** compute_coalescence *)

Definition slatkin_ratio (x : float) : float := ((1 + x) / (1 - x))%float.

(** The body of the inner loop: equation number [k], of the pair (i, j). *)
Definition coalescence_step (t f : vector) (nC2 i : nat) (st : vector * nat) (j : nat) :
    res (vector * nat) :=
  let '(eqs_lst, k) := st in
  tk ← getitem t k;
  ti ← getitem t (nC2 + i);
  tj ← getitem t (nC2 + j);
  fk ← getitem f k;
  let eq := (tk - (0.5 * (ti + tj) * slatkin_ratio fk))%float in
  Ok (eqs_lst ++ [eq], S k).

Definition compute_coalescence_with (dot : vector -> vector -> float)
    (t f : vector) (n : nat) : res float :=
  nC2 ← Z.to_nat <$> comb (Z.of_nat n) 2;
  st ← for_ (range 0 nC2) (fun st i =>
          for_ (range (i + 1) n) (coalescence_step t f nC2 i) st)
        ([], 0%nat);
  Ok (np_linalg_norm dot st.1).

(** With the squares added from the left. *)
Definition compute_coalescence : vector -> vector -> nat -> res float :=
  compute_coalescence_with blas_seq.

(** ** f_to_m *)

(** [(ones + v) / (ones - v)] with [ones = np.ones(n - 1)]. *)
Definition ratio_vector (n : nat) (v : vector) : res vector :=
  let ones := replicate (n - 1) 1%float in
  num ← np_binop PrimFloat.add ones v;
  den ← np_binop PrimFloat.sub ones v;
  np_binop PrimFloat.div num den.

(** [x @ ((ts + t0) * fv)]. *)
Definition weighted_dot (dot : vector -> vector -> float)
    (x ts : vector) (t0 : float) (fv : vector) : res float :=
  w ← np_binop PrimFloat.mul ((fun a => (a + t0)%float) <$> ts) fv;
  np_matmul dot x w.

(** The list of equations whose norm [f_to_m] returns. *)
Definition f_to_m_equations (sum : vector -> float) (dot : vector -> vector -> float)
    (u f : vector) (n : nat) : res vector :=
  let m := take (n ^ 2 - n)%nat u in
  let t := drop (n ^ 2 - n)%nat u in
  for_ (range 0 n) (fun equation_lst i =>
    let incoming_migrants_i := slice ((n - 1) * i) ((n - 1) * i + n - 1) m in
    let m_i := sum incoming_migrants_i in
    let other_t := take i t ++ drop (i + 1) t in
    let f_i_values := slice (n * i) (n * i + i) f ++ slice (n * i + 1 + i) (n * i + n) f in
    f_i_vector ← ratio_vector n f_i_values;
    ti ← getitem t i;
    d ← weighted_dot dot incoming_migrants_i other_t ti f_i_vector;
    let self_eq := ((1 + m_i) * ti - 0.5 * d - 1)%float in
    for_ (range 0 i) (fun equation_lst j =>
      let incoming_migrants_j := slice ((n - 1) * j) ((n - 1) * j + n - 1) m in
      let m_j := sum incoming_migrants_j in
      let f_j_values :=
        slice (n * j) (n * j + i) f ++ slice (n * j + 1 + i) (n * j + n) f in
      let f_i_new_values :=
        slice (n * i) (n * i + j) f ++ slice (n * i + 1 + j) (n * i + n) f in
      f_j_vector ← ratio_vector n f_j_values;
      f_i_new_vector ← ratio_vector n f_i_new_values;
      let t_vals_no_j := take j t ++ drop (j + 1) t in
      tj ← getitem t j;
      fij ← getitem f (n * i + j);
      d_i ← weighted_dot dot incoming_migrants_i other_t tj f_j_vector;
      d_j ← weighted_dot dot incoming_migrants_j t_vals_no_j ti f_i_new_vector;
      let pair_eq :=
        (0.25 * ((m_i + m_j) * (ti + tj) * slatkin_ratio fij - d_i - d_j) - 1)%float in
      Ok (equation_lst ++ [pair_eq])) (equation_lst ++ [self_eq])) [].

Definition f_to_m (sum : vector -> float) (dot : vector -> vector -> float)
    (u f : vector) (n : nat) : res float :=
  np_linalg_norm dot <$> f_to_m_equations sum dot u f n.

(** ** check_constraint *)

(** [t.argmin(axis=1)] takes the argmin of every row, and raises ValueError
    on an array that has no row as on one whose rows are empty. *)
Definition check_constraint (t : matrix) : res bool :=
  min_indices ← match t with
                | [] => Raise ValueError
                | _ => map_res np_argmin t
                end;
  let diag_indices := seq 0 (length t) in
  Ok (negb (existsb (fun ab => negb (ab.1 =? ab.2)%nat) (zip min_indices diag_indices))).

(** ** matrix_distance *)

Definition matrix_distance_with (sum : vector -> float) (a b : matrix) : res float :=
  let n := Z.of_nat (length a) in
  d ← np_binop2 PrimFloat.sub a b;
  let c := fmap (M := list) PrimFloat.abs <$> d in
  float_div_int (sum (concat c)) (n ^ 2 - n).

(** With the entries added from the left. *)
Definition matrix_distance : matrix -> matrix -> res float := matrix_distance_with np_sum.

(** ** find_components *)

(** [x != 0] on float64: true on NaN, false on both zeros. *)
Definition nonzero (x : float) : bool := negb (x =? 0)%float.

(** [matrix[a, b] != 0 or matrix[b, a] != 0]; the second entry is read only
    when the first is zero. *)
Definition edge (m : matrix) (a b : nat) : res bool :=
  x ← getitem2 m a b;
  if nonzero x then Ok true else nonzero <$> getitem2 m b a.

(** The local variables of [find_components].  The dict [comp_dict] keeps its
    keys in insertion order, which [values()] follows. *)
Record bfs_state := {
  components : nat;
  queue : list nat;
  visited : gset nat;
  not_visited : gset nat;
  comp_dict : list (nat * list nat)
}.

(** [d[key].append(v)]. *)
Fixpoint dict_append (d : list (nat * list nat)) (key v : nat) :
    res (list (nat * list nat)) :=
  match d with
  | [] => Raise KeyError
  | (k, l) :: d' =>
      if (k =? key)%nat then Ok ((k, l ++ [v]) :: d')
      else d'' ← dict_append d' key v; Ok ((k, l) :: d'')
  end.

(** [d[key] = l]. *)
Fixpoint dict_set (d : list (nat * list nat)) (key : nat) (l : list nat) :
    list (nat * list nat) :=
  match d with
  | [] => [(key, l)]
  | (k, l') :: d' =>
      if (k =? key)%nat then (k, l) :: d' else (k, l') :: dict_set d' key l
  end.

(** [s.remove(v)]. *)
Definition set_remove (s : gset nat) (v : nat) : res (gset nat) :=
  if decide (v ∈ s) then Ok (s ∖ {[v]}) else Raise KeyError.

(** The body of [for i in range(n)] inside the inner loop. *)
Definition scan_vertex (m : matrix) (cur_vertex : nat) (s : bfs_state) (i : nat) :
    res bfs_state :=
  if decide (i ∈ visited s) then Ok s
  else
    e ← edge m cur_vertex i;
    if e : bool then
      nv ← set_remove (not_visited s) i;
      cd ← dict_append (comp_dict s) (components s) i;
      Ok {| components := components s;
            queue := queue s ++ [i];
            visited := visited s ∪ {[i]};
            not_visited := nv;
            comp_dict := cd |}
    else Ok s.

(** The body of [while len(queue) != 0]. *)
Definition visit_next (m : matrix) (n : nat) (s : bfs_state) : res bfs_state :=
  match queue s with
  | [] => Raise IndexError
  | cur_vertex :: rest =>
      for_ (range 0 n) (scan_vertex m cur_vertex)
        {| components := components s;
           queue := rest;
           visited := visited s;
           not_visited := not_visited s;
           comp_dict := comp_dict s |}
  end.

(** [for vertex in not_visited: ...; break]: the first vertex that iterating
    the set yields opens the next component.  Python leaves the order of a
    set's iteration open; [set_iter] is that order. *)
Definition start_component (set_iter : gset nat -> list nat) (s : bfs_state) :
    res bfs_state :=
  match set_iter (not_visited s) with
  | [] => Ok s
  | vertex :: _ =>
      nv ← set_remove (not_visited s) vertex;
      Ok {| components := S (components s);
            queue := queue s ++ [vertex];
            visited := visited s ∪ {[vertex]};
            not_visited := nv;
            comp_dict := dict_set (comp_dict s) (S (components s)) [vertex] |}
  end.

(** A bound on the iterations of the inner loop: every iteration pops one
    vertex, and every push takes one vertex out of [not_visited]. *)
Definition bfs_fuel (s : bfs_state) : nat :=
  length (queue s) + size (not_visited s).

Definition find_components (set_iter : gset nat -> list nat) (m : matrix) :
    res (list (nat * list nat)) :=
  let n := length m in
  let init :=
    {| components := 1;
       queue := [0%nat];
       visited := {[0%nat]};
       not_visited := list_to_set (seq 1 (n - 1));
       comp_dict := [(1%nat, [0%nat])] |} in
  s ← while_ (size (not_visited init)) (fun s => negb (bool_decide (not_visited s = ∅)))
        (fun s =>
           s' ← while_ (bfs_fuel s) (fun s => negb (bool_decide (queue s = [])))
                  (visit_next m n) s;
           start_component set_iter s')
        init;
  Ok (comp_dict s).

(** ** split_migration_matrix, split_migration *)

(** [m[np.ix_(rows, cols)]]. *)
Definition np_ix_get (m : matrix) (rows cols : list nat) : res matrix :=
  map_res (fun r => map_res (fun c => getitem2 m r c) cols) rows.

Definition split_migration_matrix (migration_matrix : matrix)
    (connected_components : list (list nat)) : res (list matrix) :=
  map_res (fun component => np_ix_get migration_matrix component component)
    connected_components.

Definition split_migration (set_iter : gset nat -> list nat) (migration_matrix : matrix) :
    res (list matrix * list (list nat)) :=
  components ← (fun d => d.*2) <$> find_components set_iter migration_matrix;
  sub_matrices ← split_migration_matrix migration_matrix components;
  Ok (sub_matrices, components).

(** ** reassemble_matrix *)

(** [m[r, c] = v], inside the bounds. *)
Definition set_entry (m : matrix) (r c : nat) (v : float) : matrix :=
  alter (fun row => <[c := v]> row) r m.

(** Whether a two-dimensional value can be stretched to k by k. *)
Definition stretches_to (k : nat) (sub : matrix) : bool :=
  (bool_decide (length sub = k) || bool_decide (length sub = 1%nat))
  && forallb (fun row => bool_decide (length row = k) || bool_decide (length row = 1%nat)) sub.

(** The entry of the stretched value at position (a, b). *)
Definition stretched_entry (sub : matrix) (a b : nat) : float :=
  let row := if bool_decide (length sub = 1%nat) then sub !!! 0%nat else sub !!! a in
  if bool_decide (length row = 1%nat) then row !!! 0%nat else row !!! b.

(** [adjacency[np.ix_(indices, indices)] = sub_matrix]: position (a, b) of the
    value goes to row [indices[a]], column [indices[b]], in row-major order. *)
Definition np_ix_set (adjacency : matrix) (indices : list nat) (sub_matrix : matrix) :
    res matrix :=
  let k := length indices in
  if negb (forallb (fun v => v <? length adjacency)%nat indices) then Raise IndexError
  else if negb (stretches_to k sub_matrix) then Raise ValueError
  else
    Ok (foldl (fun adj ar =>
          foldl (fun adj bc => set_entry adj ar.2 bc.2 (stretched_entry sub_matrix ar.1 bc.1))
            adj (zip (seq 0 k) indices))
        adjacency (zip (seq 0 k) indices)).

Definition reassemble_matrix (sub_matrices : list matrix)
    (connected_components : list (list nat)) (which : string) : res matrix :=
  let num_nodes := foldl Nat.add 0%nat (length <$> connected_components) in
  let fill := if String.eqb which "fst" then 1%float else infinity in
  let adjacency_matrix := replicate num_nodes (replicate num_nodes fill) in
  for_ (zip connected_components sub_matrices)
    (fun adj cs => np_ix_set adj cs.1 cs.2) adjacency_matrix.

(** ** numpy: integer indices, rint and round *)

(** The position that a Python integer [i] names in an array of length [n]:
    0, ..., n-1 from the front, -1, ..., -n from the back; IndexError
    outside. *)
Definition np_index (n : nat) (i : Z) : res nat :=
  if (0 <=? i) && (i <? Z.of_nat n) then Ok (Z.to_nat i)
  else if (- Z.of_nat n <=? i) && (i <? 0) then Ok (Z.to_nat (Z.of_nat n + i))
  else Raise IndexError.

(** [x[i]] on a one-dimensional array. *)
Definition np_getitem (x : vector) (i : Z) : res float :=
  p ← np_index (length x) i; getitem x p.

(** [m[i, :]] and [m[:, i]] on a two-dimensional array with at least one
    row. *)
Definition np_row (m : matrix) (i : Z) : res vector :=
  p ← np_index (length m) i; getitem m p.

Definition np_column (m : matrix) (i : Z) : res vector :=
  map_res (fun row => np_getitem row i) m.

(** [x != y] on float64: true when one of them is NaN. *)
Definition np_ne (x y : float) : bool := negb (x =? y)%float.

(** [rint]: the nearest integer, ties to the even one, with the sign of the
    argument; infinities and NaN are left as they are. *)
Definition SFrint (x : spec_float) : spec_float :=
  match x with
  | S754_finite s m e =>
      if 0 <=? e then x
      else
        let d := 2 ^ (- e) in
        let q := Z.pos m / d in
        let r := Z.pos m mod d in
        let up := match 2 * r ?= d with
                  | Lt => false
                  | Eq => Z.odd q
                  | Gt => true
                  end in
        binary_normalize prec emax (cond_Zopp s (if up then q + 1 else q)) 0 s
  | _ => x
  end.

Definition np_rint (x : float) : float := SF2Prim (SFrint (Prim2SF x)).

(** [x.round(2)]: numpy multiplies by 100.0, rounds to an integer and
    divides by 100.0. *)
Definition np_round2 (x : float) : float := (np_rint (x * 100) / 100)%float.

(** ** constraint_generator *)

(** [constraint_generator(i, j)] applied to [x]. *)
Definition constraint_generator (i j : Z) (x : vector) : res float :=
  xi ← np_getitem x i;
  xj ← np_getitem x j;
  Ok (xi - xj)%float.

(** ** cons_migration_constraint_generator *)

(** The rows of [np.vstack(np.indices((n, n))).reshape(2, -1).T]: the
    positions (r, c) of an n-by-n array in row-major order. *)
Definition np_index_pairs (n : nat) : list (nat * nat) :=
  r ← seq 0 n; pair r <$> seq 0 n.

(** [m[(rows, cols)] = values] for positions inside [m]: the values go to
    the positions in order; a single value goes to all of them, and any
    other number of values that is not the number of positions is a
    ValueError. *)
Definition np_fancy_set (m : matrix) (positions : list (nat * nat)) (values : vector) :
    res matrix :=
  vs ← (if (length values =? length positions)%nat then Ok values
        else if (length values =? 1)%nat
             then Ok (replicate (length positions) (values !!! 0%nat))
             else Raise ValueError);
  Ok (foldl (fun a pv => set_entry a pv.1.1 pv.1.2 pv.2) m (zip positions vs)).

(** The matrix [m] that the constraint builds from [x]. *)
Definition cons_migration_matrix (n : nat) (x : vector) : res matrix :=
  let m_values := take (n ^ 2 - n)%nat x in
  let indices := np_index_pairs n in
  let mask := fun rc : nat * nat => rc.1 <> rc.2 in
  let m := replicate n (replicate n 0%float) in
  np_fancy_set m (filter mask indices) m_values.

(** [cons_migration_constraint_generator(n, i)] applied to [x]. *)
Definition cons_migration_constraint_generator_with (sum : vector -> float)
    (n : nat) (i : Z) (x : vector) : res float :=
  m ← cons_migration_matrix n x;
  row ← np_row m i;
  col ← np_column m i;
  Ok (np_round2 (sum row) - np_round2 (sum col))%float.

(** With the entries added from the left. *)
Definition cons_migration_constraint_generator : nat -> Z -> vector -> res float :=
  cons_migration_constraint_generator_with np_sum.

(** ** check_conservative *)

(** The loop over the populations [is_] that are still to be checked; it
    returns at the first one whose rounded sums differ. *)
Fixpoint check_conservative_from (sum : vector -> float) (m : matrix) (is_ : list nat) :
    res bool :=
  match is_ with
  | [] => Ok true
  | i :: rest =>
      row ← getitem m i;
      col ← map_res (fun r => getitem r i) m;
      if np_ne (np_round2 (sum row)) (np_round2 (sum col)) then Ok false
      else check_conservative_from sum m rest
  end.

Definition check_conservative_with (sum : vector -> float) (m : matrix) : res bool :=
  check_conservative_from sum m (range 0 (length m)).

(** With the entries added from the left. *)
Definition check_conservative : matrix -> res bool := check_conservative_with np_sum.

(** ** diameter *)

(** The values of [max_diam]: the integer 0 that it starts with, or a
    float. *)
Inductive pynum : Set :=
  | PyZero
  | PyFloat (x : float).

(** [b > a] for a float [b]; Python compares a float with the integer 0 as
    with the float 0.0. *)
Definition py_gt (b : float) (a : pynum) : bool :=
  match a with
  | PyZero => (0 <? b)%float
  | PyFloat x => (x <? b)%float
  end.

(** [max(a, b)]: [a] unless [b > a]. *)
Definition py_max (a : pynum) (b : float) : pynum :=
  if py_gt b a then PyFloat b else a.

Definition diameter (mats : list matrix) : res pynum :=
  for_ (range 0 (length mats)) (fun max_diam i =>
    for_ (range 0 i) (fun max_diam j =>
      mi ← getitem mats i;
      mj ← getitem mats j;
      d ← matrix_distance mi mj;
      Ok (py_max max_diam d)) max_diam) PyZero.

(** * The vocabulary of the specification *)

(** An n-by-n array. *)
Definition square (n : nat) (a : matrix) : Prop :=
  length a = n /\ Forall (fun row => length row = n) a.

(** A[i][j], and v[i], read without a bounds check. *)
Definition entry (a : matrix) (i j : nat) : float := (a !!! i) !!! j.

(** The float nearest to an integer. *)
Definition float_of_Z (z : Z) : float := SF2Prim (binary_normalize prec emax z 0 false).

(** A dimension n whose n^2 entries can be counted exactly in a float, as it
    is for every array that fits a machine's memory. *)
Definition machine_dim (n : nat) : Prop := Z.of_nat n < 2 ^ 26.

(** A float that is a number: not an infinity and not NaN. *)
Definition is_number (x : float) : Prop :=
  match Prim2SF x with
  | S754_zero _ | S754_finite _ _ _ => True
  | _ => False
  end.

(** The n^2 values |A[i][j] - B[i][j]|, row by row, and their sum from the
    left. *)
Definition abs_diffs (a b : matrix) (n : nat) : vector :=
  concat ((fun i =>
    (fun j => PrimFloat.abs (entry a i j - entry b i j)) <$> seq 0 n) <$> seq 0 n).

Definition abs_diff_sum (a b : matrix) (n : nat) : float := np_sum (abs_diffs a b n).

(** *** What is assumed of [np.sum] and of the dot product of BLAS *)

(** [fma x y z], the fused multiply-add of IEEE 754: x y + z, rounded once. *)
Definition SFfma (x y z : spec_float) : spec_float :=
  match x, y, z with
  | S754_finite sx mx ex, S754_finite sy my ey, S754_finite _ _ _ =>
      SFadd prec emax (S754_finite (xorb sx sy) (mx * my) (ex + ey)) z
  | S754_finite _ _ _, S754_finite _ _ _, S754_zero _ => SFmul prec emax x y
  | _, _, _ => SFadd prec emax (SFmul prec emax x y) z
  end.

Definition fma (x y z : float) : float :=
  SF2Prim (SFfma (Prim2SF x) (Prim2SF y) (Prim2SF z)).

(** [sum_of xs s]: s is what adding up the entries of [xs] gives, in some
    order and some grouping, each addition rounded; an empty sum is a zero
    of either sign. *)
Inductive sum_of : vector -> float -> Prop :=
  | sum_of_zero : sum_of [] 0%float
  | sum_of_neg_zero : sum_of [] neg_zero
  | sum_of_one x : sum_of [x] x
  | sum_of_add xs ys s t : sum_of xs s -> sum_of ys t -> sum_of (xs ++ ys) (s + t)%float
  | sum_of_perm xs ys s : xs ≡ₚ ys -> sum_of xs s -> sum_of ys s.

(** [dot_of ps s]: s is what adding up the products of the pairs [ps]
    gives, in some order and some grouping, a product being rounded on its
    own or fused with the addition that takes it in. *)
Inductive dot_of : list (float * float) -> float -> Prop :=
  | dot_of_zero : dot_of [] 0%float
  | dot_of_neg_zero : dot_of [] neg_zero
  | dot_of_mul x y : dot_of [(x, y)] (x * y)%float
  | dot_of_fma x y ps s : dot_of ps s -> dot_of ((x, y) :: ps) (fma x y s)
  | dot_of_add ps qs s t : dot_of ps s -> dot_of qs t -> dot_of (ps ++ qs) (s + t)%float
  | dot_of_perm ps qs s : ps ≡ₚ qs -> dot_of ps s -> dot_of qs s.

(** A sum as numpy may compute it, and a dot product as BLAS may. *)
Definition summation (sum : vector -> float) : Prop :=
  forall xs, sum_of xs (sum xs).

Definition dot_product (dot : vector -> vector -> float) : Prop :=
  forall xs ys, length xs = length ys -> dot_of (zip xs ys) (dot xs ys).

(** The Euclidean norm of a vector in binary64: the square root of a sum of
    the squares of its entries. *)
Definition euclidean_norm_of (v : vector) (r : float) : Prop :=
  exists s, dot_of (zip v v) s /\ r = PrimFloat.sqrt s.

(** A float that is zero or above: not NaN and not negative. *)
Definition not_below_zero (x : float) : Prop := (0 <=? x)%float = true.

(** C(n,2), the number of unordered pairs of populations. *)
Definition n_choose_2 (n : nat) : nat := n * (n - 1) / 2.

(** The unordered pairs (i, j), i < j < n, in row-major order:
    (0,1), (0,2), ..., (0,n-1), (1,2), ... *)
Definition pairs (n : nat) : list (nat * nat) :=
  i ← seq 0 n; pair i <$> seq (i + 1) (n - (i + 1)).

(** The Slatkin residual of the k-th pair (i, j):
    t[k] - 0.5 (T(i,i) + T(j,j)) (1 + f[k]) / (1 - f[k]),
    the diagonal times standing after the C(n,2) between-population times. *)
Definition slatkin_residual (t f : vector) (n k : nat) (ij : nat * nat) : float :=
  (t !!! k
   - 0.5 * (t !!! (n_choose_2 n + ij.1)%nat + t !!! (n_choose_2 n + ij.2)%nat)
     * slatkin_ratio (f !!! k))%float.

Definition residual_vector (t f : vector) (n : nat) : vector :=
  imap (slatkin_residual t f n) (pairs n).

(** An infinity or NaN. *)
Definition not_a_number (x : float) : Prop :=
  match Prim2SF x with
  | S754_infinity _ | S754_nan => True
  | _ => False
  end.

(** The populations other than i, in increasing order. *)
Definition others (n i : nat) : list nat := seq 0 i ++ seq (i + 1) (n - (i + 1)).

(** The layout of the joint unknown vector u and of the flattened Fst array:
    the migration rate M(i,k), k <> i; the diagonal time T(k,k); f(a,b). *)
Definition migration (u : vector) (n i k : nat) : float :=
  u !!! ((n - 1) * i + (if decide (k < i)%nat then k else k - 1))%nat.
Definition diag_time (u : vector) (n k : nat) : float := u !!! (n ^ 2 - n + k)%nat.
Definition fst_entry (f : vector) (n a b : nat) : float := f !!! (n * a + b)%nat.

(** In the equations of [f_to_m], [sum] is the sum of numpy and [dot] the
    dot product of BLAS. *)

(** M_i, the sum of M(i,k) over k <> i. *)
Definition incoming (sum : vector -> float) (u : vector) (n i : nat) : float :=
  sum (migration u n i <$> others n i).

(** The sum over the populations [ks] of M(i,k) (T(k,k) + T(j,j)) (1 + f(r,k)) / (1 - f(r,k)),
    where r is the row of the Fst array that is read: the dot product of
    the rates M(i,k) and the weights (T(k,k) + T(j,j)) (1 + f(r,k)) / (1 - f(r,k)). *)
Definition migration_sum (dot : vector -> vector -> float) (u f : vector) (n i j r : nat)
    (ks : list nat) : float :=
  dot (migration u n i <$> ks)
      ((fun k => ((diag_time u n k + diag_time u n j)
                  * slatkin_ratio (fst_entry f n r k))%float) <$> ks).

Section Equations.
Variable sum : vector -> float.
Variable dot : vector -> vector -> float.

(** The self equation of population i. *)
Definition self_residual (u f : vector) (n i : nat) : float :=
  ((1 + incoming sum u n i) * diag_time u n i
   - 0.5 * migration_sum dot u f n i i i (others n i) - 1)%float.

(** The pair equation as [f_to_m] computes it, for j < i: the first sum runs
    over all k <> i (k = j included) and reads row j of the Fst array, the
    diagonal entry f(j,j) included; the second runs over all k <> j and reads
    row i. *)
Definition pair_residual (u f : vector) (n i j : nat) : float :=
  (0.25 * ((incoming sum u n i + incoming sum u n j) * (diag_time u n i + diag_time u n j)
             * slatkin_ratio (fst_entry f n i j)
           - migration_sum dot u f n i j j (others n i)
           - migration_sum dot u f n j i i (others n j)) - 1)%float.

(** The pair equation as the specification writes it: both sums run over
    the k different from both i and j, and the sum weighted by M(i,k) reads
    f(i,k). *)
Definition pair_residual_claimed (u f : vector) (n i j : nat) : float :=
  (0.25 * ((incoming sum u n i + incoming sum u n j) * (diag_time u n i + diag_time u n j)
             * slatkin_ratio (fst_entry f n i j)
           - migration_sum dot u f n i j i (filter (fun k => k <> j) (others n i))
           - migration_sum dot u f n j i j (filter (fun k => k <> i) (others n j))) - 1)%float.

(** The equations in the order [f_to_m] appends them: for every i, the self
    equation of i and then the pair equations of (i, 0), ..., (i, i - 1). *)
Definition joint_equations (u f : vector) (n : nat) : vector :=
  i ← seq 0 n; self_residual u f n i :: (pair_residual u f n i <$> seq 0 i).

End Equations.

(** Where the equation of the pair (i, j), j < i, stands in that list. *)
Definition pair_position (i j : nat) : nat := i * (i + 1) / 2 + 1 + j.

(** Column [c] holds the first minimum of the row: its value is at most
    every entry, and every entry to its left is larger. *)
Definition first_minimum_at (row : vector) (c : nat) : Prop :=
  exists x, row !! c = Some x
    /\ (forall y, y ∈ row -> (x <=? y)%float = true)
    /\ (forall j y, (j < c)%nat -> row !! j = Some y -> (y <=? x)%float = false).

(** A matrix without NaN entries. *)
Definition nan_free (t : matrix) : Prop :=
  Forall (Forall (fun x => is_nan x = false)) t.

(** The value [reassemble_matrix] starts from. *)
Definition fill_value (which : string) : float :=
  if String.eqb which "fst" then 1%float else infinity.

(** The component lists partition {0, ..., N-1}, N the number of vertices
    they hold, and the sub-matrices have the shapes of the components. *)
Definition matching (sub_matrices : list matrix) (comps : list (list nat)) : Prop :=
  concat comps ≡ₚ seq 0 (length (concat comps))
  /\ Forall2 (fun comp sub => square (length comp) sub) comps sub_matrices.

(** The undirected edge relation of an adjacency matrix: an edge joins a and
    b when M[a][b] or M[b][a] is not zero. *)
Definition adjacent (m : matrix) (a b : nat) : bool :=
  nonzero (entry m a b) || nonzero (entry m b a).

(** Vertices joined by a path of edges inside {0, ..., n-1}. *)
Definition connected (m : matrix) (n : nat) : relation nat :=
  rtc (fun a b => (a < n)%nat /\ (b < n)%nat /\ adjacent m a b = true).

(** What a breadth-first search discovers when it visits [v]: the neighbours
    of [v] not seen before, by increasing index. *)
Definition discovered_from (m : matrix) (n : nat) (seen : list nat) (v : nat) : list nat :=
  filter (fun w => adjacent m v w = true /\ w ∉ seen) (seq 0 n).

(** A breadth-first search with a first-in first-out queue: the vertex at the
    head of the queue is visited, and what it discovers joins the end of the
    queue and of the discovery order.  [bfs_run m n queue seen order]: started
    with this queue and these vertices seen, the search ends with the
    discovery order [order]. *)
Inductive bfs_run (m : matrix) (n : nat) : list nat -> list nat -> list nat -> Prop :=
  | bfs_done seen : bfs_run m n [] seen seen
  | bfs_visit v queue seen order :
      bfs_run m n (queue ++ discovered_from m n seen v)
                  (seen ++ discovered_from m n seen v) order ->
      bfs_run m n (v :: queue) seen order.

(** The discovery order of the search started at [s]. *)
Definition bfs_order (m : matrix) (n s : nat) (order : list nat) : Prop :=
  bfs_run m n [s] [s] order.

(** An order of iteration over sets: every element once. *)
Definition iterates (set_iter : gset nat -> list nat) : Prop :=
  forall s, set_iter s ≡ₚ elements s.

(** An order of iteration that yields the elements in increasing order. *)
Definition ascending (set_iter : gset nat -> list nat) : Prop :=
  forall s, StronglySorted le (set_iter s).

(** The vertices of {0, ..., n-1} outside the components [comps]. *)
Definition unvisited (n : nat) (comps : list (list nat)) : gset nat :=
  list_to_set (seq 0 n) ∖ list_to_set (concat comps).

(** The vertex that opens a component, given the components before it:
    vertex 0 for the first, and then the first vertex that iterating the
    unvisited set yields. *)
Definition start_of (set_iter : gset nat -> list nat) (n : nat)
    (earlier : list (list nat)) : option nat :=
  match earlier with
  | [] => Some 0%nat
  | _ => head (set_iter (unvisited n earlier))
  end.

(** The dict that maps the labels 1, 2, ... to the components in order. *)
Definition labelled (comps : list (list nat)) : list (nat * list nat) :=
  zip (seq 1 (length comps)) comps.

(** The iteration that yields the elements of a set in increasing order, as
    CPython does for the sets of small integers that [find_components]
    builds. *)
Definition increasing (s : gset nat) : list nat := merge_sort le (elements s).

(** A graph with one component: some vertex is joined to every vertex. *)
Definition single_component (m : matrix) (n : nat) : Prop :=
  exists s, (s < n)%nat /\ forall v, (v < n)%nat -> connected m n s v.

(** [split_migration] followed by [reassemble_matrix]. *)
Definition round_trip (set_iter : gset nat -> list nat) (m : matrix) (which : string) :
    res matrix :=
  sc ← split_migration set_iter m; reassemble_matrix sc.1 sc.2 which.

(** ** More vocabulary *)

(** The rows and columns [comp] of a matrix, in the order of [comp]. *)
Definition restriction (m : matrix) (comp : list nat) : matrix :=
  (fun r => (fun c => entry m r c) <$> comp) <$> comp.

(** Column i of a matrix, and the transposed n-by-n matrix. *)
Definition column (m : matrix) (i : nat) : vector := (fun row => row !!! i) <$> m.

Definition transpose (n : nat) (m : matrix) : matrix :=
  (fun j => (fun i => entry m i j) <$> seq 0 n) <$> seq 0 n.

(** Population i is balanced: the sum of row i and the sum of column i,
    both rounded to two decimals, are equal floats. *)
Definition balanced (sum : vector -> float) (m : matrix) (i : nat) : bool :=
  (np_round2 (sum (m !!! i)) =? np_round2 (sum (column m i)))%float.

(** The migration matrix that the unknown vector [x] holds in the layout of
    [f_to_m]: M(a,b) for a <> b, and 0 on the diagonal. *)
Definition migration_matrix (x : vector) (n : nat) : matrix :=
  (fun a => (fun b => if decide (a = b) then 0%float else migration x n a b) <$> seq 0 n)
    <$> seq 0 n.

(** The pairs (i, j), j < i < k, in the order in which [diameter] visits
    them. *)
Definition lower_pairs (k : nat) : list (nat * nat) :=
  i ← seq 0 k; pair i <$> seq 0 i.
(** * Definitions of the proofs *)

(** The significand and exponent of an integer below 2^53 as a binary64. *)
Definition sig53 (N : Z) : positive := Z.to_pos (N * 2 ^ (52 - Z.log2 N)).
Definition exp53 (N : Z) : Z := Z.log2 N - 52.

(** The pairs whose first index is in [is_]. *)
Definition pairs_of (n : nat) (is_ : list nat) : list (nat * nat) :=
  i ← is_; pair i <$> seq (i + 1) (n - (i + 1)).

(** The residuals of the pairs [ps], the first of them being pair number [k]. *)
Definition residuals_from (t f : vector) (n k : nat) (ps : list (nat * nat)) : vector :=
  imap (fun p => slatkin_residual t f n (k + p)) ps.

(** The two parts of the unknown vector of [f_to_m]: the migration rates and
    the coalescence times. *)
Definition migration_part (u : vector) (n : nat) : vector := take (n ^ 2 - n) u.
Definition time_part (u : vector) (n : nat) : vector := drop (n ^ 2 - n) u.

(** A float that is not NaN, as a triple of integers whose lexicographic
    order is the order of the floats: the sign class first, then the
    exponent and the significand (negated below zero). *)
Definition order_key (x : spec_float) : Z * Z * Z :=
  match x with
  | S754_nan => (0, 0, 0)
  | S754_zero _ => (0, 0, 0)
  | S754_infinity true => (-2, 0, 0)
  | S754_infinity false => (2, 0, 0)
  | S754_finite true m e => (-1, - e, - Z.pos m)
  | S754_finite false m e => (1, e, Z.pos m)
  end.

(** The lexicographic order of such triples. *)
Definition lex_le (a b : Z * Z * Z) : Prop :=
  a.1.1 < b.1.1
  \/ (a.1.1 = b.1.1 /\ (a.1.2 < b.1.2 \/ (a.1.2 = b.1.2 /\ a.2 <= b.2))).

(** The order of the floats that are not NaN. *)
Definition float_le (x y : float) : Prop :=
  lex_le (order_key (Prim2SF x)) (order_key (Prim2SF y)).

(** The position that [np_argmin] returns on a row. *)
Definition argmin (row : vector) : nat :=
  match row with
  | [] => 0%nat
  | x :: xs => argmin_from x 0 1 xs
  end.

(** A row without NaN. *)
Definition no_nan (row : vector) : Prop := Forall (fun x => is_nan x = false) row.

(** A list of writes [(r, c, v)], applied from the left. *)
Definition write (a : matrix) (w : nat * nat * float) : matrix :=
  set_entry a w.1.1 w.1.2 w.2.

(** The writes of [adjacency[np.ix_(indices, indices)] = sub]. *)
Definition block_writes (indices : list nat) (sub : matrix) : list (nat * nat * float) :=
  ar ← zip (seq 0 (length indices)) indices;
  bc ← zip (seq 0 (length indices)) indices;
  [(ar.2, bc.2, stretched_entry sub ar.1 bc.1)].

(** The writes of all components, in the order of the loop. *)
Definition all_writes (comps : list (list nat)) (subs : list matrix) :
    list (nat * nat * float) :=
  cs ← zip comps subs; block_writes cs.1 cs.2.

(** The local variables when [done] are the finished components, [cur] the
    component being explored and [q] the queue. *)
Definition search_state (n : nat) (done : list (list nat)) (cur q : list nat) : bfs_state :=
  {| components := S (length done);
     queue := q;
     visited := list_to_set (concat done ++ cur);
     not_visited := list_to_set (seq 0 n) ∖ list_to_set (concat done ++ cur);
     comp_dict := labelled (done ++ [cur]) |}.

(** Every neighbour of a vertex of [part] is in [whole]. *)
Definition closed_in (m : matrix) (n : nat) (part whole : list nat) : Prop :=
  forall a b, a ∈ part -> (b < n)%nat -> adjacent m a b = true -> b ∈ whole.

(** The state of the search: the components [done] are complete, [cur] is the
    discovery order of the component of [s] so far, and [q] is the queue. *)
Record search_inv (m : matrix) (n : nat) (done : list (list nat)) (cur q : list nat)
    (s : nat) : Prop := {
  inv_nodup : NoDup (concat done ++ cur);
  inv_bound : Forall (fun v => (v < n)%nat) (concat done ++ cur);
  inv_done : closed_in m n (concat done) (concat done);
  inv_queue : exists proc, cur = proc ++ q /\ closed_in m n proc (concat done ++ cur);
  inv_connected : forall v, v ∈ cur -> connected m n s v;
  inv_run : forall order, bfs_run m n q cur order -> bfs_run m n [s] [s] order;
  inv_head : head cur = Some s
}.

(** When the queue is empty, or no vertex is left, the component is whole. *)
Definition search_over (n : nat) (done : list (list nat)) (cur q : list nat) : Prop :=
  q = [] \/ forall x, (x < n)%nat -> x ∈ concat done ++ cur.

(** A component of the result, given the components before it: it starts at
    the vertex [start_of] names, lists what a breadth-first search from that
    vertex discovers, in that order, and holds the vertices joined to it. *)
Definition component_of (set_iter : gset nat -> list nat) (m : matrix) (n : nat)
    (earlier : list (list nat)) (comp : list nat) : Prop :=
  exists s, start_of set_iter n earlier = Some s /\ head comp = Some s
    /\ bfs_order m n s comp
    /\ forall v, v ∈ comp <-> (v < n)%nat /\ connected m n s v.

(** The invariant of the outer loop. *)
Definition components_inv (set_iter : gset nat -> list nat) (m : matrix) (n : nat)
    (done : list (list nat)) (cur q : list nat) (s : nat) : Prop :=
  search_inv m n done cur q s
  /\ start_of set_iter n done = Some s
  /\ forall p comp, done !! p = Some comp -> component_of set_iter m n (take p done) comp.


(** A float with the sign [s]: a zero, a number or an infinity, not NaN. *)
Definition SFsigned (s : bool) (x : spec_float) : Prop :=
  match x with
  | S754_zero s' | S754_infinity s' | S754_finite s' _ _ => s' = s
  | S754_nan => False
  end.

(** The value of a float that is a number, counted in units of 2^-1074, the
    smallest positive float. *)
Definition SFunits (x : spec_float) : Z :=
  match x with
  | S754_finite s m e => cond_Zopp s (Z.pos m * 2 ^ (e + 1074))
  | _ => 0
  end.

(** A zero or a finite float. *)
Definition SFnumber (x : spec_float) : Prop :=
  match x with
  | S754_zero _ | S754_finite _ _ _ => True
  | _ => False
  end.

(** How a float compares with zero. *)
Definition SFsign_class (x : spec_float) : option comparison :=
  match x with
  | S754_zero _ => Some Eq
  | S754_infinity s | S754_finite s _ _ => Some (if s then Lt else Gt)
  | S754_nan => None
  end.

(** A float that is not below zero: NaN, or a zero, a number or an infinity
    with the sign bit clear. *)
Definition SFnot_negative (x : spec_float) : Prop := x = S754_nan \/ SFsigned false x.
(** * Proofs *)

(** ** Integer and float arithmetic *)

(** The float specification is written with the core library's integer
    operations; [std_Z] restates them as the standard library's, which
    [lia] knows. *)
Ltac std_Z :=
  change IntDef.Z.add with Z.add in *;
  change IntDef.Z.sub with Z.sub in *;
  change IntDef.Z.mul with Z.mul in *;
  change IntDef.Z.opp with Z.opp in *;
  change IntDef.Z.min with Z.min in *;
  change IntDef.Z.max with Z.max in *;
  change IntDef.Z.leb with Z.leb in *;
  change IntDef.Z.ltb with Z.ltb in *;
  change IntDef.Z.eqb with Z.eqb in *;
  change IntDef.Z.compare with Z.compare in *;
  change IntDef.Z.even with Z.even in *;
  change IntDef.Z.shiftl with Z.shiftl in *;
  change IntDef.Z.div_eucl with Z.div_eucl in *.

Lemma digits2_pos_log2 p : Z.pos (digits2_pos p) = Z.log2 (Z.pos p) + 1.
Proof.
  destruct p as [p|p|]; simpl; try reflexivity;
    rewrite Pos2Z.inj_succ; f_equal; induction p; simpl; try reflexivity;
    rewrite IHp; reflexivity.
Qed.

Lemma Zdigits2_log2 z : 0 < z -> Zdigits2 z = Z.log2 z + 1.
Proof. destruct z; try lia. intros _. apply digits2_pos_log2. Qed.

Lemma div_eucl_pair a b : Z.div_eucl a b = (a / b, a mod b).
Proof. unfold Z.div, Z.modulo. destruct (Z.div_eucl a b); reflexivity. Qed.

Lemma fexp_mid e : -1021 <= e -> fexp prec emax e = e - 53.
Proof. unfold fexp, SpecFloat.emin, prec, emax. std_Z. lia. Qed.

(** Rounding a significand that already fits leaves it as it is. *)
Lemma round_canonical s m e :
  0 < m -> fexp prec emax (Zdigits2 m + e) = e -> e <= emax - prec ->
  binary_round_aux prec emax s m e loc_Exact = S754_finite s (Z.to_pos m) e.
Proof.
  intros Hm Hc He. unfold binary_round_aux, shr_fexp. std_Z.
  rewrite Hc, Z.sub_diag.
  simpl. rewrite Hc, Z.sub_diag. simpl.
  destruct m; try lia. simpl.
  destruct (e <=? emax - prec) eqn:E; [reflexivity | lia].
Qed.

(** An even significand one bit too long loses its last, zero, bit. *)
Lemma round_shift1 s m e :
  0 < m -> fexp prec emax (Zdigits2 m + (e + 1)) = e + 1 -> e + 1 <= emax - prec ->
  binary_round_aux prec emax s (2 * m) e loc_Exact = S754_finite s (Z.to_pos m) (e + 1).
Proof.
  intros Hm Hc He. unfold binary_round_aux, shr_fexp. std_Z.
  destruct m as [|p|]; try lia.
  change (2 * Z.pos p) with (Z.pos p~0).
  replace (fexp prec emax (Zdigits2 (Z.pos p~0) + e) - e) with 1.
  2:{ rewrite Zdigits2_log2 in * by lia. rewrite Pos2Z.inj_xO, Z.log2_double by lia.
      replace (Z.succ (Z.log2 (Z.pos p)) + 1 + e) with (Z.log2 (Z.pos p) + 1 + (e + 1)) by lia.
      rewrite Hc. lia. }
  simpl. simpl in Hc. rewrite Hc. replace (e + 1 - (e + 1)) with 0 by lia. simpl.
  destruct (e + 1 <=? emax - prec) eqn:E; [reflexivity | lia].
Qed.

(** Dividing a multiple [N * b] by [b] gives [N] itself when [N] has at most
    53 bits: nothing is rounded away. *)
Lemma SFdiv_multiple (N b : Z) :
  0 < b -> 0 < N < 2 ^ 53 ->
  SFdiv prec emax (Z2SF (N * b)) (Z2SF b) = S754_finite false (sig53 N) (exp53 N).
Proof.
  intros Hb HN. unfold sig53, exp53.
  assert (Ha : 0 < N * b) by lia.
  pose proof (Z.log2_mul_below N b ltac:(lia) ltac:(lia)) as Hlo.
  pose proof (Z.log2_mul_above N b ltac:(lia) ltac:(lia)) as Hhi.
  assert (HlN : 0 <= Z.log2 N < 53).
  { split; [apply Z.log2_nonneg|]. apply Z.log2_lt_pow2; lia. }
  destruct b as [|pb|]; try lia.
  destruct (N * Z.pos pb) as [|pa|] eqn:Eab; try lia.
  unfold Z2SF, SFdiv, SFdiv_core_binary. std_Z.
  rewrite !Zdigits2_log2 by lia.
  set (d := Z.log2 (Z.pos pa) + 1 + 0 - (Z.log2 (Z.pos pb) + 1 + 0)).
  assert (Hd : d = Z.log2 N \/ d = Z.log2 N + 1) by (unfold d; lia).
  clearbody d.
  rewrite (fexp_mid d) by lia.
  replace (Z.min (d - 53) (0 - 0)) with (d - 53) by lia.
  replace (0 - 0 - (d - 53)) with (53 - d) by lia.
  assert (Hm' : match 53 - d with
                | 0 => Z.pos pa
                | Z.pos _ => Z.shiftl (Z.pos pa) (53 - d)
                | Z.neg _ => 0
                end = N * 2 ^ (53 - d) * Z.pos pb).
  { destruct (53 - d) eqn:E; [ | | lia ].
    - rewrite <- Eab, Z.pow_0_r. ring.
    - rewrite Z.shiftl_mul_pow2 by lia. rewrite <- Eab. ring. }
  rewrite Hm', div_eucl_pair. rewrite Z.div_mul by lia. rewrite Z.mod_mul by lia.
  assert (Hloc : new_location (Z.pos pb) 0 = loc_Exact).
  { unfold new_location, new_location_even, new_location_odd.
    destruct (Z.even (Z.pos pb)); reflexivity. }
  rewrite Hloc. cbn [xorb].
  assert (Hpow : 0 < 2 ^ (52 - Z.log2 N)) by (apply Z.pow_pos_nonneg; lia).
  destruct Hd as [Hd|Hd]; rewrite Hd.
  - replace (53 - Z.log2 N) with (Z.succ (52 - Z.log2 N)) by lia.
    rewrite Z.pow_succ_r by lia.
    replace (N * (2 * 2 ^ (52 - Z.log2 N))) with (2 * (N * 2 ^ (52 - Z.log2 N))) by lia.
    rewrite round_shift1.
    + f_equal. lia.
    + lia.
    + rewrite Zdigits2_log2, Z.log2_mul_pow2 by lia. rewrite fexp_mid by lia. lia.
    + unfold emax, prec. lia.
  - replace (53 - (Z.log2 N + 1)) with (52 - Z.log2 N) by lia.
    rewrite round_canonical.
    + f_equal. lia.
    + lia.
    + rewrite Zdigits2_log2, Z.log2_mul_pow2 by lia. rewrite fexp_mid by lia. lia.
    + unfold emax, prec. lia.
Qed.

Lemma sig53_valid N :
  0 < N < 2 ^ 53 -> valid_binary (S754_finite false (sig53 N) (exp53 N)) = true.
Proof.
  intros HN. unfold sig53, exp53.
  assert (HlN : 0 <= Z.log2 N < 53).
  { split; [apply Z.log2_nonneg|]. apply Z.log2_lt_pow2; lia. }
  assert (Hpow : 0 < 2 ^ (52 - Z.log2 N)) by (apply Z.pow_pos_nonneg; lia).
  unfold SpecFloat.valid_binary, bounded, canonical_mantissa. std_Z.
  rewrite digits2_pos_log2, Z2Pos.id by lia.
  rewrite Z.log2_mul_pow2 by lia.
  rewrite fexp_mid by lia.
  apply andb_true_intro; split; [apply Z.eqb_eq | apply Z.leb_le; unfold emax, prec];
    lia.
Qed.

(** [int(a / b)] is exact on a multiple of [b] whose quotient has at most 53
    bits. *)
Lemma int_truediv_multiple (N b : Z) :
  0 < b -> 0 < N < 2 ^ 53 ->
  int_truediv (N * b) b ≫= int_of_float = Ok N.
Proof.
  intros Hb HN. unfold int_truediv.
  destruct (b =? 0) eqn:E; [lia|].
  rewrite SFdiv_multiple by lia. cbn [mbind res_bind].
  unfold int_of_float. rewrite Prim2SF_SF2Prim by (apply sig53_valid; lia).
  unfold sig53, exp53.
  assert (HlN : 0 <= Z.log2 N < 53).
  { split; [apply Z.log2_nonneg|]. apply Z.log2_lt_pow2; lia. }
  assert (Hpow : 0 < 2 ^ (52 - Z.log2 N)) by (apply Z.pow_pos_nonneg; lia).
  cbn [cond_Zopp]. rewrite Z2Pos.id by lia. f_equal.
  destruct (Z.log2 N - 52 <? 0) eqn:E2.
  - replace (- (Z.log2 N - 52)) with (52 - Z.log2 N) by lia.
    apply Z.div_mul. lia.
  - replace (Z.log2 N - 52) with 0 by lia.
    replace (52 - Z.log2 N) with 0 by lia. lia.
Qed.

(** ** comb *)

(** k!(n-k)! divides n!. *)
Lemma fact_Z_pos n : 0 < fact_Z n.
Proof. induction n; cbn [fact_Z]; lia. Qed.

Lemma fact_Z_split k m :
  exists c, 0 < c /\ fact_Z (k + m) = c * (fact_Z k * fact_Z m).
Proof.
  remember (k + m)%nat as s eqn:Hs. revert k m Hs.
  induction s as [s IH] using lt_wf_ind. intros k m Hs.
  destruct k as [|k].
  { exists 1. subst s. cbn [fact_Z Nat.add]. lia. }
  destruct m as [|m].
  { exists 1. subst s. rewrite Nat.add_0_r. cbn [fact_Z]. lia. }
  destruct (IH (k + S m)%nat ltac:(lia) k (S m) eq_refl) as (c1 & Hc1 & E1).
  destruct (IH (S k + m)%nat ltac:(lia) (S k) m eq_refl) as (c2 & Hc2 & E2).
  exists (c1 + c2). split; [lia|].
  subst s.
  replace (S k + S m)%nat with (S (k + S m)) by lia.
  change (fact_Z (S (k + S m))) with (Z.of_nat (S (k + S m)) * fact_Z (k + S m)).
  replace (Z.of_nat (S (k + S m)) * fact_Z (k + S m))
    with (Z.of_nat (S k) * fact_Z (k + S m) + Z.of_nat (S m) * fact_Z (S k + m)).
  2:{ replace (S k + m)%nat with (k + S m)%nat by lia. lia. }
  rewrite E1, E2.
  change (fact_Z (S k)) with (Z.of_nat (S k) * fact_Z k).
  change (fact_Z (S m)) with (Z.of_nat (S m) * fact_Z m).
  ring.
Qed.

Lemma binomial_spec n k :
  0 <= k <= n ->
  0 < binomial n k /\
  fact_Z (Z.to_nat n) =
    binomial n k * (fact_Z (Z.to_nat k) * fact_Z (Z.to_nat (n - k))).
Proof.
  intros H. unfold binomial.
  destruct (fact_Z_split (Z.to_nat k) (Z.to_nat (n - k))) as (c & Hc & E).
  replace (Z.to_nat k + Z.to_nat (n - k))%nat with (Z.to_nat n) in E by lia.
  pose proof (fact_Z_pos (Z.to_nat k)). pose proof (fact_Z_pos (Z.to_nat (n - k))).
  rewrite E, Z.div_mul by lia. split; [lia | reflexivity].
Qed.

(** The three outcomes of [factorial]. *)
Lemma factorial_ok n : 0 <= n < 2 ^ 63 -> factorial n = Ok (fact_Z (Z.to_nat n)).
Proof.
  intros H. unfold factorial.
  destruct (Z.ltb_spec n 0); [lia|]. by destruct (Z.leb_spec (2 ^ 63) n); [lia|].
Qed.

Lemma factorial_negative n : n < 0 -> factorial n = Raise ValueError.
Proof. intros H. unfold factorial. by destruct (Z.ltb_spec n 0); [|lia]. Qed.

Lemma factorial_too_large n : 2 ^ 63 <= n -> factorial n = Raise OverflowError.
Proof.
  intros H. unfold factorial.
  destruct (Z.ltb_spec n 0); [lia|]. by destruct (Z.leb_spec (2 ^ 63) n); [|lia].
Qed.

(** [comb] is exact as long as the binomial coefficient has at most 53 bits. *)
Lemma comb_exact n k :
  0 <= k <= n -> n < 2 ^ 63 -> binomial n k < 2 ^ 53 -> comb n k = Ok (binomial n k).
Proof.
  intros H Hn Hb. unfold comb. rewrite !factorial_ok by lia.
  cbn [mbind res_bind].
  destruct (binomial_spec n k H) as [Hpos E].
  pose proof (fact_Z_pos (Z.to_nat k)). pose proof (fact_Z_pos (Z.to_nat (n - k))).
  rewrite E. apply int_truediv_multiple; lia.
Qed.

(** [comb] is symmetric, whatever it rounds. *)
Lemma comb_sym n k : 0 <= k <= n -> comb n k = comb n (n - k).
Proof.
  intros H. unfold comb.
  destruct (Z.lt_ge_cases n (2 ^ 63)) as [Hn|Hn].
  - replace (n - (n - k)) with k by lia. rewrite !factorial_ok by lia.
    cbn [mbind res_bind].
    rewrite (Z.mul_comm (fact_Z (Z.to_nat k))). reflexivity.
  - rewrite (factorial_too_large n) by lia. reflexivity.
Qed.

(** C(n,2) = n(n-1)/2. *)
Lemma binomial_2 n : 2 <= n -> binomial n 2 = n * (n - 1) / 2.
Proof.
  intros H. unfold binomial.
  replace (Z.to_nat n) with (S (S (Z.to_nat (n - 2)))) by lia.
  cbn [fact_Z]. change (fact_Z (Z.to_nat 2)) with 2.
  pose proof (fact_Z_pos (Z.to_nat (n - 2))) as Hp.
  replace (Z.of_nat (S (S (Z.to_nat (n - 2))))) with n by lia.
  replace (Z.of_nat (S (Z.to_nat (n - 2)))) with (n - 1) by lia.
  rewrite Z.mul_assoc.
  rewrite Z.div_mul_cancel_r by lia. reflexivity.
Qed.

(** C3.  The claim reads: [comb n k] is the exact integer n!/(k!(n-k)!) for
    every 0 <= k <= n.  The code divides the factorials with [/], which
    rounds the quotient to a binary64 before [int] truncates it, so at n = 57,
    k = 25 it returns 9929472283517788 while C(57,25) = 9929472283517787:
    the first binomial coefficient above 2^53 that is odd. *)
Theorem comb_57_25_inexact :
  comb 57 25 = Ok 9929472283517788 /\
  binomial 57 25 = 9929472283517787 /\
  2 ^ 53 < binomial 57 25.
Proof. vm_compute. repeat split; reflexivity. Qed.

(** ** Lists of lists *)

Lemma elem_of_concat {A} (x : A) (ls : list (list A)) :
  x ∈ concat ls <-> exists l, l ∈ ls /\ x ∈ l.
Proof.
  rewrite list_elem_of_In, in_concat. split; intros (l & H1 & H2); exists l;
    by rewrite ?list_elem_of_In in *.
Qed.

(** ** Sums and dot products in any order *)

(** Adding from the left is one of the orders. *)
Lemma np_sum_summation : summation np_sum.
Proof.
  intros xs. unfold np_sum.
  assert (H : forall pre acc, sum_of pre acc ->
                sum_of (pre ++ xs) (foldl PrimFloat.add acc xs)).
  { induction xs as [|x xs IH]; intros pre acc Hacc.
    - by rewrite app_nil_r.
    - cbn [foldl]. replace (pre ++ x :: xs) with ((pre ++ [x]) ++ xs)
        by (by rewrite <- app_assoc).
      apply IH. apply sum_of_add; [done|apply sum_of_one]. }
  apply (H [] 0%float), sum_of_zero.
Qed.

Lemma blas_seq_dot_product : dot_product blas_seq.
Proof.
  intros xs ys _. unfold blas_seq, np_sum.
  assert (H : forall pre acc, dot_of pre acc ->
                dot_of (pre ++ zip xs ys)
                  (foldl PrimFloat.add acc (zip_with PrimFloat.mul xs ys))).
  { revert ys. induction xs as [|x xs IH]; intros ys pre acc Hacc.
    - by rewrite app_nil_r.
    - destruct ys as [|y ys]; [by rewrite app_nil_r|].
      cbn [zip_with foldl].
      replace (pre ++ (x, y) :: zip_with pair xs ys)
        with ((pre ++ [(x, y)]) ++ zip xs ys) by (by rewrite <- app_assoc).
      apply IH. apply dot_of_add; [done|apply dot_of_mul]. }
  apply (H [] 0%float), dot_of_zero.
Qed.

(** A sum of zeros is zero. *)
Lemma sum_of_zeros xs s :
  sum_of xs s -> Forall (fun x => x = 0%float) xs ->
  s = 0%float \/ (xs = [] /\ s = neg_zero).
Proof.
  induction 1 as [| |x|xs ys s t _ IHs _ IHt|xs ys s Hp _ IH]; intros Hz.
  - by left.
  - by right.
  - apply Forall_cons in Hz as [-> _]. by left.
  - apply Forall_app in Hz as [Hx Hy].
    destruct (IHs Hx) as [->|[-> ->]], (IHt Hy) as [->|[-> ->]];
      [by left|by left|by left|by right].
  - rewrite <- Hp in Hz. destruct (IH Hz) as [->|[-> ->]]; [by left|right].
    by apply Permutation_nil in Hp as ->.
Qed.

Lemma summation_zeros sum xs :
  summation sum -> xs <> [] -> Forall (fun x => x = 0%float) xs -> sum xs = 0%float.
Proof.
  intros Hs Hne Hz. by destruct (sum_of_zeros xs (sum xs) (Hs xs) Hz) as [->|[-> _]].
Qed.

(** A sum with a NaN term is NaN. *)
Lemma add_nan x y :
  Prim2SF x = S754_nan \/ Prim2SF y = S754_nan -> Prim2SF (x + y) = S754_nan.
Proof.
  rewrite add_spec. unfold SF64add.
  intros [->| ->]; [done|]. by destruct (Prim2SF x).
Qed.

Lemma sum_of_nan xs s :
  sum_of xs s -> Exists (fun x => Prim2SF x = S754_nan) xs -> Prim2SF s = S754_nan.
Proof.
  induction 1 as [| |x|xs ys s t _ IHs _ IHt|xs ys s Hp _ IH]; intros Hn.
  - by apply Exists_nil in Hn.
  - by apply Exists_nil in Hn.
  - apply Exists_cons in Hn as [Hn|Hn]; [done|by apply Exists_nil in Hn].
  - apply add_nan. apply Exists_app in Hn as [Hn|Hn]; auto.
  - apply IH. by rewrite Hp.
Qed.

(** ** Facts about binary64 *)

Lemma binary_normalize_small z :
  0 < z < 2 ^ 53 ->
  binary_normalize prec emax z 0 false = S754_finite false (sig53 z) (exp53 z).
Proof.
  intros Hz. unfold sig53, exp53.
  assert (Hl : 0 <= Z.log2 z < 53).
  { split; [apply Z.log2_nonneg|]. apply Z.log2_lt_pow2; lia. }
  assert (Hpow : 0 < 2 ^ (52 - Z.log2 z)) by (apply Z.pow_pos_nonneg; lia).
  destruct z as [|p|]; try lia.
  unfold binary_normalize, binary_round. std_Z.
  rewrite digits2_pos_log2, Z.add_0_r, fexp_mid by lia.
  unfold shl_align. std_Z.
  destruct (Z.log2 (Z.pos p) + 1 - 53 - 0) as [|d|d] eqn:E.
  - rewrite round_canonical.
    + f_equal; [|lia]. replace (52 - Z.log2 (Z.pos p)) with 0 by lia. lia.
    + lia.
    + rewrite Zdigits2_log2, fexp_mid by lia. lia.
    + unfold emax, prec. lia.
  - lia.
  - fold (Zpower.shift_pos d p).
    rewrite Zpower.shift_pos_correct, Z.pow_pos_fold, Z.mul_comm.
    replace (Z.pos d) with (52 - Z.log2 (Z.pos p)) by lia.
    rewrite round_canonical.
    + f_equal; lia.
    + lia.
    + rewrite Zdigits2_log2, Z.log2_mul_pow2, fexp_mid by lia. lia.
    + unfold emax, prec. lia.
Qed.

Lemma SFabs_round_aux s m e l :
  SFabs (binary_round_aux prec emax s m e l) = SFabs (binary_round_aux prec emax false m e l).
Proof.
  unfold binary_round_aux.
  destruct (shr_fexp prec emax m e l) as [mrs' e'].
  destruct (shr_fexp prec emax _ e' loc_Exact) as [mrs'' e''].
  destruct (shr_m mrs''); try reflexivity.
  destruct (IntDef.Z.leb e'' _); reflexivity.
Qed.

Lemma SFabs_normalize_opp z e :
  SFabs (binary_normalize prec emax (- z) e false) = SFabs (binary_normalize prec emax z e false).
Proof.
  destruct z as [|p|p]; simpl; try reflexivity;
    unfold binary_round; destruct (shl_align _ _ _) as [mz ez];
    rewrite (SFabs_round_aux true); reflexivity.
Qed.

(** |x - y| = |y - x| on every pair of floats, infinities and NaN included. *)
Lemma abs_sub_comm x y : abs (x - y) = abs (y - x).
Proof.
  apply Prim2SF_inj. rewrite !abs_spec, !sub_spec. unfold SF64sub.
  destruct (Prim2SF x) as [sx|sx| |sx mx ex], (Prim2SF y) as [sy|sy| |sy my ey];
    try (destruct sx, sy; reflexivity); try reflexivity.
  unfold SFsub. std_Z. rewrite (Z.min_comm ey ex).
  rewrite <- SFabs_normalize_opp. f_equal. f_equal. lia.
Qed.

(** x - x = 0 when x is a number. *)
Lemma sub_diag_number x : is_number x -> (x - x)%float = 0%float.
Proof.
  unfold is_number. intros H. apply Prim2SF_inj. rewrite sub_spec. unfold SF64sub.
  destruct (Prim2SF x) as [s|s| |s m e]; try contradiction.
  - destruct s; reflexivity.
  - unfold SFsub. std_Z. rewrite Z.sub_diag. reflexivity.
Qed.

(** The float of an integer in 1 .. 2^53 - 1 is a positive number. *)
Lemma Prim2SF_float_of_Z z :
  0 < z < 2 ^ 53 -> Prim2SF (float_of_Z z) = S754_finite false (sig53 z) (exp53 z).
Proof.
  intros Hz. unfold float_of_Z. rewrite binary_normalize_small by lia.
  apply Prim2SF_SF2Prim, sig53_valid. lia.
Qed.

Lemma float_of_int_small z : 0 < z < 2 ^ 53 -> float_of_int z = Ok (float_of_Z z).
Proof.
  intros Hz. unfold float_of_int, float_of_Z. rewrite binary_normalize_small by lia.
  reflexivity.
Qed.

Lemma float_div_int_small x z :
  0 < z < 2 ^ 53 -> float_div_int x z = Ok (x / float_of_Z z)%float.
Proof.
  intros Hz. unfold float_div_int. rewrite float_of_int_small by lia.
  cbn [mbind res_bind]. rewrite FloatAxioms.eqb_spec, Prim2SF_float_of_Z by lia. reflexivity.
Qed.

Lemma zero_div_float_of_Z z : 0 < z < 2 ^ 53 -> (0 / float_of_Z z)%float = 0%float.
Proof.
  intros Hz. apply Prim2SF_inj. rewrite div_spec, Prim2SF_float_of_Z by lia. reflexivity.
Qed.

Lemma float_div_int_zero x : float_div_int x 0 = Raise ZeroDivisionError.
Proof. reflexivity. Qed.

(** ** Arrays *)

Lemma map_res_ok {A B} (f : A -> res B) (g : A -> B) xs :
  (forall x, x ∈ xs -> f x = Ok (g x)) -> map_res f xs = Ok (g <$> xs).
Proof.
  induction xs as [|x xs IH]; intros H; [reflexivity|].
  cbn [map_res]. rewrite H by left. cbn [mbind res_bind].
  rewrite IH by (intros; apply H; by right). reflexivity.
Qed.

Lemma np_binop_same_length op xs ys :
  length xs = length ys -> np_binop op xs ys = Ok (zip_with op xs ys).
Proof.
  intros H. unfold np_binop.
  destruct xs as [|x [|x' xs]], ys as [|y [|y' ys]]; try discriminate; try reflexivity.
  rewrite H, Nat.eqb_refl. reflexivity.
Qed.

Lemma np_binop_rows op a b :
  Forall2 (fun x y => length x = length y) a b ->
  map_res (fun xy => np_binop op xy.1 xy.2) (zip a b) = Ok (zip_with (zip_with op) a b).
Proof.
  induction 1 as [|x y a b Hxy _ IH]; [reflexivity|].
  change (zip (x :: a) (y :: b)) with ((x, y) :: zip a b).
  change (zip_with (zip_with op) (x :: a) (y :: b))
    with (zip_with op x y :: zip_with (zip_with op) a b).
  cbn [map_res fst snd].
  rewrite np_binop_same_length by done. cbn [mbind res_bind].
  rewrite IH. reflexivity.
Qed.

Lemma square_rows n a b :
  square n a -> square n b -> Forall2 (fun x y => length x = length y) a b.
Proof.
  intros [Ha Fa] [Hb Fb]. apply Forall2_same_length_lookup_2; [congruence|].
  intros i x y Hx Hy.
  rewrite Forall_lookup in Fa. rewrite Forall_lookup in Fb.
  rewrite (Fa _ _ Hx), (Fb _ _ Hy). reflexivity.
Qed.

Lemma np_binop2_square op a b n :
  square n a -> square n b -> np_binop2 op a b = Ok (zip_with (zip_with op) a b).
Proof.
  intros Ha Hb. pose proof (square_rows n a b Ha Hb) as Hrows.
  pose proof (np_binop_rows op a b Hrows) as Hzip.
  pose proof (Forall2_length _ _ _ Hrows) as Hlen.
  unfold np_binop2.
  destruct a as [|x [|x' a]], b as [|y [|y' b]]; try discriminate; try exact Hzip.
  rewrite Hlen, Nat.eqb_refl. exact Hzip.
Qed.

Lemma list_eta {A} `{Inhabited A} (l : list A) :
  l = (fun i => l !!! i) <$> seq 0 (length l).
Proof.
  apply list_eq. intros i. rewrite list_lookup_fmap.
  destruct (decide (i < length l)%nat) as [Hi|Hi].
  - rewrite lookup_seq_lt by done. cbn.
    apply list_lookup_lookup_total_lt. done.
  - rewrite lookup_seq_ge by lia. cbn. apply lookup_ge_None. lia.
Qed.

Lemma square_eta n a :
  square n a -> a = (fun i => (fun j => entry a i j) <$> seq 0 n) <$> seq 0 n.
Proof.
  intros [Ha Fa]. rewrite (list_eta a) at 1. rewrite Ha.
  apply list_fmap_ext. intros k i Hi.
  apply lookup_seq in Hi as [Hik Hi]. cbn in Hik. subst k.
  rewrite (list_eta (a !!! i)) at 1. unfold entry.
  rewrite Forall_lookup in Fa. rewrite (Fa i (a !!! i)); [reflexivity|].
  apply list_lookup_lookup_total_lt. lia.
Qed.

(** ** matrix_distance *)

Lemma matrix_distance_with_unfold sum a b n :
  square n a -> square n b ->
  matrix_distance_with sum a b =
  float_div_int (sum (abs_diffs a b n)) (Z.of_nat n ^ 2 - Z.of_nat n).
Proof.
  intros Ha Hb. unfold matrix_distance_with.
  rewrite (np_binop2_square _ a b n) by done. cbn [mbind res_bind].
  destruct Ha as [La Fa]. rewrite La. f_equal.
  unfold abs_diffs. f_equal. f_equal.
  rewrite (square_eta n a) at 1 by done. rewrite (square_eta n b) at 1 by (destruct Hb; done).
  rewrite zip_with_fmap_l, zip_with_fmap_r, zip_with_diag, <- list_fmap_compose.
  apply list_fmap_ext. intros _ i _. cbn.
  rewrite zip_with_fmap_l, zip_with_fmap_r, zip_with_diag, <- list_fmap_compose.
  reflexivity.
Qed.

Lemma matrix_distance_unfold a b n :
  square n a -> square n b ->
  matrix_distance a b =
  float_div_int (abs_diff_sum a b n) (Z.of_nat n ^ 2 - Z.of_nat n).
Proof. apply matrix_distance_with_unfold. Qed.

Lemma machine_dim_count n :
  (2 <= n)%nat -> machine_dim n -> 0 < Z.of_nat n ^ 2 - Z.of_nat n < 2 ^ 53.
Proof. unfold machine_dim. intros H1 H2. nia. Qed.

Lemma abs_diffs_comm a b n : abs_diffs a b n = abs_diffs b a n.
Proof.
  unfold abs_diffs. f_equal.
  apply list_fmap_ext. intros _ i _. apply list_fmap_ext. intros _ j _.
  apply abs_sub_comm.
Qed.

Lemma abs_diffs_diag a n :
  square n a -> Forall (Forall is_number) a ->
  Forall (fun x => x = 0%float) (abs_diffs a a n).
Proof.
  intros [La Fa] Hnum. unfold abs_diffs.
  apply Forall_concat, Forall_fmap, Forall_forall. intros i Hi.
  apply Forall_fmap, Forall_forall. intros j Hj. cbn.
  apply elem_of_seq in Hi, Hj.
  assert (Hrow : a !! i = Some (a !!! i)) by (apply list_lookup_lookup_total_lt; lia).
  rewrite Forall_lookup in Fa. pose proof (Fa _ _ Hrow) as Lrow.
  rewrite Forall_lookup in Hnum. pose proof (Hnum _ _ Hrow) as Nrow.
  assert (Hx : (a !!! i) !! j = Some (entry a i j))
    by (apply list_lookup_lookup_total_lt; lia).
  rewrite Forall_lookup in Nrow. rewrite sub_diag_number by (eapply Nrow, Hx).
  reflexivity.
Qed.

Lemma abs_diffs_nonempty a b n : (1 <= n)%nat -> abs_diffs a b n <> [].
Proof.
  intros Hn H. apply (f_equal length) in H. unfold abs_diffs in H.
  destruct n as [|n]; [lia|]. cbn in H. rewrite length_app in H. cbn in H. lia.
Qed.

Lemma abs_diffs_nan a n i j :
  (i < n)%nat -> (j < n)%nat -> not_a_number (entry a i j) ->
  Exists (fun x => Prim2SF x = S754_nan) (abs_diffs a a n).
Proof.
  intros Hi Hj Hx. apply Exists_exists.
  exists (abs (entry a i j - entry a i j)). split.
  - unfold abs_diffs. apply elem_of_concat.
    exists ((fun j => abs (entry a i j - entry a i j)) <$> seq 0 n). split.
    + apply (list_elem_of_fmap_2 (fun i => (fun j => abs (entry a i j - entry a i j)) <$> seq 0 n)).
      apply elem_of_seq. lia.
    + apply (list_elem_of_fmap_2 (fun j => abs (entry a i j - entry a i j))).
      apply elem_of_seq. lia.
  - rewrite abs_spec, sub_spec. unfold SF64sub, not_a_number in *.
    by destruct (Prim2SF (entry a i j)) as [| [] | |].
Qed.

Lemma nan_div x d : Prim2SF x = S754_nan -> (x / d)%float = nan.
Proof.
  intros H. apply Prim2SF_inj. rewrite div_spec. unfold SF64div. by rewrite H.
Qed.

(** C9, as the code has it.  For n >= 2, [matrix_distance] returns a sum of
    the n^2 values |A[i][j] - B[i][j]|, the diagonal included, added in the
    order of numpy, divided by n^2 - n; it is symmetric in its arguments; it
    is 0 on two copies of a matrix whose entries are all numbers, and NaN
    on two copies of a matrix with an entry that is an infinity or NaN. *)
Theorem matrix_distance_spec (sum : vector -> float) (a b : matrix) (n : nat) :
  summation sum -> (2 <= n)%nat -> machine_dim n -> square n a -> square n b ->
  (exists s, sum_of (abs_diffs a b n) s
     /\ s = sum (abs_diffs a b n)
     /\ matrix_distance_with sum a b
        = Ok (s / float_of_Z (Z.of_nat n ^ 2 - Z.of_nat n))%float)
  /\ matrix_distance_with sum a b = matrix_distance_with sum b a
  /\ (Forall (Forall is_number) a -> matrix_distance_with sum a a = Ok 0%float)
  /\ ((exists i j, (i < n)%nat /\ (j < n)%nat /\ not_a_number (entry a i j)) ->
      matrix_distance_with sum a a = Ok nan).
Proof.
  intros Hs Hn Hm Ha Hb. pose proof (machine_dim_count n Hn Hm) as Hc.
  rewrite !(matrix_distance_with_unfold _ _ _ n) by done.
  rewrite !float_div_int_small by done.
  split; [|split; [|split]].
  - exists (sum (abs_diffs a b n)). split; [apply Hs|done].
  - by rewrite abs_diffs_comm.
  - intros Hnum.
    rewrite (summation_zeros sum) by
      (done || (apply abs_diffs_nonempty; lia) || by apply abs_diffs_diag).
    by rewrite zero_div_float_of_Z.
  - intros (i & j & Hi & Hj & Hx). f_equal. apply nan_div.
    apply (sum_of_nan (abs_diffs a a n)); [apply Hs|by apply (abs_diffs_nan a n i j)].
Qed.

Lemma matrix_distance_spec_witness :
  matrix_distance [[1; 2]; [3; 4]]%float [[0; 2]; [5; 4]]%float = Ok 1.5%float
  /\ matrix_distance [[0; 2]; [5; 4]]%float [[1; 2]; [3; 4]]%float = Ok 1.5%float.
Proof.
  destruct (matrix_distance_spec np_sum [[1; 2]; [3; 4]]%float [[0; 2]; [5; 4]]%float 2)
    as ((s & _ & -> & H1) & H2 & _ & _).
  - exact np_sum_summation.
  - lia.
  - unfold machine_dim. lia.
  - split; [reflexivity | repeat constructor].
  - split; [reflexivity | repeat constructor].
  - unfold matrix_distance.
    split; [rewrite H1 | rewrite <- H2, H1]; vm_compute; reflexivity.
Defined.

(** C9, as the claim states it, fails on a matrix with an infinite entry:
    infinity - infinity is NaN, so the distance of the matrix to itself is
    NaN and not 0. *)
Lemma matrix_distance_self_nan :
  square 2 [[0; infinity]; [infinity; 0]]%float
  /\ matrix_distance [[0; infinity]; [infinity; 0]]%float
                     [[0; infinity]; [infinity; 0]]%float = Ok nan
  /\ (nan =? 0)%float = false.
Proof.
  split; [split; [reflexivity | repeat constructor]|].
  split; by vm_compute.
Qed.

(** C10.  On 1-by-1 matrices the divisor n^2 - n is 0 and the division
    raises [ZeroDivisionError]; on square matrices [matrix_distance] returns
    a number exactly when the dimension is at least 2. *)
Theorem matrix_distance_1x1 (a b : matrix) (n : nat) :
  machine_dim n -> square n a -> square n b ->
  (n = 1%nat -> matrix_distance a b = Raise ZeroDivisionError)
  /\ ((exists v, matrix_distance a b = Ok v) <-> (2 <= n)%nat).
Proof.
  intros Hm Ha Hb.
  assert (Hlow : (n < 2)%nat -> matrix_distance a b = Raise ZeroDivisionError).
  { intros Hn. rewrite (matrix_distance_unfold _ _ n) by done.
    replace (Z.of_nat n ^ 2 - Z.of_nat n) with 0 by nia.
    apply float_div_int_zero. }
  split; [intros ->; apply Hlow; lia|]. split.
  - intros [v Hv]. destruct (decide (2 <= n)%nat) as [|Hn]; [done|].
    rewrite Hlow in Hv by lia. discriminate.
  - intros Hn. rewrite (matrix_distance_unfold _ _ n) by done.
    rewrite float_div_int_small by (by apply machine_dim_count). eauto.
Qed.

Lemma matrix_distance_1x1_witness :
  matrix_distance [[3]]%float [[7]]%float = Raise ZeroDivisionError.
Proof.
  apply (matrix_distance_1x1 [[3]]%float [[7]]%float 1).
  - unfold machine_dim. lia.
  - split; [reflexivity | repeat constructor].
  - split; [reflexivity | repeat constructor].
  - reflexivity.
Defined.

(** ** compute_coalescence *)

Lemma getitem_lt {A} `{Inhabited A} (l : list A) i :
  (i < length l)%nat -> getitem l i = Ok (l !!! i).
Proof.
  intros Hi. unfold getitem. by rewrite (list_lookup_lookup_total_lt l i Hi).
Qed.

Lemma comb_2 n :
  (2 <= n)%nat -> machine_dim n ->
  comb (Z.of_nat n) 2 = Ok (Z.of_nat (n_choose_2 n)).
Proof.
  unfold machine_dim, n_choose_2. intros Hn Hm.
  assert (E : binomial (Z.of_nat n) 2 = Z.of_nat (n * (n - 1) / 2)).
  { rewrite binomial_2 by lia.
    rewrite Nat2Z.inj_div, Nat2Z.inj_mul, Nat2Z.inj_sub by lia. reflexivity. }
  rewrite <- E. apply comb_exact; [lia|lia|].
  rewrite binomial_2 by lia.
  apply Z.div_lt_upper_bound; [lia|]. nia.
Qed.

Lemma pairs_of_length n a c :
  (a + c <= n)%nat ->
  (2 * length (pairs_of n (seq a c)) + c * (2 * a + c + 1) = 2 * c * n)%nat.
Proof.
  revert a. induction c as [|c IH]; intros a Hac; [reflexivity|].
  cbn [seq]. unfold pairs_of in *. rewrite bind_cons, length_app, length_fmap, length_seq.
  specialize (IH (S a) ltac:(lia)). nia.
Qed.

Lemma pairs_of_beyond n a c : (n <= a + 1)%nat -> pairs_of n (seq a c) = [].
Proof.
  revert a. induction c as [|c IH]; intros a Ha; [reflexivity|].
  cbn [seq]. unfold pairs_of in *. rewrite bind_cons, IH by lia.
  replace (n - (a + 1))%nat with 0%nat by lia. reflexivity.
Qed.

Lemma pairs_of_trunc n m :
  (n - 1 <= m)%nat -> pairs_of n (seq 0 m) = pairs_of n (seq 0 (n - 1)).
Proof.
  intros Hm.
  assert (E : seq 0 m = seq 0 (n - 1) ++ seq (n - 1) (m - (n - 1))).
  { change (n - 1)%nat with (0 + (n - 1))%nat at 2.
    rewrite <- (seq_app (n - 1) (m - (n - 1)) 0). f_equal. lia. }
  rewrite E. unfold pairs_of. rewrite bind_app.
  fold (pairs_of n (seq (n - 1) (m - (n - 1)))).
  rewrite pairs_of_beyond by lia. apply app_nil_r.
Qed.

Lemma pairs_of_enough n m : (n - 1 <= m)%nat -> pairs_of n (seq 0 m) = pairs n.
Proof.
  intros Hm. rewrite pairs_of_trunc by done.
  symmetry. apply (pairs_of_trunc n n). lia.
Qed.

Lemma pairs_length n : length (pairs n) = n_choose_2 n.
Proof.
  unfold pairs. fold (pairs_of n (seq 0 n)).
  pose proof (pairs_of_length n 0 n ltac:(lia)) as H. unfold n_choose_2.
  apply Nat.div_unique_exact; [lia|]. nia.
Qed.

Section Coalescence.
Context (t f : vector) (n : nat).
Context (Ht : length t = (n_choose_2 n + n)%nat) (Hf : length f = n_choose_2 n).

Lemma coalescence_step_ok i j eqs k :
  (i < n)%nat -> (j < n)%nat -> (k < n_choose_2 n)%nat ->
  coalescence_step t f (n_choose_2 n) i (eqs, k) j = Ok (eqs ++ [slatkin_residual t f n k (i, j)], S k).
Proof using Ht Hf.
  intros Hi Hj Hk. unfold coalescence_step.
  rewrite !getitem_lt by lia. reflexivity.
Qed.

Lemma coalescence_inner_loop i js eqs k :
  (i < n)%nat -> Forall (fun j => (j < n)%nat) js ->
  (k + length js <= n_choose_2 n)%nat ->
  for_ js (coalescence_step t f (n_choose_2 n) i) (eqs, k)
  = Ok (eqs ++ residuals_from t f n k (pair i <$> js), (k + length js)%nat).
Proof using Ht Hf.
  intros Hi Hjs. revert eqs k.
  induction Hjs as [|j js Hj _ IH]; intros eqs k Hk.
  { cbn. by rewrite app_nil_r, Nat.add_0_r. }
  cbn [for_ length] in *. rewrite coalescence_step_ok by lia.
  cbn [mbind res_bind].
  rewrite IH by lia. f_equal. f_equal; [|lia].
  rewrite <- app_assoc. f_equal. unfold residuals_from.
  cbn [fmap list_fmap imap app]. rewrite Nat.add_0_r. f_equal.
  apply imap_ext. intros p ij _. unfold compose. cbv beta. f_equal. lia.
Qed.

Lemma coalescence_outer_loop is_ eqs k :
  (k + length (pairs_of n is_) <= n_choose_2 n)%nat ->
  for_ is_ (fun st i => for_ (range (i + 1) n) (coalescence_step t f (n_choose_2 n) i) st) (eqs, k)
  = Ok (eqs ++ residuals_from t f n k (pairs_of n is_), (k + length (pairs_of n is_))%nat).
Proof using Ht Hf.
  revert eqs k. induction is_ as [|i is_ IH]; intros eqs k Hk.
  { cbn. by rewrite app_nil_r, Nat.add_0_r. }
  unfold pairs_of in Hk |- *. rewrite bind_cons in Hk |- *.
  fold (pairs_of n is_) in Hk |- *.
  rewrite length_app, length_fmap, length_seq in Hk.
  cbn [for_]. unfold range.
  destruct (decide (i + 1 < n)%nat) as [Hi|Hi].
  - rewrite coalescence_inner_loop; [|lia| |rewrite length_seq; lia].
    2:{ apply Forall_forall. intros j Hj. apply elem_of_seq in Hj. lia. }
    cbn [mbind res_bind]. rewrite length_seq, IH by lia.
    rewrite length_app, length_fmap, length_seq.
    f_equal. f_equal; [|lia]. rewrite <- app_assoc. f_equal.
    unfold residuals_from. rewrite imap_app, length_fmap, length_seq. f_equal.
    apply imap_ext. intros p ij _. unfold compose. cbv beta. f_equal. lia.
  - replace (n - (i + 1))%nat with 0%nat by lia. cbn [seq for_ mbind res_bind].
    rewrite IH by lia. reflexivity.
Qed.

Lemma compute_coalescence_residuals dot :
  (2 <= n)%nat -> machine_dim n ->
  compute_coalescence_with dot t f n = Ok (np_linalg_norm dot (residual_vector t f n)).
Proof using Ht Hf.
  intros Hn Hm. unfold compute_coalescence_with.
  rewrite comb_2 by done. cbn [fmap res_fmap mbind res_bind].
  rewrite Nat2Z.id. unfold range at 1. rewrite Nat.sub_0_r.
  assert (Hen : (n - 1 <= n_choose_2 n)%nat).
  { rewrite <- pairs_length. unfold pairs. fold (pairs_of n (seq 0 n)).
    pose proof (pairs_of_length n 0 n ltac:(lia)). nia. }
  pose proof (coalescence_outer_loop (seq 0 (n_choose_2 n)) [] 0) as Hloop.
  rewrite pairs_of_enough, pairs_length in Hloop by done.
  rewrite Hloop by lia.
  cbn [mbind res_bind fst app]. reflexivity.
Qed.
End Coalescence.

Lemma pairs_of_lookup n is_ k i j :
  pairs_of n is_ !! k = Some (i, j) -> i ∈ is_ /\ (i < j < n)%nat.
Proof.
  intros H. apply list_elem_of_lookup_2 in H. unfold pairs_of in H.
  apply list_elem_of_bind in H as (i' & H & Hi).
  apply list_elem_of_fmap in H as (j' & E & Hj). inversion E; subst.
  apply elem_of_seq in Hj. split; [done | lia].
Qed.

(** C2.  For n >= 2, [compute_coalescence] returns the Euclidean norm of
    the residual vector: the square root of the dot product of the vector
    with itself, a sum of the squares of its entries in the order of BLAS.
    The vector has one entry for each pair i < j, in the order of the pairs,
    and the k-th entry is
    t[k] - 0.5 (T(i,i) + T(j,j)) (1 + f[k]) / (1 - f[k]); the vector has
    exactly C(n,2) entries. *)
Theorem compute_coalescence_spec (dot : vector -> vector -> float) (t f : vector)
    (n : nat) :
  dot_product dot -> (2 <= n)%nat -> machine_dim n ->
  length t = (n_choose_2 n + n)%nat -> length f = n_choose_2 n ->
  (exists r, compute_coalescence_with dot t f n = Ok r
     /\ r = PrimFloat.sqrt (dot (residual_vector t f n) (residual_vector t f n))
     /\ euclidean_norm_of (residual_vector t f n) r)
  /\ length (residual_vector t f n) = n_choose_2 n
  /\ (forall k i j, pairs n !! k = Some (i, j) ->
        (i < j < n)%nat
        /\ residual_vector t f n !! k = Some (slatkin_residual t f n k (i, j))).
Proof.
  intros Hdot Hn Hm Ht Hf. split; [|split].
  - eexists. split; [by apply compute_coalescence_residuals|]. split; [done|].
    eexists. split; [by apply Hdot|done].
  - unfold residual_vector. by rewrite length_imap, pairs_length.
  - intros k i j Hk. split.
    + apply pairs_of_lookup in Hk. lia.
    + unfold residual_vector. by rewrite list_lookup_imap, Hk.
Qed.

Lemma compute_coalescence_spec_witness :
  compute_coalescence [6; 1; 3]%float [0.5]%float 2 = Ok 0%float.
Proof.
  destruct (compute_coalescence_spec blas_seq [6; 1; 3]%float [0.5]%float 2)
    as [(r & H & -> & _) _].
  - exact blas_seq_dot_product.
  - lia.
  - unfold machine_dim. lia.
  - reflexivity.
  - reflexivity.
  - unfold compute_coalescence. rewrite H. vm_compute. reflexivity.
Defined.

(** *** An Fst value equal to 1 *)

Lemma slatkin_ratio_one : slatkin_ratio 1 = infinity.
Proof. reflexivity. Qed.

Lemma mul_infinity x : not_a_number (x * infinity).
Proof.
  unfold not_a_number. rewrite mul_spec. unfold SF64mul.
  change (Prim2SF infinity) with (S754_infinity false).
  by destruct (Prim2SF x).
Qed.

Lemma sub_not_a_number x y : not_a_number y -> not_a_number (x - y).
Proof.
  unfold not_a_number. rewrite sub_spec. unfold SF64sub.
  destruct (Prim2SF x) as [| [] | |], (Prim2SF y) as [| [] | |]; done.
Qed.

Lemma add_not_a_number x y : not_a_number x \/ not_a_number y -> not_a_number (x + y).
Proof.
  unfold not_a_number. rewrite add_spec. unfold SF64add.
  destruct (Prim2SF x) as [| [] | |], (Prim2SF y) as [| [] | |]; tauto.
Qed.

Lemma square_not_a_number x : not_a_number x -> not_a_number (x * x).
Proof.
  unfold not_a_number. rewrite mul_spec. unfold SF64mul.
  by destruct (Prim2SF x).
Qed.

Lemma sqrt_not_a_number x : not_a_number x -> sqrt x = infinity \/ sqrt x = nan.
Proof.
  unfold not_a_number. intros H.
  destruct (Prim2SF x) as [| [] | |] eqn:E; try done.
  - right. apply Prim2SF_inj. rewrite sqrt_spec, E. reflexivity.
  - left. apply Prim2SF_inj. rewrite sqrt_spec, E. reflexivity.
  - right. apply Prim2SF_inj. rewrite sqrt_spec, E. reflexivity.
Qed.

Lemma np_sum_not_a_number l :
  Exists not_a_number l -> not_a_number (np_sum l).
Proof.
  unfold np_sum. generalize 0%float as acc.
  assert (Hacc : forall l acc, not_a_number acc -> not_a_number (foldl PrimFloat.add acc l)).
  { clear. induction l as [|x l IH]; intros acc H; [done|].
    cbn [foldl]. apply IH, add_not_a_number. by left. }
  induction l as [|x l IH]; intros acc H; [by apply Exists_nil in H|].
  cbn [foldl]. apply Exists_cons in H as [H|H].
  - apply Hacc, add_not_a_number. by right.
  - by apply IH.
Qed.

Lemma np_norm_not_a_number l :
  Exists not_a_number l -> np_norm l = infinity \/ np_norm l = nan.
Proof.
  intros H. unfold np_norm, np_linalg_norm, blas_seq.
  apply sqrt_not_a_number, np_sum_not_a_number.
  rewrite zip_with_diag. apply Exists_fmap.
  eapply Exists_impl; [exact H|]. intros x. apply square_not_a_number.
Qed.

(** C4, as the code has it.  When some Fst value f[k] is exactly 1, numpy
    divides 1 + f[k] by 0 without raising: the quotient is an infinity, the
    k-th residual is an infinity or NaN, and [compute_coalescence] returns a
    float, +inf or NaN. *)
Theorem compute_coalescence_fst_one (t f : vector) (n k : nat) :
  (2 <= n)%nat -> machine_dim n ->
  length t = (n_choose_2 n + n)%nat -> length f = n_choose_2 n ->
  f !! k = Some 1%float ->
  exists v, compute_coalescence t f n = Ok v /\ (v = infinity \/ v = nan).
Proof.
  intros Hn Hm Ht Hf Hk.
  exists (np_norm (residual_vector t f n)).
  split; [by apply (compute_coalescence_residuals t f n Ht Hf blas_seq)|].
  apply np_norm_not_a_number.
  assert (Hlt : (k < length (pairs n))%nat).
  { rewrite pairs_length, <- Hf. by eapply lookup_lt_Some. }
  destruct (lookup_lt_is_Some_2 _ _ Hlt) as [[i j] Hij].
  apply Exists_exists. exists (slatkin_residual t f n k (i, j)). split.
  - apply list_elem_of_lookup. exists k. unfold residual_vector.
    by rewrite list_lookup_imap, Hij.
  - unfold slatkin_residual. rewrite (list_lookup_total_correct _ _ _ Hk).
    rewrite slatkin_ratio_one. apply sub_not_a_number, mul_infinity.
Qed.

Lemma compute_coalescence_fst_one_witness :
  exists v, compute_coalescence [1; 1; 1]%float [1]%float 2 = Ok v
            /\ (v = infinity \/ v = nan).
Proof.
  apply (compute_coalescence_fst_one [1; 1; 1]%float [1]%float 2 0).
  - lia.
  - unfold machine_dim. lia.
  - reflexivity.
  - reflexivity.
  - reflexivity.
Defined.

(** C4, as the claim states it, fails: with f = [1] the call returns +inf and
    raises nothing. *)
Lemma compute_coalescence_fst_one_returns :
  compute_coalescence [1; 1; 1]%float [1]%float 2 = Ok infinity
  /\ ~ (exists e, compute_coalescence [1; 1; 1]%float [1]%float 2 = Raise e).
Proof.
  assert (H : compute_coalescence [1; 1; 1]%float [1]%float 2 = Ok infinity)
    by (vm_compute; reflexivity).
  split; [exact H|]. intros [e He]. rewrite H in He. discriminate.
Qed.

(** ** f_to_m *)

Lemma for_append {A B} (xs : list A) (body : list B -> A -> res (list B))
    (h : A -> list B) acc :
  (forall acc x, x ∈ xs -> body acc x = Ok (acc ++ h x)) ->
  for_ xs body acc = Ok (acc ++ (xs ≫= h)).
Proof.
  revert acc. induction xs as [|x xs IH]; intros acc H.
  { cbn. by rewrite app_nil_r. }
  cbn [for_]. rewrite H by left. cbn [mbind res_bind].
  rewrite IH by (intros; apply H; by right).
  by rewrite bind_cons, app_assoc.
Qed.

(** Reading a stretch of a list through another numbering of its positions. *)
Lemma fmap_seq_shift {A} (g : nat -> A) (h : nat -> nat) a b c :
  (forall x, (x < c)%nat -> h (b + x)%nat = (a + x)%nat) ->
  g <$> seq a c = (g ∘ h) <$> seq b c.
Proof.
  revert a b. induction c as [|c IH]; intros a b H; [reflexivity|].
  cbn [seq fmap list_fmap]. f_equal.
  - unfold compose. f_equal. specialize (H 0%nat ltac:(lia)).
    rewrite !Nat.add_0_r in H. done.
  - apply IH. intros x Hx. specialize (H (S x) ltac:(lia)).
    replace (S b + x)%nat with (b + S x)%nat by lia. lia.
Qed.

Lemma slice_lookup {A} `{Inhabited A} (l : list A) a b :
  (b <= length l)%nat -> slice a b l = (fun p => l !!! p) <$> seq a (b - a).
Proof.
  intros Hb. unfold slice. apply list_eq. intros p.
  rewrite list_lookup_fmap.
  destruct (decide (p < b - a)%nat) as [Hp|Hp].
  - rewrite lookup_take_lt, lookup_drop, lookup_seq_lt by lia. cbn.
    apply list_lookup_lookup_total_lt. lia.
  - rewrite lookup_take_ge, lookup_seq_ge by lia. reflexivity.
Qed.

Lemma take_lookup {A} `{Inhabited A} (l : list A) b :
  (b <= length l)%nat -> take b l = (fun p => l !!! p) <$> seq 0 b.
Proof.
  intros Hb. change (take b l) with (take b (drop 0 l)).
  rewrite <- (Nat.sub_0_r b) at 1. fold (slice 0 b l).
  by rewrite slice_lookup, Nat.sub_0_r.
Qed.

Lemma drop_lookup {A} `{Inhabited A} (l : list A) a :
  drop a l = (fun p => l !!! p) <$> seq a (length l - a).
Proof.
  rewrite <- (slice_lookup l a (length l)) by done. unfold slice.
  by rewrite take_ge by (rewrite length_drop; lia).
Qed.

Lemma elem_of_others n i k : k ∈ others n i -> (k < n \/ k < i)%nat /\ k <> i.
Proof.
  unfold others. rewrite elem_of_app, !elem_of_seq. lia.
Qed.

Lemma others_length n i : (i < n)%nat -> length (others n i) = (n - 1)%nat.
Proof. intros. unfold others. rewrite length_app, !length_seq. lia. Qed.

Lemma lookup_total_take_lt {A} `{Inhabited A} (l : list A) b x :
  (x < b)%nat -> take b l !!! x = l !!! x.
Proof. intros. by rewrite !list_lookup_total_alt, lookup_take_lt. Qed.

Lemma lookup_total_drop_add {A} `{Inhabited A} (l : list A) a x :
  drop a l !!! x = l !!! (a + x)%nat.
Proof. by rewrite !list_lookup_total_alt, lookup_drop. Qed.

Lemma bind_singleton {A B} (g : A -> B) (l : list A) :
  l ≫= (fun x => [g x]) = g <$> l.
Proof. induction l as [|x l IH]; [reflexivity|]. by rewrite bind_cons, IH. Qed.

Lemma ratio_vector_ok n v :
  length v = (n - 1)%nat -> ratio_vector n v = Ok (slatkin_ratio <$> v).
Proof.
  intros Hv. unfold ratio_vector.
  rewrite !np_binop_same_length by (by rewrite length_replicate).
  cbn [mbind res_bind].
  rewrite np_binop_same_length
    by (by rewrite !length_zip_with, length_replicate, Hv).
  rewrite !zip_with_replicate_l by lia.
  rewrite zip_with_fmap_l, zip_with_fmap_r, zip_with_diag. reflexivity.
Qed.

Lemma weighted_dot_ok {K} dot (g1 g2 g3 : K -> float) (ks : list K) t0 :
  weighted_dot dot (g1 <$> ks) (g2 <$> ks) t0 (g3 <$> ks)
  = Ok (dot (g1 <$> ks) ((fun k => (g2 k + t0) * g3 k)%float <$> ks)).
Proof.
  unfold weighted_dot.
  rewrite np_binop_same_length by (by rewrite !length_fmap).
  cbn [mbind res_bind]. unfold np_matmul.
  rewrite length_zip_with, !length_fmap, Nat.min_id, Nat.eqb_refl.
  do 2 f_equal. rewrite <- list_fmap_compose.
  by rewrite zip_with_fmap_l, zip_with_fmap_r, zip_with_diag.
Qed.

Lemma square_split n i :
  (i < n)%nat ->
  (n * i + n <= n ^ 2 /\ (n - 1) * i + (n - 1) <= n ^ 2 - n /\ n <= n ^ 2)%nat.
Proof. intros Hi. rewrite Nat.pow_2_r. nia. Qed.

Section JointEquations.
Context (sum : vector -> float) (dot : vector -> vector -> float).
Context (u f : vector) (n : nat).
Context (Hu : length u = (n ^ 2)%nat) (Hf : length f = (n ^ 2)%nat).

Lemma incoming_migrants_eq i :
  (i < n)%nat ->
  slice ((n - 1) * i) ((n - 1) * i + n - 1) (migration_part u n) = migration u n i <$> others n i.
Proof using All.
  intros Hi. pose proof (square_split n i Hi) as (_ & Hb & _).
  assert (Hm : length (migration_part u n) = (n ^ 2 - n)%nat)
    by (unfold migration_part; rewrite length_take; lia).
  unfold migration. set (a := ((n - 1) * i)%nat) in *.
  rewrite slice_lookup by lia.
  replace (a + n - 1 - a)%nat with (i + (n - (i + 1)))%nat by lia.
  unfold others. rewrite seq_app, !fmap_app. f_equal.
  - rewrite (fmap_seq_shift _ (fun k => (a + k)%nat) _ 0) by (intros; lia).
    apply list_fmap_ext. intros p k Hk. apply lookup_seq in Hk as [Hp Hk].
    unfold compose, migration_part. rewrite lookup_total_take_lt by lia.
    destruct (decide (k < i)%nat); [reflexivity | lia].
  - rewrite (fmap_seq_shift _ (fun k => (a + (k - 1))%nat) _ (i + 1)) by (intros; lia).
    apply list_fmap_ext. intros p k Hk. apply lookup_seq in Hk as [Hp Hk].
    unfold compose, migration_part. rewrite lookup_total_take_lt by lia.
    destruct (decide (k < i)%nat); [lia | reflexivity].
Qed.

Lemma other_times_eq i :
  (i < n)%nat -> take i (time_part u n) ++ drop (i + 1) (time_part u n) = diag_time u n <$> others n i.
Proof using All.
  intros Hi. pose proof (square_split n i Hi) as (_ & _ & Hb).
  assert (Ht : length (time_part u n) = n)
    by (unfold time_part; rewrite length_drop; lia).
  unfold others. rewrite fmap_app. f_equal.
  - rewrite take_lookup by lia. apply list_fmap_ext. intros p k _.
    unfold time_part, diag_time. apply lookup_total_drop_add.
  - rewrite drop_lookup, Ht. apply list_fmap_ext. intros p k _.
    unfold time_part, diag_time. apply lookup_total_drop_add.
Qed.

(** Row [r] of the Fst array without its column [i]. *)
Lemma fst_row_eq r i :
  (r < n)%nat -> (i < n)%nat ->
  slice (n * r) (n * r + i) f ++ slice (n * r + 1 + i) (n * r + n) f
  = fst_entry f n r <$> others n i.
Proof using All.
  intros Hr Hi. pose proof (square_split n r Hr) as (Hb & _ & _).
  unfold fst_entry. set (a := (n * r)%nat) in *.
  rewrite !slice_lookup by lia. unfold others. rewrite fmap_app. f_equal.
  - replace (a + i - a)%nat with i by lia.
    rewrite (fmap_seq_shift _ (fun k => (a + k)%nat) _ 0) by (intros; lia).
    reflexivity.
  - replace (a + n - (a + 1 + i))%nat with (n - (i + 1))%nat by lia.
    rewrite (fmap_seq_shift _ (fun k => (a + k)%nat) _ (i + 1)) by (intros; lia).
    reflexivity.
Qed.

Lemma diag_time_eq i : (i < n)%nat -> getitem (time_part u n) i = Ok (diag_time u n i).
Proof using All.
  intros Hi. pose proof (square_split n i Hi) as (_ & _ & Hb).
  rewrite getitem_lt by (unfold time_part; rewrite length_drop; lia).
  unfold time_part, diag_time. by rewrite lookup_total_drop_add.
Qed.

Lemma fst_entry_eq i j :
  (i < n)%nat -> (j < n)%nat -> getitem f (n * i + j) = Ok (fst_entry f n i j).
Proof using All.
  intros Hi Hj. pose proof (square_split n i Hi) as (Hb & _ & _).
  by rewrite getitem_lt by lia.
Qed.

Lemma f_to_m_equations_ok :
  f_to_m_equations sum dot u f n = Ok (joint_equations sum dot u f n).
Proof using All.
  unfold f_to_m_equations, joint_equations. fold (migration_part u n) (time_part u n).
  unfold range. rewrite Nat.sub_0_r.
  rewrite for_append with
    (h := fun i => self_residual sum dot u f n i
                   :: (pair_residual sum dot u f n i <$> seq 0 i));
    [reflexivity|].
  intros acc i Hi. apply elem_of_seq in Hi.
  rewrite incoming_migrants_eq, other_times_eq, fst_row_eq by lia.
  rewrite ratio_vector_ok by (rewrite length_fmap, others_length; lia).
  cbn [mbind res_bind]. rewrite diag_time_eq by lia. cbn [mbind res_bind].
  rewrite <- list_fmap_compose, weighted_dot_ok. cbn [mbind res_bind].
  rewrite Nat.sub_0_r.
  rewrite for_append with (h := fun j => [pair_residual sum dot u f n i j]).
  - by rewrite bind_singleton, <- app_assoc.
  - intros acc' j Hj. apply elem_of_seq in Hj.
    rewrite incoming_migrants_eq, other_times_eq, !fst_row_eq by lia.
    rewrite !ratio_vector_ok by (rewrite length_fmap, others_length; lia).
    cbn [mbind res_bind].
    rewrite diag_time_eq, fst_entry_eq by lia. cbn [mbind res_bind].
    rewrite <- !list_fmap_compose, !weighted_dot_ok. cbn [mbind res_bind].
    reflexivity.
Qed.
End JointEquations.

(** The equations of population i start at position i(i+1)/2. *)
Lemma joint_block_start {B} (h : nat -> list B) i :
  (forall k, length (h k) = S k) ->
  (2 * length (seq 0 i ≫= h) = i * (i + 1))%nat.
Proof.
  intros Hh. induction i as [|i IH]; [reflexivity|].
  rewrite seq_S, bind_app, length_app. cbn [Nat.add].
  change ([i] ≫= h) with (h i ++ []). rewrite app_nil_r, Hh. lia.
Qed.

Lemma joint_block_lookup {B} (h : nat -> list B) n i p :
  (forall k, length (h k) = S k) -> (i < n)%nat -> (p <= i)%nat ->
  (seq 0 n ≫= h) !! (i * (i + 1) / 2 + p)%nat = h i !! p.
Proof.
  intros Hh Hi Hp.
  assert (E : seq 0 n = seq 0 i ++ i :: seq (S i) (n - S i)).
  { replace n with (i + S (n - S i))%nat at 1 by lia. by rewrite seq_app. }
  rewrite E, bind_app, bind_cons.
  pose proof (joint_block_start h i Hh) as Hlen.
  assert (Hst : (i * (i + 1) / 2)%nat = length (seq 0 i ≫= h)).
  { symmetry. apply Nat.div_unique_exact; lia. }
  rewrite Hst, lookup_app_r by lia.
  replace (length (seq 0 i ≫= h) + p - length (seq 0 i ≫= h))%nat with p by lia.
  apply lookup_app_l. rewrite Hh. lia.
Qed.

Lemma joint_equations_length sum dot u f n :
  length (joint_equations sum dot u f n) = (n + n_choose_2 n)%nat.
Proof.
  unfold joint_equations, n_choose_2.
  pose proof (joint_block_start
    (fun i => self_residual sum dot u f n i
              :: (pair_residual sum dot u f n i <$> seq 0 i)) n) as H.
  specialize (H ltac:(intros; cbn [length]; by rewrite length_fmap, length_seq)).
  assert (E : (n * (n - 1))%nat = (2 * (n * (n - 1) / 2))%nat).
  { apply Nat.Div0.div_exact. destruct n as [|n]; [reflexivity|].
    replace (S n - 1)%nat with n by lia.
    destruct (Nat.Even_or_Odd n) as [[k ->]|[k ->]].
    - replace (S (2 * k) * (2 * k))%nat with ((S (2 * k) * k) * 2)%nat by lia.
      apply Nat.Div0.mod_mul.
    - replace (S (2 * k + 1) * (2 * k + 1))%nat with (((k + 1) * (2 * k + 1)) * 2)%nat by lia.
      apply Nat.Div0.mod_mul. }
  nia.
Qed.

(** C1, as the code has it.  For every sum [sum] of numpy and every dot
    product [dot] of BLAS, the residual that [f_to_m] appends for the pair
    of populations i > j is
    0.25 [ (M_i + M_j)(T(i,i) + T(j,j)) (1 + f(i,j))/(1 - f(i,j))
           - sum_{k <> i} M(i,k)(T(k,k) + T(j,j)) (1 + f(j,k))/(1 - f(j,k))
           - sum_{k <> j} M(j,k)(T(k,k) + T(i,i)) (1 + f(i,k))/(1 - f(i,k)) ] - 1,
    where M_i is [sum] of the rates M(i,k), k <> i, and each of the two sums
    is [dot] of the rates and their weights: each leaves out one population
    only, so the terms k = j and k = i are there and read the diagonal
    entries f(j,j) and f(i,i), and the sum weighted by M(i,k) reads row j of
    the Fst array.  [f_to_m] returns the square root of [dot] of the list of
    residuals with itself. *)
Theorem f_to_m_pair_equation (sum : vector -> float) (dot : vector -> vector -> float)
    (u f : vector) (n i j : nat) :
  length u = (n ^ 2)%nat -> length f = (n ^ 2)%nat -> (j < i < n)%nat ->
  exists eqs,
    f_to_m_equations sum dot u f n = Ok eqs
    /\ f_to_m sum dot u f n = Ok (PrimFloat.sqrt (dot eqs eqs))
    /\ length eqs = (n + n_choose_2 n)%nat
    /\ eqs !! pair_position i j = Some (pair_residual sum dot u f n i j).
Proof.
  intros Hu Hf Hij. exists (joint_equations sum dot u f n).
  pose proof (f_to_m_equations_ok sum dot u f n Hu Hf) as Heq.
  split; [exact Heq|]. split; [unfold f_to_m; by rewrite Heq|].
  split; [apply joint_equations_length|].
  unfold joint_equations, pair_position.
  rewrite <- Nat.add_assoc, joint_block_lookup; [|intros; cbn [length]|..]; try lia.
  - change (1 + j)%nat with (S j).
    change ((?x :: ?l) !! S j) with (l !! j).
    rewrite list_lookup_fmap, lookup_seq_lt by lia. reflexivity.
  - by rewrite length_fmap, length_seq.
Qed.

Lemma f_to_m_pair_equation_witness :
  exists eqs,
    f_to_m_equations np_sum blas_seq [1; 1; 1; 1]%float [0; 0; 0; 0]%float 2 = Ok eqs
    /\ eqs !! 2%nat = Some (-1)%float.
Proof.
  destruct (f_to_m_pair_equation np_sum blas_seq [1; 1; 1; 1]%float [0; 0; 0; 0]%float 2 1 0)
    as (eqs & H1 & _ & _ & H2).
  - reflexivity.
  - reflexivity.
  - lia.
  - exists eqs. split; [exact H1|].
    change 2%nat with (pair_position 1 0). rewrite H2. vm_compute. reflexivity.
Defined.

(** C1, as the claim states it, fails on two populations with all rates and
    times 1 and all Fst values 0: the sums of the claim are empty and its
    residual is 0.25 * (2 * 2 * 1) - 1 = 0, while [f_to_m] subtracts the terms
    k = j and k = i as well and appends 0.25 * (4 - 2 - 2) - 1 = -1.  With
    the diagonal Fst entries set to 0.5 instead it appends -3: the diagonal
    is read.  No sum and no dot product here has more than one term, so
    the order of the additions plays no part. *)
Lemma f_to_m_pair_equation_not_claimed :
  f_to_m_equations np_sum blas_seq [1; 1; 1; 1]%float [0; 0; 0; 0]%float 2
    = Ok [0; 0; -1]%float
  /\ pair_residual_claimed np_sum blas_seq [1; 1; 1; 1]%float [0; 0; 0; 0]%float 2 0 1
     = 0%float
  /\ pair_residual_claimed np_sum blas_seq [1; 1; 1; 1]%float [0; 0; 0; 0]%float 2 1 0
     = 0%float
  /\ f_to_m_equations np_sum blas_seq [1; 1; 1; 1]%float [0.5; 0; 0; 0.5]%float 2
     = Ok [0; 0; -3]%float
  /\ (-1)%float <> 0%float.
Proof.
  repeat split; try (vm_compute; reflexivity).
  intros H. apply (f_equal is_zero) in H. vm_compute in H. discriminate.
Qed.

(** ** The order of binary64 *)

Lemma SFleb_lex x y :
  x <> S754_nan -> y <> S754_nan ->
  (SFleb x y = true <-> lex_le (order_key x) (order_key y)).
Proof.
  intros Hx Hy. unfold SFleb, SFcompare, lex_le. std_Z.
  destruct x as [[]|[]| |[] m1 e1], y as [[]|[]| |[] m2 e2];
    try done; cbn [order_key fst snd];
    try (split; [intros _; lia | reflexivity]);
    try (split; [discriminate | lia]);
    destruct (Z.compare_spec e1 e2);
    try (split; [intros _; lia | reflexivity]);
    try (split; [discriminate | lia]);
    change (Pos.compare_cont Eq m1 m2) with (Pos.compare m1 m2);
    destruct (Pos.compare_spec m1 m2); cbn [CompOpp];
    try (split; [intros _; lia | reflexivity]);
    try (split; [discriminate | lia]).
Qed.

Lemma is_nan_false x : is_nan x = false <-> Prim2SF x <> S754_nan.
Proof.
  unfold is_nan. rewrite FloatAxioms.eqb_spec. unfold SFeqb, SFcompare. std_Z.
  destruct (Prim2SF x) as [[]|[]| |[] m e]; cbn; try (split; [discriminate | done]);
    try (split; [done | discriminate]);
    try (split; [done|]; by intros []);
    rewrite Z.compare_refl; change (Pos.compare_cont Eq m m) with (Pos.compare m m);
    rewrite Pos.compare_refl; cbn; (split; [discriminate | done]).
Qed.

Lemma leb_float_le x y :
  is_nan x = false -> is_nan y = false -> ((x <=? y)%float = true <-> float_le x y).
Proof.
  intros Hx Hy. rewrite leb_spec. apply SFleb_lex; by apply is_nan_false.
Qed.

Lemma float_le_refl x : float_le x x.
Proof. unfold float_le, lex_le. lia. Qed.

Lemma float_le_trans x y z : float_le x y -> float_le y z -> float_le x z.
Proof. unfold float_le, lex_le. lia. Qed.

Lemma float_le_total x y : float_le x y \/ float_le y x.
Proof. unfold float_le, lex_le. lia. Qed.

(** ** check_constraint *)

(** The scan keeps the first minimum of what it has seen. *)
Lemma argmin_from_spec pre mp mi xs :
  no_nan (pre ++ xs) ->
  pre !! mi = Some mp ->
  (forall y, y ∈ pre -> float_le mp y) ->
  (forall j y, (j < mi)%nat -> pre !! j = Some y -> ~ float_le y mp) ->
  exists x,
    (pre ++ xs) !! argmin_from mp mi (length pre) xs = Some x
    /\ (forall y, y ∈ pre ++ xs -> float_le x y)
    /\ (forall j y, (j < argmin_from mp mi (length pre) xs)%nat ->
          (pre ++ xs) !! j = Some y -> ~ float_le y x).
Proof.
  revert pre mp mi. induction xs as [|x xs IH]; intros pre mp mi Hnan Hmi Hmin Hfirst.
  { rewrite app_nil_r. cbn [argmin_from]. eauto. }
  pose proof (lookup_lt_Some _ _ _ Hmi) as Hlt.
  assert (Hmp : is_nan mp = false).
  { unfold no_nan in Hnan. rewrite Forall_forall in Hnan. apply Hnan.
    apply elem_of_app. left. by eapply list_elem_of_lookup_2. }
  assert (Hx : is_nan x = false).
  { unfold no_nan in Hnan. rewrite Forall_forall in Hnan. apply Hnan.
    apply elem_of_app. right. left. }
  cbn [argmin_from]. rewrite Hmp.
  replace (S (length pre)) with (length (pre ++ [x])) by (rewrite length_app; cbn; lia).
  rewrite (cons_middle x pre xs), app_assoc in Hnan |- *.
  destruct (mp <=? x)%float eqn:Hle.
  - apply leb_float_le in Hle; [|done..].
    apply IH; [done| | |].
    + by apply lookup_app_l_Some.
    + intros y Hy. apply elem_of_app in Hy as [Hy|Hy]; [by apply Hmin|].
      apply list_elem_of_singleton in Hy as ->. done.
    + intros j y Hj Hy. rewrite lookup_app_l in Hy by lia. by eapply Hfirst.
  - assert (Hnle : ~ float_le mp x).
    { intros H. apply leb_float_le in H; [congruence|done..]. }
    assert (Hxm : float_le x mp) by (destruct (float_le_total x mp); done).
    apply IH; [done| | |].
    + rewrite lookup_app_r by lia. by rewrite Nat.sub_diag.
    + intros y Hy. apply elem_of_app in Hy as [Hy|Hy].
      * eapply float_le_trans; [exact Hxm | by apply Hmin].
      * apply list_elem_of_singleton in Hy as ->. apply float_le_refl.
    + intros j y Hj Hy Hyx. rewrite lookup_app_l in Hy by lia.
      apply Hnle. eapply float_le_trans; [|exact Hyx].
      apply Hmin. by eapply list_elem_of_lookup_2.
Qed.

Lemma argmin_first_minimum row :
  row <> [] -> no_nan row -> first_minimum_at row (argmin row).
Proof.
  intros Hne Hnan. destruct row as [|x xs]; [done|].
  destruct (argmin_from_spec [x] x 0 xs) as (m & Hm & Hmin & Hfirst).
  - exact Hnan.
  - reflexivity.
  - intros y Hy. apply list_elem_of_singleton in Hy as ->. apply float_le_refl.
  - intros; lia.
  - change ([x] ++ xs) with (x :: xs) in *. change (length [x]) with 1%nat in *.
    unfold no_nan in Hnan. rewrite Forall_forall in Hnan.
    assert (Hmn : is_nan m = false) by (by eapply Hnan, list_elem_of_lookup_2).
    exists m. split; [exact Hm|]. split.
    + intros y Hy. apply leb_float_le; auto.
    + intros j y Hj Hy.
      assert (Hyn : is_nan y = false) by (by eapply Hnan, list_elem_of_lookup_2).
      destruct (y <=? m)%float eqn:E; [|done].
      apply leb_float_le in E; [|done..]. by destruct (Hfirst j y Hj Hy).
Qed.

Lemma first_minimum_unique row c c' :
  first_minimum_at row c -> first_minimum_at row c' -> c = c'.
Proof.
  intros (x & Hx & Hmin & Hfirst) (x' & Hx' & Hmin' & Hfirst').
  destruct (Nat.lt_trichotomy c c') as [H|[H|H]]; [|done|].
  - specialize (Hfirst' c x H Hx).
    rewrite Hmin in Hfirst' by (by eapply list_elem_of_lookup_2). discriminate.
  - specialize (Hfirst c' x' H Hx').
    rewrite Hmin' in Hfirst by (by eapply list_elem_of_lookup_2). discriminate.
Qed.

Lemma np_argmin_ok row : row <> [] -> np_argmin row = Ok (argmin row).
Proof. by destruct row. Qed.

(** [not np.any(min_indices != diag_indices)]. *)
Lemma all_on_diagonal (l : list nat) a :
  negb (existsb (fun ab => negb (ab.1 =? ab.2)%nat) (zip l (seq a (length l)))) = true
  <-> forall i, (i < length l)%nat -> l !! i = Some (a + i)%nat.
Proof.
  revert a. induction l as [|x l IH]; intros a.
  { cbn. split; [intros _ i Hi; lia | done]. }
  cbn [length seq]. change (zip (x :: l) (a :: seq (S a) (length l)))
    with ((x, a) :: zip l (seq (S a) (length l))).
  cbn [existsb fst snd]. rewrite negb_orb, andb_true_iff, IH, negb_involutive, Nat.eqb_eq.
  split.
  - intros [-> H] [|i] Hi; [by rewrite Nat.add_0_r|].
    change ((a :: l) !! S i) with (l !! i).
    rewrite H by lia. f_equal. lia.
  - intros H. split.
    + specialize (H 0%nat ltac:(lia)). rewrite Nat.add_0_r in H.
      change ((x :: l) !! 0%nat) with (Some x) in H. congruence.
    + intros i Hi. specialize (H (S i) ltac:(lia)).
      change ((x :: l) !! S i) with (l !! i) in H. rewrite H. f_equal. lia.
Qed.

(** C8.  On an n-by-n matrix, n >= 1, without NaN entries,
    [check_constraint] returns true exactly when in every row i the first
    (leftmost) position of the row's minimum is column i; so an earlier
    column that holds a value at most T[i][i] makes it false, also when
    T[i][i] is the row's minimum. *)
Theorem check_constraint_spec (t : matrix) (n : nat) :
  (1 <= n)%nat -> square n t -> nan_free t ->
  exists b, check_constraint t = Ok b
    /\ (b = true <-> forall i, (i < n)%nat -> first_minimum_at (t !!! i) i)
    /\ (forall i j, (j < i < n)%nat ->
          (entry t i j <=? entry t i i)%float = true -> b = false).
Proof.
  intros Hn [Hlen Hrows] Hnan.
  rewrite Forall_lookup in Hrows. unfold nan_free in Hnan. rewrite Forall_lookup in Hnan.
  assert (Hrow : forall i, (i < n)%nat ->
            t !! i = Some (t !!! i) /\ length (t !!! i) = n /\ no_nan (t !!! i)
            /\ first_minimum_at (t !!! i) (argmin (t !!! i))).
  { intros i Hi.
    assert (H : t !! i = Some (t !!! i)) by (apply list_lookup_lookup_total_lt; lia).
    pose proof (Hrows _ _ H) as Hl. pose proof (Hnan _ _ H) as Hnn.
    repeat split; try done. apply argmin_first_minimum; [|done].
    intros E. rewrite E in Hl. cbn in Hl. lia. }
  assert (Hmins : map_res np_argmin t = Ok (argmin <$> t)).
  { apply map_res_ok. intros row Hin. apply list_elem_of_lookup in Hin as [i Hi].
    apply np_argmin_ok. intros E. rewrite E in Hi.
    pose proof (Hrows _ _ Hi) as Hl. cbn in Hl. lia. }
  unfold check_constraint.
  replace (match t with [] => Raise ValueError | _ => map_res np_argmin t end)
    with (map_res np_argmin t) by (destruct t; [cbn in Hlen; lia|done]).
  rewrite Hmins. cbn [mbind res_bind].
  set (b := negb _). exists b. split; [reflexivity|].
  assert (Hiff : b = true <-> forall i, (i < n)%nat -> first_minimum_at (t !!! i) i).
  { unfold b. rewrite <- (length_fmap argmin t).
    rewrite all_on_diagonal, length_fmap, Hlen. split.
    - intros H i Hi. specialize (H i Hi). destruct (Hrow i Hi) as (Hi1 & _ & _ & Hfm).
      rewrite list_lookup_fmap, Hi1 in H. cbn in H. injection H as H.
      by rewrite H in Hfm.
    - intros H i Hi. destruct (Hrow i Hi) as (Hi1 & _ & _ & Hfm).
      rewrite list_lookup_fmap, Hi1. cbn. f_equal.
      eapply first_minimum_unique; [exact Hfm | by apply H]. }
  clearbody b.
  split; [exact Hiff|].
  intros i j Hij Hle.
  apply not_true_is_false. intros E.
  destruct Hiff as [Hall _]. destruct (Hall E i ltac:(lia)) as (x & Hx & _ & Hfirst).
  destruct (Hrow i ltac:(lia)) as (_ & Hl & _ & _).
  assert (Hxe : x = entry t i i).
  { unfold entry. by rewrite (list_lookup_total_correct _ _ _ Hx). }
  subst x. rewrite (Hfirst j (entry t i j)) in Hle; [discriminate|lia|].
  apply list_lookup_lookup_total_lt. lia.
Qed.

Lemma check_constraint_spec_witness :
  check_constraint [[1; 2]; [3; 1]]%float = Ok true
  /\ check_constraint [[1; 2]; [1; 1]]%float = Ok false.
Proof.
  destruct (check_constraint_spec [[1; 2]; [3; 1]]%float 2) as (b & Hb & _).
  - lia.
  - split; [reflexivity | repeat constructor].
  - repeat constructor.
  - split; [|vm_compute; reflexivity].
    rewrite Hb. revert Hb. vm_compute. intros Hb. symmetry. exact Hb.
Defined.

(** ** reassemble_matrix *)

(** *** Writing single entries *)

Lemma entry_set_entry_eq (a : matrix) r c v :
  (r < length a)%nat -> (c < length (a !!! r))%nat -> entry (set_entry a r c v) r c = v.
Proof.
  intros Hr Hc. unfold entry, set_entry.
  rewrite !list_lookup_total_alt, list_lookup_alter_eq.
  rewrite (list_lookup_lookup_total_lt a r Hr). cbn.
  by rewrite list_lookup_insert_eq.
Qed.

Lemma entry_set_entry_ne (a : matrix) r c v r' c' :
  (r, c) <> (r', c') -> entry (set_entry a r c v) r' c' = entry a r' c'.
Proof.
  intros Hne. unfold entry, set_entry.
  rewrite !list_lookup_total_alt, list_lookup_alter.
  destruct (decide (r = r')) as [->|]; [|done].
  destruct (a !! r') as [row|]; [|done]. cbn.
  rewrite list_lookup_insert_ne; [done|]. congruence.
Qed.

Lemma set_entry_shape (a : matrix) r c v :
  length (set_entry a r c v) = length a
  /\ forall i, length (set_entry a r c v !!! i) = length (a !!! i).
Proof.
  unfold set_entry. split; [apply length_alter|]. intros i.
  rewrite !list_lookup_total_alt, list_lookup_alter.
  destruct (decide (r = i)) as [->|]; [|done].
  destruct (a !! i) as [row|]; [|done]. cbn. apply length_insert.
Qed.

Lemma writes_shape ws (a : matrix) :
  length (foldl write a ws) = length a
  /\ forall i, length (foldl write a ws !!! i) = length (a !!! i).
Proof.
  revert a. induction ws as [|w ws IH]; intros a; [done|].
  cbn [foldl]. destruct (IH (write a w)) as [H1 H2].
  destruct (set_entry_shape a w.1.1 w.1.2 w.2) as [H3 H4].
  split; [by rewrite H1|]. intros i. by rewrite H2, <- H4.
Qed.

Lemma writes_miss ws (a : matrix) r c :
  (r, c) ∉ ws.*1 -> entry (foldl write a ws) r c = entry a r c.
Proof.
  revert a. induction ws as [|[[r' c'] v] ws IH]; intros a Hnot; [done|].
  cbn [foldl]. rewrite fmap_cons, not_elem_of_cons in Hnot. destruct Hnot as [Hne Hnot].
  rewrite IH by done. apply entry_set_entry_ne. cbn in Hne |- *. congruence.
Qed.

Lemma writes_hit ws (a : matrix) r c v :
  NoDup ws.*1 -> (r, c, v) ∈ ws ->
  (r < length a)%nat -> (c < length (a !!! r))%nat ->
  entry (foldl write a ws) r c = v.
Proof.
  revert a. induction ws as [|w ws IH]; intros a Hnd Hin Hr Hc.
  { by apply elem_of_nil in Hin. }
  rewrite fmap_cons in Hnd. apply NoDup_cons in Hnd as [Hfresh Hnd].
  cbn [foldl]. destruct (set_entry_shape a w.1.1 w.1.2 w.2) as [H3 H4].
  apply elem_of_cons in Hin as [<-|Hin].
  - rewrite writes_miss by done. by apply entry_set_entry_eq.
  - apply IH; try done; unfold write; [by rewrite H3 | by rewrite H4].
Qed.

Lemma foldl_bind {A B C} (g : A -> C -> A) (h : B -> list C) (l : list B) (a : A) :
  foldl (fun a x => foldl g a (h x)) a l = foldl g a (l ≫= h).
Proof.
  revert a. induction l as [|x l IH]; intros a; [done|].
  cbn [foldl]. by rewrite bind_cons, foldl_app, IH.
Qed.

(** *** One component *)

Lemma stretched_entry_square k sub a b :
  square k sub -> (a < k)%nat -> (b < k)%nat -> stretched_entry sub a b = entry sub a b.
Proof.
  intros [Hl Hrows] Ha Hb. unfold stretched_entry, entry.
  rewrite Forall_lookup in Hrows.
  assert (Hrow : length (sub !!! a) = k).
  { apply (Hrows a). apply list_lookup_lookup_total_lt. lia. }
  assert (Hrow0 : (if bool_decide (length sub = 1%nat) then sub !!! 0%nat else sub !!! a)
                  = sub !!! a).
  { destruct (decide (length sub = 1%nat)) as [H1|H1].
    - rewrite bool_decide_eq_true_2 by done. by assert (a = 0%nat) as -> by lia.
    - by rewrite bool_decide_eq_false_2 by done. }
  rewrite Hrow0, Hrow. destruct (decide (k = 1%nat)) as [H2|H2].
  - rewrite bool_decide_eq_true_2 by done. by assert (b = 0%nat) as -> by lia.
  - by rewrite bool_decide_eq_false_2 by done.
Qed.

Lemma stretches_to_square k sub : square k sub -> stretches_to k sub = true.
Proof.
  intros [Hl Hrows]. unfold stretches_to.
  rewrite bool_decide_eq_true_2 by done. cbn [orb andb].
  apply forallb_forall. intros row Hin. apply list_elem_of_In in Hin.
  rewrite Forall_forall in Hrows. by rewrite bool_decide_eq_true_2 by by apply Hrows.
Qed.

Lemma foldl_fun_ext {A B} (g g' : A -> B -> A) (l : list B) (a : A) :
  (forall a x, g a x = g' a x) -> foldl g a l = foldl g' a l.
Proof.
  intros H. revert a. induction l as [|x l IH]; intros a; [done|].
  cbn [foldl]. by rewrite H, IH.
Qed.

Lemma np_ix_set_ok (adjacency : matrix) indices sub :
  Forall (fun v => (v < length adjacency)%nat) indices ->
  square (length indices) sub ->
  np_ix_set adjacency indices sub = Ok (foldl write adjacency (block_writes indices sub)).
Proof.
  intros Hb Hs. unfold np_ix_set.
  assert (Hin : forallb (fun v => (v <? length adjacency)%nat) indices = true).
  { apply forallb_forall. intros v Hv. apply list_elem_of_In in Hv.
    rewrite Forall_forall in Hb. apply Nat.ltb_lt. by apply Hb. }
  rewrite Hin, stretches_to_square by done. cbn [negb].
  f_equal. unfold block_writes. rewrite <- foldl_bind.
  apply foldl_fun_ext. intros a ar. by rewrite <- foldl_bind.
Qed.

(** What the writes of one component are. *)
Lemma elem_of_block_writes indices sub r c v :
  (r, c, v) ∈ block_writes indices sub
  <-> exists a b, indices !! a = Some r /\ indices !! b = Some c
                  /\ v = stretched_entry sub a b.
Proof.
  unfold block_writes. rewrite list_elem_of_bind. split.
  - intros ([a r'] & H & Ha). apply list_elem_of_bind in H as ([b c'] & H & Hb).
    apply list_elem_of_singleton in H. cbn in H. injection H as -> -> ->.
    apply list_elem_of_lookup in Ha as [i Ha]. apply list_elem_of_lookup in Hb as [j Hb].
    apply lookup_zip_Some in Ha as [Ha1 Ha2]. apply lookup_zip_Some in Hb as [Hb1 Hb2].
    apply lookup_seq in Ha1 as [-> _]. apply lookup_seq in Hb1 as [-> _].
    by exists i, j.
  - intros (a & b & Ha & Hb & ->).
    pose proof (lookup_lt_Some _ _ _ Ha). pose proof (lookup_lt_Some _ _ _ Hb).
    exists (a, r). split.
    + apply list_elem_of_bind. exists (b, c). split; [by apply list_elem_of_singleton|].
      apply list_elem_of_lookup. exists b. apply lookup_zip_Some.
      split; [by apply lookup_seq|done].
    + apply list_elem_of_lookup. exists a. apply lookup_zip_Some.
      split; [by apply lookup_seq|done].
Qed.

Lemma block_writes_targets indices sub :
  (block_writes indices sub).*1 = (r ← indices; c ← indices; [(r, c)]).
Proof.
  unfold block_writes.
  assert (E : forall (l : list (nat * nat)) (g : nat * nat -> list (nat * nat * float)),
            (l ≫= g).*1 = l ≫= fun x => (g x).*1).
  { intros l g. induction l as [|x l IH]; [done|].
    by rewrite !bind_cons, fmap_app, IH. }
  assert (Z : forall (h : nat -> list (nat * nat)),
            zip (seq 0 (length indices)) indices ≫= (fun ar => h ar.2) = indices ≫= h).
  { intros h. generalize 0%nat. induction indices as [|x l IH]; intros s; [done|].
    cbn [length seq]. change (zip (s :: seq (S s) (length l)) (x :: l))
      with ((s, x) :: zip (seq (S s) (length l)) l).
    by rewrite !bind_cons, IH. }
  rewrite E. rewrite <- (Z (fun r => c ← indices; [(r, c)])).
  apply list_bind_ext; [|done]. intros ar. cbn.
  rewrite E. rewrite <- (Z (fun c => [(ar.2, c)])). reflexivity.
Qed.

(** *** All components *)

Lemma num_nodes_eq (comps : list (list nat)) :
  foldl Nat.add 0%nat (length <$> comps) = length (concat comps).
Proof.
  assert (H : forall a, foldl Nat.add a (length <$> comps) = (a + length (concat comps))%nat).
  { induction comps as [|c comps IH]; intros a.
    - cbn. lia.
    - rewrite fmap_cons. cbn [foldl concat]. rewrite IH, length_app. lia. }
  by rewrite H.
Qed.

(** A vertex lies in one component only. *)
Lemma component_unique (comps : list (list nat)) p q cp cq v :
  NoDup (concat comps) ->
  comps !! p = Some cp -> comps !! q = Some cq -> v ∈ cp -> v ∈ cq -> p = q.
Proof.
  revert p q. induction comps as [|c comps IH]; intros p q Hnd Hp Hq Hvp Hvq; [done|].
  cbn [concat] in Hnd. apply NoDup_app in Hnd as (_ & Hdisj & Hnd).
  destruct p as [|p], q as [|q]; cbn in Hp, Hq.
  - done.
  - injection Hp as ->. destruct (Hdisj v Hvp). apply elem_of_concat.
    exists cq. split; [by eapply list_elem_of_lookup_2|done].
  - injection Hq as ->. destruct (Hdisj v Hvq). apply elem_of_concat.
    exists cp. split; [by eapply list_elem_of_lookup_2|done].
  - f_equal. by apply IH.
Qed.

Lemma reassemble_loop (l : list (list nat * matrix)) (a : matrix) :
  Forall (fun cs => Forall (fun v => (v < length a)%nat) cs.1
                    /\ square (length cs.1) cs.2) l ->
  for_ l (fun adj cs => np_ix_set adj cs.1 cs.2) a
  = Ok (foldl write a (l ≫= fun cs => block_writes cs.1 cs.2)).
Proof.
  revert a. induction l as [|cs l IH]; intros a Hl; [done|].
  apply Forall_cons in Hl as [[Hb Hs] Hl].
  cbn [for_]. rewrite np_ix_set_ok by done. cbn [mbind res_bind].
  rewrite IH, bind_cons, foldl_app; [done|].
  destruct (writes_shape (block_writes cs.1 cs.2) a) as [-> _]. done.
Qed.

Lemma elem_of_all_writes comps subs r c v :
  (r, c, v) ∈ all_writes comps subs
  <-> exists p cp sub a b,
        comps !! p = Some cp /\ subs !! p = Some sub
        /\ cp !! a = Some r /\ cp !! b = Some c /\ v = stretched_entry sub a b.
Proof.
  unfold all_writes. rewrite list_elem_of_bind. split.
  - intros ([cp sub] & Hw & Hin). apply list_elem_of_lookup in Hin as [p Hp].
    apply lookup_zip_Some in Hp as [Hp1 Hp2].
    apply elem_of_block_writes in Hw as (a & b & Ha & Hb & ->).
    by exists p, cp, sub, a, b.
  - intros (p & cp & sub & a & b & Hp1 & Hp2 & Ha & Hb & ->).
    exists (cp, sub). split.
    + apply elem_of_block_writes. by exists a, b.
    + apply list_elem_of_lookup. exists p. by apply lookup_zip_Some.
Qed.

Lemma all_writes_targets comps subs r c :
  (r, c) ∈ (all_writes comps subs).*1 ->
  exists p cp, comps !! p = Some cp /\ r ∈ cp /\ c ∈ cp.
Proof.
  intros H. apply list_elem_of_fmap in H as ([[r' c'] v] & E & H).
  cbn in E. injection E as <- <-.
  apply elem_of_all_writes in H as (p & cp & sub & a & b & Hp & _ & Ha & Hb & _).
  exists p, cp. split; [done|]. split; by eapply list_elem_of_lookup_2.
Qed.

Lemma all_writes_NoDup comps subs :
  NoDup (concat comps) -> NoDup (all_writes comps subs).*1.
Proof.
  revert subs. induction comps as [|cp comps IH]; intros subs Hnd.
  { apply NoDup_nil_2. }
  destruct subs as [|sub subs]; [apply NoDup_nil_2|].
  cbn [concat] in Hnd. apply NoDup_app in Hnd as (Hcp & Hdisj & Hnd).
  unfold all_writes.
  change (zip (cp :: comps) (sub :: subs)) with ((cp, sub) :: zip comps subs).
  rewrite bind_cons, fmap_app. fold (all_writes comps subs).
  apply NoDup_app. split; [|split].
  - rewrite block_writes_targets. apply NoDup_bind.
    + intros r1 r2 [r c] _ _ H1 H2.
      apply list_elem_of_bind in H1 as (c1 & H1 & _).
      apply list_elem_of_bind in H2 as (c2 & H2 & _).
      apply list_elem_of_singleton in H1, H2. congruence.
    + intros r _. apply NoDup_bind; [|intros; apply NoDup_singleton|done].
      intros c1 c2 [r' c] _ _ H1 H2.
      apply list_elem_of_singleton in H1, H2. congruence.
    + done.
  - intros [r c] H1 H2. rewrite block_writes_targets in H1.
    apply list_elem_of_bind in H1 as (r' & H1 & Hr).
    apply list_elem_of_bind in H1 as (c' & H1 & _).
    apply list_elem_of_singleton in H1. injection H1 as -> ->.
    apply all_writes_targets in H2 as (p & cq & Hq & Hrq & _).
    apply (Hdisj r' Hr). apply elem_of_concat. exists cq.
    split; [by eapply list_elem_of_lookup_2|done].
  - by apply IH.
Qed.

Lemma entry_fill N x r c :
  (r < N)%nat -> (c < N)%nat -> entry (replicate N (replicate N x)) r c = x.
Proof.
  intros Hr Hc. unfold entry.
  rewrite (list_lookup_total_correct _ r (replicate N x)) by by apply lookup_replicate_2.
  apply list_lookup_total_correct. by apply lookup_replicate_2.
Qed.

(** C7.  For sub-matrices and component lists that match,
    [reassemble_matrix] returns an N-by-N matrix whose entry at a row and a
    column of two different components is the fill value, 1.0 for "fst" and
    +infinity otherwise, and whose entry at a row and a column of one
    component is the entry of that component's sub-matrix. *)
Theorem reassemble_matrix_spec (subs : list matrix) (comps : list (list nat))
    (which : string) :
  matching subs comps ->
  exists R,
    reassemble_matrix subs comps which = Ok R
    /\ square (length (concat comps)) R
    /\ forall p q cp cq a b r c,
         comps !! p = Some cp -> comps !! q = Some cq ->
         cp !! a = Some r -> cq !! b = Some c ->
         entry R r c = if decide (p = q) then entry (subs !!! p) a b
                       else fill_value which.
Proof.
  intros [Hperm Hshapes].
  set (N := length (concat comps)) in *.
  assert (Hnd : NoDup (concat comps)) by (rewrite Hperm; apply NoDup_seq).
  assert (Hlt : forall v, v ∈ concat comps -> (v < N)%nat).
  { intros v Hv. rewrite Hperm in Hv. apply elem_of_seq in Hv. lia. }
  unfold reassemble_matrix. rewrite num_nodes_eq. fold N. fold (fill_value which).
  set (init := replicate N (replicate N (fill_value which))).
  assert (Hinit : length init = N) by apply length_replicate.
  rewrite reassemble_loop.
  2:{ apply Forall_forall. intros [cp sub] Hin. apply list_elem_of_lookup in Hin as [p Hp].
      apply lookup_zip_Some in Hp as [Hp1 Hp2]. cbn [fst snd]. split.
      - apply Forall_forall. intros v Hv. rewrite Hinit. apply Hlt, elem_of_concat.
        exists cp. split; [by eapply list_elem_of_lookup_2|done].
      - exact (Forall2_lookup_lr _ comps subs p cp sub Hshapes Hp1 Hp2). }
  fold (all_writes comps subs). eexists. split; [reflexivity|].
  destruct (writes_shape (all_writes comps subs) init) as [Hlen Hrows].
  split.
  { split; [by rewrite Hlen|]. apply Forall_lookup. intros i row Hi.
    pose proof (lookup_lt_Some _ _ _ Hi) as Hi'. rewrite Hlen, Hinit in Hi'.
    rewrite <- (list_lookup_total_correct _ _ _ Hi), Hrows.
    unfold init. rewrite (list_lookup_total_correct _ i (replicate N (fill_value which)))
      by by apply lookup_replicate_2.
    apply length_replicate. }
  intros p q cp cq a b r c Hp Hq Ha Hb.
  assert (Hr : (r < N)%nat).
  { apply Hlt, elem_of_concat. exists cp.
    split; by eapply list_elem_of_lookup_2. }
  assert (Hc : (c < N)%nat).
  { apply Hlt, elem_of_concat. exists cq.
    split; by eapply list_elem_of_lookup_2. }
  destruct (decide (p = q)) as [<-|Hpq].
  - assert (cq = cp) as -> by congruence.
    destruct (Forall2_lookup_l _ _ _ _ _ Hshapes Hp) as (sub & Hsub & Hsq).
    rewrite (list_lookup_total_correct _ _ _ Hsub).
    rewrite <- (stretched_entry_square (length cp) sub a b)
      by (done || by eapply lookup_lt_Some).
    apply writes_hit.
    + by apply all_writes_NoDup.
    + apply elem_of_all_writes. by exists p, cp, sub, a, b.
    + by rewrite Hinit.
    + unfold init. rewrite (list_lookup_total_correct _ r (replicate N (fill_value which)))
        by by apply lookup_replicate_2.
      by rewrite length_replicate.
  - rewrite writes_miss; [by apply entry_fill|].
    intros Hin. apply all_writes_targets in Hin as (k & ck & Hk & Hrk & Hck).
    apply Hpq. transitivity k.
    + apply (component_unique comps p k cp ck r); try done.
      by eapply list_elem_of_lookup_2.
    + apply (component_unique comps k q ck cq c); try done.
      by eapply list_elem_of_lookup_2.
Qed.

Lemma reassemble_matrix_spec_witness :
  reassemble_matrix [[[2]]; [[3]]]%float [[0%nat]; [1%nat]] "fst"
    = Ok [[2; 1]; [1; 3]]%float
  /\ reassemble_matrix [[[2]]; [[3]]]%float [[0%nat]; [1%nat]] "coalescence"
    = Ok [[2; infinity]; [infinity; 3]]%float.
Proof.
  destruct (reassemble_matrix_spec [[[2]]; [[3]]]%float [[0%nat]; [1%nat]] "fst")
    as (R & HR & _).
  - split; [reflexivity|]. repeat constructor.
  - split; [rewrite HR; revert HR|]; vm_compute; [intros HR; symmetry; exact HR | reflexivity].
Defined.

(** ** find_components *)

(** *** The state of the search *)

Lemma bfs_state_eq c q v nv d c' q' v' nv' d' :
  c = c' -> q = q' -> v = v' -> nv = nv' -> d = d' ->
  Build_bfs_state c q v nv d = Build_bfs_state c' q' v' nv' d'.
Proof. by intros -> -> -> -> ->. Qed.

Lemma dict_append_last (done : list (list nat)) cur a w :
  dict_append (zip (seq a (S (length done))) (done ++ [cur])) (a + length done) w
  = Ok (zip (seq a (S (length done))) (done ++ [cur ++ [w]])).
Proof.
  revert a. induction done as [|c done IH]; intros a.
  { cbn. by rewrite Nat.add_0_r, Nat.eqb_refl. }
  change (zip (seq a (S (length (c :: done)))) ((c :: done) ++ [cur]))
    with ((a, c) :: zip (seq (S a) (S (length done))) (done ++ [cur])).
  change (zip (seq a (S (length (c :: done)))) ((c :: done) ++ [cur ++ [w]]))
    with ((a, c) :: zip (seq (S a) (S (length done))) (done ++ [cur ++ [w]])).
  cbn [dict_append length].
  destruct (a =? a + S (length done))%nat eqn:E; [apply Nat.eqb_eq in E; lia|].
  replace (a + S (length done))%nat with (S a + length done)%nat by lia.
  rewrite IH. reflexivity.
Qed.

Lemma dict_set_new (comps : list (list nat)) a l :
  dict_set (zip (seq a (length comps)) comps) (a + length comps) l
  = zip (seq a (S (length comps))) (comps ++ [l]).
Proof.
  revert a. induction comps as [|c comps IH]; intros a.
  { cbn. by rewrite Nat.add_0_r. }
  change (zip (seq a (length (c :: comps))) (c :: comps))
    with ((a, c) :: zip (seq (S a) (length comps)) comps).
  change (zip (seq a (S (length (c :: comps)))) ((c :: comps) ++ [l]))
    with ((a, c) :: zip (seq (S a) (S (length comps))) (comps ++ [l])).
  cbn [dict_set length].
  destruct (a =? a + S (length comps))%nat eqn:E; [apply Nat.eqb_eq in E; lia|].
  replace (a + S (length comps))%nat with (S a + length comps)%nat by lia.
  rewrite IH. reflexivity.
Qed.

Lemma getitem2_ok (m : matrix) n a b :
  square n m -> (a < n)%nat -> (b < n)%nat -> getitem2 m a b = Ok (entry m a b).
Proof.
  intros [Hl Hrows] Ha Hb. unfold getitem2, entry.
  rewrite getitem_lt by lia. cbn [mbind res_bind].
  rewrite getitem_lt; [done|].
  rewrite Forall_lookup in Hrows. rewrite (Hrows a); [done|].
  apply list_lookup_lookup_total_lt. lia.
Qed.

Lemma edge_ok (m : matrix) n a b :
  square n m -> (a < n)%nat -> (b < n)%nat -> edge m a b = Ok (adjacent m a b).
Proof.
  intros Hm Ha Hb. unfold edge, adjacent.
  rewrite (getitem2_ok m n a b) by done. cbn [mbind res_bind].
  destruct (nonzero (entry m a b)); [reflexivity|].
  rewrite (getitem2_ok m n b a) by done. reflexivity.
Qed.

Lemma adjacent_sym m a b : adjacent m a b = adjacent m b a.
Proof. unfold adjacent. apply orb_comm. Qed.

Lemma filter_ext_elem {A} (P Q : A -> Prop) `{!forall x, Decision (P x)}
    `{!forall x, Decision (Q x)} (l : list A) :
  (forall x, x ∈ l -> P x <-> Q x) -> filter P l = filter Q l.
Proof.
  induction l as [|x l IH]; intros Hext; [done|].
  rewrite !filter_cons. rewrite IH by (intros; apply Hext; by right).
  destruct (decide (P x)) as [HP|HP], (decide (Q x)) as [HQ|HQ]; try done.
  - destruct HQ. apply Hext; [left|done].
  - destruct HP. apply Hext; [left|done].
Qed.


(** *** The scan of one vertex: [for i in range(n)] *)

Lemma scan_vertex_step m n done cur q v w :
  square n m -> (v < n)%nat -> (w < n)%nat ->
  scan_vertex m v (search_state n done cur q) w
  = Ok (if decide (adjacent m v w = true /\ w ∉ concat done ++ cur)
        then search_state n done (cur ++ [w]) (q ++ [w])
        else search_state n done cur q).
Proof.
  intros Hm Hv Hwn. unfold scan_vertex.
  cbn [visited not_visited comp_dict components queue search_state].
  destruct (decide (w ∈ (list_to_set (concat done ++ cur) : gset nat))) as [Hin|Hin].
  { rewrite decide_False; [done|]. intros [_ H]. apply H.
    by apply elem_of_list_to_set in Hin. }
  rewrite not_elem_of_list_to_set in Hin.
  rewrite (edge_ok m n) by done. cbn [mbind res_bind].
  destruct (adjacent m v w) eqn:Hadj.
  2:{ rewrite decide_False; [done|]. by intros [H _]. }
  rewrite decide_True by done.
  unfold set_remove. rewrite decide_True.
  2:{ apply elem_of_difference. split.
      - apply elem_of_list_to_set, elem_of_seq. lia.
      - by apply not_elem_of_list_to_set. }
  cbn [mbind res_bind]. unfold labelled at 1.
  rewrite length_app, Nat.add_1_r.
  change (S (length done)) with (1 + length done)%nat at 2.
  rewrite dict_append_last. cbn [mbind res_bind].
  f_equal. unfold search_state. apply bfs_state_eq; try done.
  - apply set_eq. intros x.
    rewrite elem_of_union, !elem_of_list_to_set, elem_of_singleton, !elem_of_app,
      list_elem_of_singleton. tauto.
  - apply set_eq. intros x.
    rewrite !elem_of_difference, !elem_of_list_to_set, elem_of_singleton,
      !elem_of_app, list_elem_of_singleton. tauto.
  - unfold labelled. by rewrite length_app, Nat.add_1_r.
Qed.

Lemma scan_vertex_loop m n done cur q v ws :
  square n m -> (v < n)%nat -> NoDup ws -> Forall (fun w => (w < n)%nat) ws ->
  for_ ws (scan_vertex m v) (search_state n done cur q)
  = Ok (let new := filter (fun w => adjacent m v w = true /\ w ∉ concat done ++ cur) ws in
        search_state n done (cur ++ new) (q ++ new)).
Proof.
  intros Hm Hv. revert cur q. induction ws as [|w ws IH]; intros cur q Hnd Hlt.
  { cbn. by rewrite !app_nil_r. }
  apply NoDup_cons in Hnd as [Hw Hnd]. apply Forall_cons in Hlt as [Hwn Hlt].
  cbn [for_]. rewrite (scan_vertex_step m n) by done. cbn [mbind res_bind].
  cbn zeta. rewrite filter_cons.
  destruct (decide (adjacent m v w = true /\ w ∉ concat done ++ cur)) as [Hd|Hd].
  2:{ by rewrite IH. }
  rewrite IH by done. cbn zeta. f_equal.
  rewrite (filter_ext_elem
             (fun w0 => adjacent m v w0 = true /\ w0 ∉ concat done ++ cur ++ [w])
             (fun w0 => adjacent m v w0 = true /\ w0 ∉ concat done ++ cur)).
  - by rewrite <- !app_assoc.
  - intros x Hx. rewrite (app_assoc (concat done)), (not_elem_of_app _ [w]).
    rewrite list_elem_of_singleton. split; [tauto|]. intros [H1 H2].
    repeat split; try done. intros ->. done.
Qed.

(** The body of the inner loop, on a vertex inside the bounds. *)
Lemma visit_next_ok m n done cur q v :
  square n m -> (v < n)%nat ->
  visit_next m n (search_state n done cur (v :: q))
  = Ok (let new := filter (fun w => adjacent m v w = true /\ w ∉ concat done ++ cur)
                     (seq 0 n) in
        search_state n done (cur ++ new) (q ++ new)).
Proof.
  intros Hm Hv. unfold visit_next. cbn [queue search_state].
  unfold range. rewrite Nat.sub_0_r.
  apply (scan_vertex_loop m n done cur q v (seq 0 n)); try done.
  - apply NoDup_seq.
  - apply Forall_forall. intros w Hw. apply elem_of_seq in Hw. lia.
Qed.

(** *** The invariant of the search *)

Lemma NoDup_bounded_length (l : list nat) n :
  NoDup l -> Forall (fun v => (v < n)%nat) l -> (length l <= n)%nat.
Proof.
  intros Hnd Hb.
  assert (H : (length l <= length (seq 0 n))%nat); [|by rewrite length_seq in H].
  apply submseteq_length.
  apply NoDup_submseteq; [done|]. intros x Hx.
  rewrite Forall_forall in Hb. apply elem_of_seq. specialize (Hb x Hx). lia.
Qed.

Lemma size_not_visited (l : list nat) n :
  NoDup l -> Forall (fun v => (v < n)%nat) l ->
  size ((list_to_set (seq 0 n) : gset nat) ∖ list_to_set l) = (n - length l)%nat.
Proof.
  intros Hnd Hb. rewrite size_difference.
  - rewrite !size_list_to_set by (done || apply NoDup_seq). by rewrite length_seq.
  - intros x. rewrite !elem_of_list_to_set, elem_of_seq. intros Hx.
    rewrite Forall_forall in Hb. specialize (Hb x Hx). lia.
Qed.

Lemma not_visited_empty (l : list nat) n :
  (list_to_set (seq 0 n) : gset nat) ∖ list_to_set l = ∅
  <-> forall x, (x < n)%nat -> x ∈ l.
Proof.
  split.
  - intros E x Hx. destruct (decide (x ∈ l)) as [|Hn]; [done|].
    assert (H : x ∈ (list_to_set (seq 0 n) : gset nat) ∖ list_to_set l).
    { apply elem_of_difference. rewrite !elem_of_list_to_set, elem_of_seq. split; [lia|done]. }
    rewrite E in H. by apply not_elem_of_empty in H.
  - intros H. apply set_eq. intros x.
    rewrite elem_of_difference, !elem_of_list_to_set, elem_of_seq. split.
    + intros [Hx Hn]. destruct Hn. apply H. lia.
    + intros Hx. by apply not_elem_of_empty in Hx.
Qed.

Section Search.
Variable m : matrix.
Variable n : nat.
Hypothesis Hm : square n m.

Lemma search_inv_outside done cur q s a b :
  search_inv m n done cur q s -> a ∈ cur -> adjacent m a b = true -> b ∉ concat done.
Proof using Hm.
  intros I Ha Hab Hb.
  assert (Han : (a < n)%nat).
  { pose proof (inv_bound _ _ _ _ _ _ I) as Hbd. rewrite Forall_forall in Hbd.
    apply Hbd, elem_of_app. by right. }
  assert (Ha' : a ∈ concat done).
  { apply (inv_done _ _ _ _ _ _ I b a); [done|done|]. by rewrite adjacent_sym. }
  pose proof (inv_nodup _ _ _ _ _ _ I) as Hnd.
  apply NoDup_app in Hnd as (_ & Hdisj & _). by apply (Hdisj a).
Qed.

Lemma discovered_from_outside done cur q s v :
  search_inv m n done cur q s -> v ∈ cur ->
  discovered_from m n (concat done ++ cur) v = discovered_from m n cur v.
Proof using Hm.
  intros I Hv. unfold discovered_from. apply filter_ext_elem. intros w _.
  rewrite not_elem_of_app. split; [tauto|]. intros [Hvw Hw].
  repeat split; try done. by apply (search_inv_outside done cur q s v w).
Qed.

Lemma elem_of_discovered_from seen v w :
  w ∈ discovered_from m n seen v <-> (w < n)%nat /\ adjacent m v w = true /\ w ∉ seen.
Proof.
  unfold discovered_from. rewrite list_elem_of_filter, elem_of_seq.
  split; [intros [[? ?] ?]|intros (?&?&?)]; repeat split; try done; lia.
Qed.

(** One visit keeps the invariant. *)
Lemma search_inv_visit done cur q s v :
  search_inv m n done cur (v :: q) s ->
  let new := discovered_from m n (concat done ++ cur) v in
  search_inv m n done (cur ++ new) (q ++ new) s.
Proof using Hm.
  intros I new.
  destruct (inv_queue _ _ _ _ _ _ I) as (proc & Ecur & Hproc).
  assert (Hvcur : v ∈ cur).
  { rewrite Ecur. apply elem_of_app. right. left. }
  assert (Hnew : forall w, w ∈ new <->
            (w < n)%nat /\ adjacent m v w = true /\ w ∉ concat done ++ cur).
  { intros w. apply elem_of_discovered_from. }
  split.
  - rewrite app_assoc. apply NoDup_app. split; [apply I|]. split.
    + intros x Hx Hx'. apply Hnew in Hx' as (_ & _ & Hx'). done.
    + apply NoDup_filter, NoDup_seq.
  - rewrite app_assoc. apply Forall_app. split; [apply I|].
    apply Forall_forall. intros w Hw. by apply Hnew in Hw as (? & _).
  - apply I.
  - exists (proc ++ [v]). split.
    { rewrite Ecur, <- !app_assoc. done. }
    intros a b Ha Hb Hab. rewrite app_assoc. apply elem_of_app.
    apply elem_of_app in Ha as [Ha|Ha].
    + left. by apply (Hproc a b).
    + apply list_elem_of_singleton in Ha as ->.
      destruct (decide (b ∈ concat done ++ cur)); [by left|right].
      by apply Hnew.
  - intros w Hw. apply elem_of_app in Hw as [Hw|Hw]; [by apply I|].
    apply Hnew in Hw as (Hwn & Hvw & _).
    eapply rtc_r; [apply (inv_connected _ _ _ _ _ _ I v Hvcur)|].
    repeat split; try done.
    pose proof (inv_bound _ _ _ _ _ _ I) as Hbd. rewrite Forall_forall in Hbd.
    apply Hbd, elem_of_app. by right.
  - intros order Hrun. apply (inv_run _ _ _ _ _ _ I). apply bfs_visit.
    rewrite <- (discovered_from_outside done cur (v :: q) s v) by done. done.
  - pose proof (inv_head _ _ _ _ _ _ I) as Hh. destruct cur; [done|]. done.
Qed.

(** The inner loop empties the queue. *)
Lemma search_inner_loop fuel done cur q s :
  search_inv m n done cur q s ->
  (length q + (n - length (concat done ++ cur)) <= fuel)%nat ->
  exists cur',
    while_ fuel (fun s => negb (bool_decide (queue s = []))) (visit_next m n)
      (search_state n done cur q)
    = Ok (search_state n done cur' [])
    /\ search_inv m n done cur' [] s
    /\ (length cur <= length cur')%nat.
Proof using Hm.
  revert cur q. induction fuel as [|fuel IH]; intros cur q I Hfuel.
  - destruct q as [|v q]; [|cbn in Hfuel; lia].
    exists cur. split; [|by split]. cbn [while_ queue search_state].
    by rewrite bool_decide_eq_true_2.
  - destruct q as [|v q].
    { exists cur. split; [|by split]. cbn [while_ queue search_state].
      by rewrite bool_decide_eq_true_2. }
    assert (Hvn : (v < n)%nat).
    { destruct (inv_queue _ _ _ _ _ _ I) as (proc & Ecur & _).
      pose proof (inv_bound _ _ _ _ _ _ I) as Hbd. rewrite Forall_forall in Hbd.
      apply Hbd. rewrite Ecur, !elem_of_app. right. right. left. }
    pose proof (search_inv_visit done cur q s v I) as I'. cbn zeta in I'.
    set (new := discovered_from m n (concat done ++ cur) v) in *.
    pose proof (NoDup_bounded_length _ n (inv_nodup _ _ _ _ _ _ I') (inv_bound _ _ _ _ _ _ I')) as Hlen.
    rewrite !length_app in Hlen.
    destruct (IH (cur ++ new) (q ++ new) I') as (cur' & Hrun & I'' & Hlen').
    { rewrite !length_app. cbn [length] in Hfuel. rewrite length_app in Hfuel. lia. }
    exists cur'. split; [|split; [done|]].
    + cbn [while_ queue search_state negb bool_decide].
      rewrite bool_decide_eq_false_2 by done. cbn [negb].
      rewrite (visit_next_ok m n done cur q v Hm Hvn). cbn [mbind res_bind]. cbn zeta.
      exact Hrun.
    + rewrite length_app in Hlen'. lia.
Qed.

Lemma search_over_closed done cur q s :
  search_inv m n done cur q s -> search_over n done cur q -> closed_in m n cur cur.
Proof using Hm.
  intros I Hover a b Ha Hb Hab.
  assert (Hin : b ∈ concat done ++ cur).
  { destruct Hover as [->|Hall]; [|by apply Hall].
    destruct (inv_queue _ _ _ _ _ _ I) as (proc & Ecur & Hproc).
    rewrite app_nil_r in Ecur. subst proc. by apply (Hproc a b). }
  apply elem_of_app in Hin as [Hin|Hin]; [|done].
  by destruct (search_inv_outside done cur q s a b I Ha Hab).
Qed.

Lemma bfs_run_nothing_new q seen :
  (forall v, v ∈ q -> discovered_from m n seen v = []) -> bfs_run m n q seen seen.
Proof.
  induction q as [|v q IH]; intros H; [constructor|].
  apply bfs_visit. rewrite (H v) by left. rewrite !app_nil_r.
  apply IH. intros w Hw. apply H. by right.
Qed.

Lemma search_over_run done cur q s :
  search_inv m n done cur q s -> search_over n done cur q -> bfs_order m n s cur.
Proof using Hm.
  intros I Hover. apply (inv_run _ _ _ _ _ _ I).
  apply bfs_run_nothing_new. intros v Hv.
  assert (Hvcur : v ∈ cur).
  { destruct (inv_queue _ _ _ _ _ _ I) as (proc & Ecur & _).
    rewrite Ecur. apply elem_of_app. by right. }
  destruct (discovered_from m n cur v) as [|w l] eqn:E; [done|].
  assert (Hw : w ∈ discovered_from m n cur v) by (rewrite E; left).
  apply elem_of_discovered_from in Hw as (Hwn & Hvw & Hw).
  destruct Hw. by apply (search_over_closed done cur q s I Hover v w).
Qed.

Lemma search_over_members done cur q s :
  search_inv m n done cur q s -> search_over n done cur q ->
  forall v, v ∈ cur <-> (v < n)%nat /\ connected m n s v.
Proof using Hm.
  intros I Hover v. split.
  - intros Hv. split; [|by apply I].
    pose proof (inv_bound _ _ _ _ _ _ I) as Hbd. rewrite Forall_forall in Hbd.
    apply Hbd, elem_of_app. by right.
  - intros [_ Hc]. unfold connected in Hc. revert v Hc.
    apply (rtc_ind_r (fun v => v ∈ cur)); [|intros a b Hsa Hab IHc].
    + pose proof (inv_head _ _ _ _ _ _ I) as Hh. destruct cur as [|x cur']; [done|].
      injection Hh as ->. left.
    + destruct Hab as (Ha & Hb & Hadj).
      by apply (search_over_closed done cur q s I Hover a b).
Qed.

End Search.

(** *** Opening the next component: [for vertex in not_visited: ...; break] *)

Lemma iterates_empty set_iter : iterates set_iter -> set_iter ∅ = [].
Proof.
  intros H. apply Permutation_nil_r. rewrite (H ∅). by rewrite elements_empty.
Qed.

Lemma iterates_head set_iter (s : gset nat) :
  iterates set_iter -> s <> ∅ -> exists v l, set_iter s = v :: l /\ v ∈ s.
Proof.
  intros H Hs. destruct (set_iter s) as [|v l] eqn:E.
  - destruct Hs. apply leibniz_equiv, elements_empty_iff. apply Permutation_nil_r.
    by rewrite <- (H s), E.
  - exists v, l. split; [done|]. apply elem_of_elements. rewrite <- (H s), E. left.
Qed.

Lemma unvisited_snoc n (done : list (list nat)) cur :
  unvisited n (done ++ [cur]) = list_to_set (seq 0 n) ∖ list_to_set (concat done ++ cur).
Proof. unfold unvisited. by rewrite concat_app, (concat_cons cur []), concat_nil, app_nil_r. Qed.

Lemma start_of_snoc set_iter n (done : list (list nat)) cur :
  start_of set_iter n (done ++ [cur]) = head (set_iter (unvisited n (done ++ [cur]))).
Proof. by destruct done. Qed.

Lemma start_component_none set_iter n done cur :
  iterates set_iter ->
  (forall x, (x < n)%nat -> x ∈ concat done ++ cur) ->
  start_component set_iter (search_state n done cur [])
  = Ok (search_state n done cur []).
Proof.
  intros Hiter Hall. unfold start_component. cbn [not_visited search_state].
  apply not_visited_empty in Hall. rewrite Hall. by rewrite iterates_empty.
Qed.

Lemma start_component_next set_iter n done cur :
  iterates set_iter ->
  ~ (forall x, (x < n)%nat -> x ∈ concat done ++ cur) ->
  exists v, start_of set_iter n (done ++ [cur]) = Some v
    /\ (v < n)%nat /\ (v ∉ concat done ++ cur)
    /\ start_component set_iter (search_state n done cur [])
       = Ok (search_state n (done ++ [cur]) [v] [v]).
Proof.
  intros Hiter Hnot. rewrite start_of_snoc, unvisited_snoc.
  unfold start_component. cbn [not_visited search_state queue visited components comp_dict].
  set (U := (list_to_set (seq 0 n) : gset nat) ∖ list_to_set (concat done ++ cur)).
  destruct (iterates_head set_iter U Hiter) as (v & l & E & Hv).
  { intros HU. by apply Hnot, not_visited_empty. }
  rewrite E. exists v. split; [done|].
  assert (Hv' := Hv). unfold U in Hv'.
  rewrite elem_of_difference, !elem_of_list_to_set, elem_of_seq in Hv'.
  destruct Hv' as [Hvn Hvl]. split; [lia|]. split; [done|].
  unfold set_remove. rewrite decide_True by done. cbn [mbind res_bind].
  f_equal. unfold search_state. apply bfs_state_eq.
  - by rewrite length_app, Nat.add_1_r.
  - done.
  - apply set_eq. intros x.
    rewrite concat_app, (concat_cons cur []), concat_nil, app_nil_r.
    rewrite elem_of_union, !elem_of_list_to_set, elem_of_singleton, !elem_of_app,
      list_elem_of_singleton. tauto.
  - apply set_eq. intros x. unfold U.
    rewrite concat_app, (concat_cons cur []), concat_nil, app_nil_r.
    rewrite !elem_of_difference, !elem_of_list_to_set, elem_of_singleton, !elem_of_app,
      list_elem_of_singleton. tauto.
  - unfold labelled.
    replace (S (S (length done))) with (1 + length (done ++ [cur]))%nat
      by (rewrite length_app; cbn; lia).
    rewrite dict_set_new. rewrite (length_app (done ++ [cur])). cbn [length].
    by rewrite Nat.add_1_r.
Qed.

(** *** The outer loop *)

Section Components.
Variable set_iter : gset nat -> list nat.
Hypothesis Hiter : iterates set_iter.
Variable m : matrix.
Variable n : nat.
Hypothesis Hm : square n m.

Lemma component_of_finished done cur q s :
  search_inv m n done cur q s -> search_over n done cur q ->
  start_of set_iter n done = Some s ->
  component_of set_iter m n done cur.
Proof using Hm.
  intros I Hover Hs. exists s. split; [done|]. split; [apply I|]. split.
  - by apply (search_over_run m n Hm done cur q s).
  - by apply (search_over_members m n Hm done cur q s).
Qed.

Lemma components_inv_next done cur s v :
  components_inv set_iter m n done cur [] s ->
  start_of set_iter n (done ++ [cur]) = Some v ->
  (v < n)%nat -> v ∉ concat done ++ cur ->
  components_inv set_iter m n (done ++ [cur]) [v] [v] v.
Proof using Hm.
  intros (I & Hs & Hdone) Hv Hvn Hvl.
  assert (Hover : search_over n done cur []) by by left.
  assert (Ecat : concat (done ++ [cur]) = concat done ++ cur).
  { by rewrite concat_app, (concat_cons cur []), concat_nil, app_nil_r. }
  split; [|split; [done|]].
  - split.
    + rewrite Ecat. apply NoDup_app. split; [apply I|]. split.
      * intros x Hx Hx'. apply list_elem_of_singleton in Hx' as ->. done.
      * apply NoDup_singleton.
    + rewrite Ecat. apply Forall_app. split; [apply I|]. by apply Forall_singleton.
    + rewrite Ecat. intros a b Ha Hb Hab. apply elem_of_app.
      apply elem_of_app in Ha as [Ha|Ha].
      * left. by apply (inv_done _ _ _ _ _ _ I a b).
      * right. by apply (search_over_closed m n Hm done cur [] s I Hover a b).
    + exists []. split; [done|]. intros a b Ha. by apply elem_of_nil in Ha.
    + intros w Hw. apply list_elem_of_singleton in Hw as ->. apply rtc_refl.
    + done.
    + done.
  - intros p comp Hp.
    destruct (decide (p < length done)%nat) as [Hlt|Hge].
    + rewrite lookup_app_l in Hp by done. rewrite take_app_le by lia. by apply Hdone.
    + apply lookup_lt_Some in Hp as Hp'. rewrite length_app in Hp'. cbn in Hp'.
      assert (p = length done) as -> by lia.
      rewrite list_lookup_middle in Hp by done. injection Hp as <-.
      rewrite take_app_length. by apply (component_of_finished done cur [] s).
Qed.

Lemma components_loop fuel done cur q s :
  components_inv set_iter m n done cur q s ->
  (n - length (concat done ++ cur) <= fuel)%nat ->
  exists done' cur' q' s',
    while_ fuel (fun s => negb (bool_decide (not_visited s = ∅)))
      (fun s =>
         s' ← while_ (bfs_fuel s) (fun s => negb (bool_decide (queue s = [])))
                (visit_next m n) s;
         start_component set_iter s')
      (search_state n done cur q)
    = Ok (search_state n done' cur' q')
    /\ components_inv set_iter m n done' cur' q' s'
    /\ forall x, (x < n)%nat -> x ∈ concat done' ++ cur'.
Proof using Hm Hiter.
  revert done cur q s. induction fuel as [|fuel IH]; intros done cur q s Inv Hfuel.
  all: destruct Inv as (I & Hs & Hdone).
  all: pose proof (size_not_visited _ n (inv_nodup _ _ _ _ _ _ I) (inv_bound _ _ _ _ _ _ I)) as Hsize.
  all: destruct (decide (not_visited (search_state n done cur q) = ∅)) as [He|Hne].
  1,3: exists done, cur, q, s; split; [|split; [done|by apply not_visited_empty]].
  1,2: cbn [while_]; by rewrite bool_decide_eq_true_2.
  - exfalso. apply Hne. apply leibniz_equiv, size_empty_iff.
    cbn [not_visited search_state]. rewrite Hsize. lia.
  - cbn [while_]. rewrite bool_decide_eq_false_2 by done. cbn [negb].
    destruct (search_inner_loop m n Hm (bfs_fuel (search_state n done cur q)) done cur q s I)
      as (cur' & Hrun & I' & Hlen).
    { unfold bfs_fuel. cbn [queue not_visited search_state]. rewrite Hsize. lia. }
    rewrite Hrun. cbn [mbind res_bind].
    assert (Inv' : components_inv set_iter m n done cur' [] s) by done.
    destruct (decide (not_visited (search_state n done cur' []) = ∅)) as [He'|Hne'].
    + cbn [not_visited search_state] in He'.
      pose proof (proj1 (not_visited_empty _ _) He') as Hall.
      rewrite start_component_none by done. cbn [mbind res_bind].
      apply (IH done cur' [] s Inv').
      pose proof (size_not_visited _ n (inv_nodup _ _ _ _ _ _ I') (inv_bound _ _ _ _ _ _ I')) as Hsize'.
      rewrite He', size_empty in Hsize'. lia.
    + destruct (start_component_next set_iter n done cur' Hiter) as (v & Hv & Hvn & Hvl & Hstart).
      { intros Hall. apply Hne'. by apply not_visited_empty. }
      rewrite Hstart. cbn [mbind res_bind].
      apply (IH (done ++ [cur']) [v] [v] v).
      * by apply (components_inv_next done cur' s v).
      * rewrite concat_app, (concat_cons cur' []), concat_nil, app_nil_r.
        rewrite !length_app in *. cbn [length]. lia.
Qed.

End Components.

(** *** The result of find_components *)

Lemma find_components_init n :
  {| components := 1; queue := [0%nat]; visited := {[0%nat]};
     not_visited := list_to_set (seq 1 (n - 1));
     comp_dict := [(1%nat, [0%nat])] |}
  = search_state n [] [0%nat] [0%nat].
Proof.
  unfold search_state. apply bfs_state_eq; [done|done|done| |done].
  apply set_eq. intros x. cbn [concat app].
  rewrite elem_of_difference, !elem_of_list_to_set, !elem_of_seq, list_elem_of_singleton.
  lia.
Qed.

Lemma components_inv_init set_iter m n :
  (1 <= n)%nat -> components_inv set_iter m n [] [0%nat] [0%nat] 0%nat.
Proof.
  intros Hn. split; [|split; [done|]].
  - split; cbn [concat app].
    + apply NoDup_singleton.
    + by apply Forall_singleton.
    + intros a b Ha. by apply elem_of_nil in Ha.
    + exists []. split; [done|]. intros a b Ha. by apply elem_of_nil in Ha.
    + intros v Hv. apply list_elem_of_singleton in Hv as ->. apply rtc_refl.
    + done.
    + done.
  - intros p comp Hp. by rewrite lookup_nil in Hp.
Qed.

Lemma find_components_components set_iter m n :
  (1 <= n)%nat -> square n m -> iterates set_iter ->
  exists comps,
    find_components set_iter m = Ok (labelled comps)
    /\ concat comps ≡ₚ seq 0 n
    /\ forall p comp, comps !! p = Some comp ->
         component_of set_iter m n (take p comps) comp.
Proof.
  intros Hn Hm Hiter. unfold find_components.
  destruct Hm as [Hlen Hrows]. rewrite Hlen. assert (Hm : square n m) by done.
  rewrite find_components_init.
  destruct (components_loop set_iter Hiter m n Hm
              (size (not_visited (search_state n [] [0%nat] [0%nat])))
              [] [0%nat] [0%nat] 0%nat (components_inv_init set_iter m n Hn))
    as (done & cur & q & s & Hrun & (I & Hs & Hdone) & Hall).
  { cbn [not_visited search_state].
    rewrite size_not_visited; [done|apply NoDup_singleton|by apply Forall_singleton]. }
  rewrite Hrun. cbn [mbind res_bind comp_dict search_state].
  exists (done ++ [cur]). split; [done|].
  assert (Ecat : concat (done ++ [cur]) = concat done ++ cur).
  { by rewrite concat_app, (concat_cons cur []), concat_nil, app_nil_r. }
  split.
  - rewrite Ecat. apply NoDup_Permutation; [apply I|apply NoDup_seq|].
    intros x. rewrite elem_of_seq. split.
    + intros Hx. pose proof (inv_bound _ _ _ _ _ _ I) as Hbd.
      rewrite Forall_forall in Hbd. specialize (Hbd x Hx). lia.
    + intros Hx. apply Hall. lia.
  - intros p comp Hp.
    destruct (decide (p < length done)%nat) as [Hlt|Hge].
    + rewrite lookup_app_l in Hp by done. rewrite take_app_le by lia. by apply Hdone.
    + apply lookup_lt_Some in Hp as Hp'. rewrite length_app in Hp'. cbn in Hp'.
      assert (p = length done) as -> by lia.
      rewrite list_lookup_middle in Hp by done. injection Hp as <-.
      rewrite take_app_length.
      apply (component_of_finished set_iter m n Hm done cur q s); [done| |done].
      by right.
Qed.

(** The result depends on the iteration only through the lists it yields. *)
Lemma while_ext {S} fuel (cond : S -> bool) (body body' : S -> res S) s :
  (forall s, body s = body' s) -> while_ fuel cond body s = while_ fuel cond body' s.
Proof.
  intros H. revert s. induction fuel as [|fuel IH]; intros s; [done|].
  cbn [while_]. destruct (cond s); [|done]. rewrite H.
  destruct (body' s); cbn [mbind res_bind]; [apply IH|done|done].
Qed.

Lemma find_components_ext set_iter set_iter' m :
  (forall s, set_iter s = set_iter' s) ->
  find_components set_iter m = find_components set_iter' m.
Proof.
  intros H. unfold find_components. f_equal. apply while_ext. intros s.
  destruct (while_ _ _ _ s); cbn [mbind res_bind]; [|done|done].
  unfold start_component. by rewrite H.
Qed.

Lemma ascending_unique set_iter set_iter' :
  iterates set_iter -> ascending set_iter -> iterates set_iter' -> ascending set_iter' ->
  forall s, set_iter s = set_iter' s.
Proof.
  intros H1 H2 H3 H4 s. apply (StronglySorted_unique le); [apply H2|apply H4|].
  by rewrite (H1 s), (H3 s).
Qed.

Lemma ascending_head set_iter (U : gset nat) s v :
  iterates set_iter -> ascending set_iter ->
  head (set_iter U) = Some s -> v ∈ U -> (s <= v)%nat.
Proof.
  intros H1 H2 Hs Hv. apply elem_of_elements in Hv. rewrite <- (H1 U) in Hv.
  specialize (H2 U). destruct (set_iter U) as [|x l]; [done|].
  injection Hs as ->. apply StronglySorted_inv in H2 as [_ Hl].
  apply elem_of_cons in Hv as [->|Hv]; [done|].
  rewrite Forall_forall in Hl. by apply Hl.
Qed.

Lemma iterates_increasing : iterates increasing.
Proof. intros s. apply merge_sort_Permutation. Qed.

Lemma ascending_increasing : ascending increasing.
Proof. intros s. apply (StronglySorted_merge_sort le). Qed.

(** C5.  For a square matrix of dimension n >= 1, and a set iteration that
    yields the vertices in increasing order, as CPython's does on the sets
    of small integers that [find_components] builds: the function returns
    the dict that maps the labels 1, 2, ... in this order to lists that
    split {0, ..., n-1}.  Component 1 starts at vertex 0 and every later
    component at the smallest vertex that is not yet visited; each component
    is the discovery order of a breadth-first search from its start over the
    undirected edges, and holds exactly the vertices joined to the start.
    The dict is a function of the matrix alone. *)
Theorem find_components_spec set_iter m n :
  (1 <= n)%nat -> square n m -> iterates set_iter -> ascending set_iter ->
  exists comps,
    find_components set_iter m = Ok (labelled comps)
    /\ concat comps ≡ₚ seq 0 n
    /\ (forall p comp, comps !! p = Some comp ->
        exists s, head comp = Some s
          /\ (p = 0%nat -> s = 0%nat)
          /\ s ∈ unvisited n (take p comps)
          /\ (forall v, v ∈ unvisited n (take p comps) -> (s <= v)%nat)
          /\ bfs_order m n s comp
          /\ forall v, v ∈ comp <-> (v < n)%nat /\ connected m n s v)
    /\ (forall set_iter', iterates set_iter' -> ascending set_iter' ->
          find_components set_iter' m = Ok (labelled comps)).
Proof.
  intros Hn Hm Hiter Hasc.
  destruct (find_components_components set_iter m n Hn Hm Hiter) as (comps & Hrun & Hperm & Hcomp).
  exists comps. split; [done|]. split; [done|]. split.
  - intros p comp Hp.
    destruct (Hcomp p comp Hp) as (s & Hstart & Hs & Hbfs & Hmem).
    exists s. split; [done|].
    unfold start_of in Hstart. destruct (take p comps) as [|c l] eqn:E.
    + injection Hstart as <-. split; [done|]. split; [|split; [|done]].
      * unfold unvisited. cbn [concat]. rewrite elem_of_difference, elem_of_list_to_set.
        split; [apply elem_of_seq; lia|]. rewrite elem_of_list_to_set. apply not_elem_of_nil.
      * intros v _. lia.
    + split.
      { intros ->. by rewrite take_0 in E. }
      split; [|split; [|done]].
      * apply elem_of_elements. rewrite <- (Hiter (unvisited n (c :: l))).
        destruct (set_iter (unvisited n (c :: l))) as [|x xs]; [done|].
        injection Hstart as ->. by left.
      * intros v Hv. by apply (ascending_head set_iter (unvisited n (c :: l))).
  - intros set_iter' Hiter' Hasc'. rewrite <- Hrun. apply find_components_ext.
    intros s. by apply ascending_unique.
Qed.

Lemma find_components_spec_witness :
  exists comps,
    find_components increasing [[0; 0; 1]; [0; 0; 0]; [0; 0; 0]]%float = Ok (labelled comps)
    /\ concat comps ≡ₚ seq 0 3.
Proof.
  destruct (find_components_spec increasing [[0; 0; 1]; [0; 0; 0]; [0; 0; 0]]%float 3)
    as (comps & H1 & H2 & _).
  - lia.
  - split; [reflexivity|]. repeat constructor.
  - exact iterates_increasing.
  - exact ascending_increasing.
  - exists comps. split; assumption.
Defined.

(** The matrix with no rows is outside the theorem: the function lists
    vertex 0 before it looks at the dimension. *)
Lemma find_components_no_rows :
  find_components increasing [] = Ok (labelled [[0%nat]]).
Proof. by vm_compute. Qed.

(** ** split_migration, then reassemble_matrix *)

Lemma connected_sym m n a b : connected m n a b -> connected m n b a.
Proof.
  unfold connected. intros H. induction H as [|x y z Hxy Hyz IH]; [apply rtc_refl|].
  eapply rtc_r; [exact IH|]. destruct Hxy as (Hx & Hy & Hadj).
  repeat split; try done. by rewrite adjacent_sym.
Qed.

(** A graph with one component has one list in the result, which lists every
    vertex once. *)
Lemma find_components_single set_iter m n :
  square n m -> iterates set_iter -> single_component m n ->
  exists comp, find_components set_iter m = Ok [(1%nat, comp)] /\ comp ≡ₚ seq 0 n.
Proof.
  intros Hm Hiter (s & Hs & Hconn).
  destruct (find_components_components set_iter m n ltac:(lia) Hm Hiter)
    as (comps & Hrun & Hperm & Hcomp).
  assert (Hnd : NoDup (concat comps)) by (rewrite Hperm; apply NoDup_seq).
  assert (H0 : forall v, (v < n)%nat -> connected m n 0%nat v).
  { intros v Hv. unfold connected. etrans.
    - apply connected_sym, (Hconn 0%nat). lia.
    - by apply Hconn. }
  destruct comps as [|c0 comps].
  { apply Permutation_length in Hperm. rewrite length_seq in Hperm. cbn in Hperm. lia. }
  destruct (Hcomp 0%nat c0 eq_refl) as (s0 & Hs0 & _ & _ & Hmem0).
  cbn in Hs0. injection Hs0 as <-.
  destruct comps as [|c1 comps].
  { exists c0. split; [done|]. cbn [concat] in Hperm. by rewrite app_nil_r in Hperm. }
  exfalso.
  destruct (Hcomp 1%nat c1 eq_refl) as (s1 & _ & Hh1 & _ & Hmem1).
  assert (Hs1 : s1 ∈ c1).
  { destruct c1 as [|x c1]; [done|]. injection Hh1 as ->. left. }
  assert (Hs1n : (s1 < n)%nat) by by apply Hmem1.
  assert (Hs10 : s1 ∈ c0) by (apply Hmem0; split; [done|by apply H0]).
  assert (E : 0%nat = 1%nat); [|done].
  by apply (component_unique (c0 :: c1 :: comps) 0%nat 1%nat c0 c1 s1).
Qed.

Lemma np_ix_get_ok (m : matrix) n rows cols :
  square n m -> Forall (fun v => (v < n)%nat) rows -> Forall (fun v => (v < n)%nat) cols ->
  np_ix_get m rows cols = Ok ((fun r => (fun c => entry m r c) <$> cols) <$> rows).
Proof.
  intros Hm Hr Hc. unfold np_ix_get. apply map_res_ok. intros r Hrin.
  apply map_res_ok. intros c Hcin. rewrite Forall_forall in Hr, Hc.
  apply (getitem2_ok m n); auto.
Qed.

Lemma writes_square ws n x :
  square n (foldl write (replicate n (replicate n x)) ws).
Proof.
  destruct (writes_shape ws (replicate n (replicate n x))) as [H1 H2].
  rewrite length_replicate in H1. split; [done|].
  apply Forall_lookup. intros i row Hi.
  apply lookup_lt_Some in Hi as Hlt. rewrite H1 in Hlt.
  apply list_lookup_total_correct in Hi. rewrite <- Hi, H2.
  rewrite (list_lookup_total_correct _ i (replicate n x)) by by apply lookup_replicate_2.
  apply length_replicate.
Qed.

Lemma square_ext n (a b : matrix) :
  square n a -> square n b ->
  (forall i j, (i < n)%nat -> (j < n)%nat -> entry a i j = entry b i j) -> a = b.
Proof.
  intros Ha Hb H. rewrite (square_eta n a Ha), (square_eta n b Hb).
  apply list_fmap_ext. intros i k Hi. apply lookup_seq in Hi as [-> Hi].
  apply list_fmap_ext. intros j k Hj. apply lookup_seq in Hj as [-> Hj].
  apply H; lia.
Qed.

(** Writing, at the positions that a list of all the vertices names, the
    entries read at those positions gives the matrix back. *)
Lemma block_round_trip (m : matrix) n comp x :
  square n m -> comp ≡ₚ seq 0 n ->
  foldl write (replicate n (replicate n x))
    (block_writes comp ((fun r => (fun c => entry m r c) <$> comp) <$> comp))
  = m.
Proof.
  intros Hm Hperm.
  set (sub := (fun r => (fun c => entry m r c) <$> comp) <$> comp).
  assert (Hlen : length comp = n) by (by rewrite Hperm, length_seq).
  assert (Hsub : square (length comp) sub).
  { unfold sub. split; [by rewrite length_fmap|].
    apply Forall_fmap, Forall_forall. intros r _. cbn. by rewrite length_fmap. }
  assert (Hnd : NoDup (block_writes comp sub).*1).
  { pose proof (all_writes_NoDup [comp] [sub]) as H. unfold all_writes in H.
    cbn in H. rewrite !app_nil_r in H. apply H. rewrite Hperm. apply NoDup_seq. }
  apply (square_ext n); [apply writes_square|done|].
  intros i j Hi Hj.
  assert (Hiin : i ∈ comp) by (rewrite Hperm; apply elem_of_seq; lia).
  assert (Hjin : j ∈ comp) by (rewrite Hperm; apply elem_of_seq; lia).
  apply list_elem_of_lookup in Hiin as [a Ha]. apply list_elem_of_lookup in Hjin as [b Hb].
  apply lookup_lt_Some in Ha as Halt. apply lookup_lt_Some in Hb as Hblt.
  rewrite (writes_hit _ _ i j (stretched_entry sub a b)).
  - rewrite (stretched_entry_square (length comp)) by done.
    unfold entry at 1. unfold sub.
    rewrite (list_lookup_total_correct _ a ((fun c => entry m i c) <$> comp)).
    2:{ by rewrite list_lookup_fmap, Ha. }
    apply list_lookup_total_correct. by rewrite list_lookup_fmap, Hb.
  - done.
  - apply elem_of_block_writes. by exists a, b.
  - by rewrite length_replicate.
  - rewrite (list_lookup_total_correct _ i (replicate n x)) by by apply lookup_replicate_2.
    by rewrite length_replicate.
Qed.

Lemma round_trip_single set_iter (m : matrix) n comp which :
  square n m -> comp ≡ₚ seq 0 n ->
  find_components set_iter m = Ok [(1%nat, comp)] ->
  round_trip set_iter m which = Ok m.
Proof.
  intros Hm Hperm Hrun. unfold round_trip, split_migration. rewrite Hrun.
  cbn [fmap res_fmap mbind res_bind list_fmap snd].
  assert (Hb : Forall (fun v => (v < n)%nat) comp).
  { apply Forall_forall. intros v Hv. rewrite Hperm in Hv. apply elem_of_seq in Hv. lia. }
  unfold split_migration_matrix. cbn [map_res].
  rewrite (np_ix_get_ok m n) by done. cbn [mbind res_bind fst snd].
  set (sub := (fun r => (fun c => entry m r c) <$> comp) <$> comp).
  assert (Hlen : length comp = n) by (by rewrite Hperm, length_seq).
  unfold reassemble_matrix. cbn [list_fmap fmap foldl zip_with for_].
  rewrite Nat.add_0_l, Hlen.
  rewrite np_ix_set_ok.
  - cbn [mbind res_bind fst snd]. f_equal. by apply block_round_trip.
  - cbn [fst]. by rewrite length_replicate.
  - cbn [fst snd]. unfold sub. split; [by rewrite length_fmap|].
    apply Forall_fmap, Forall_forall. intros r _. cbn. by rewrite length_fmap.
Qed.

(** C6.  For a square matrix whose undirected graph has one component,
    [split_migration] followed by [reassemble_matrix] on the sub-matrices and
    component lists returns the matrix itself, whatever [which] is. *)
Theorem split_reassemble_round_trip set_iter (m : matrix) n which :
  square n m -> iterates set_iter -> single_component m n ->
  round_trip set_iter m which = Ok m.
Proof.
  intros Hm Hiter Hone.
  destruct (find_components_single set_iter m n Hm Hiter Hone) as (comp & Hrun & Hperm).
  by apply (round_trip_single set_iter m n comp).
Qed.

Lemma split_reassemble_round_trip_witness :
  round_trip increasing [[0; 0; 1]; [0; 0; 0]; [0; 2; 0]]%float "fst"
    = Ok [[0; 0; 1]; [0; 0; 0]; [0; 2; 0]]%float
  /\ round_trip increasing [[0; 0; 1]; [0; 0; 0]; [0; 2; 0]]%float "coalescence"
    = Ok [[0; 0; 1]; [0; 0; 0]; [0; 2; 0]]%float.
Proof.
  assert (Hm : square 3 [[0; 0; 1]; [0; 0; 0]; [0; 2; 0]]%float).
  { split; [reflexivity|]. repeat constructor. }
  assert (Hone : single_component [[0; 0; 1]; [0; 0; 0]; [0; 2; 0]]%float 3).
  { exists 2%nat. split; [lia|]. intros v Hv.
    destruct v as [|[|[|v]]]; [| |apply rtc_refl|lia].
    - apply rtc_once. split; [lia|split; [lia|reflexivity]].
    - apply rtc_once. split; [lia|split; [lia|reflexivity]]. }
  split; apply (split_reassemble_round_trip increasing _ 3); try done.
  all: exact iterates_increasing.
Defined.

(** * Further properties of the code *)

(** ** comb *)

(** X1.  For 0 <= k <= n, n below 2^63 (the arguments that
    [math.factorial] takes) and C(n,k) below 2^53, [comb n k] is the
    binomial coefficient itself: the float quotient of the factorials is
    exact. *)
Theorem comb_below_2_53 (n k : Z) :
  0 <= k <= n -> n < 2 ^ 63 -> binomial n k < 2 ^ 53 ->
  comb n k = Ok (binomial n k)
  /\ fact_Z (Z.to_nat n)
     = binomial n k * (fact_Z (Z.to_nat k) * fact_Z (Z.to_nat (n - k))).
Proof.
  intros H Hn Hb. split; [by apply comb_exact|]. by apply binomial_spec.
Qed.

Lemma comb_below_2_53_witness :
  comb 10 3 = Ok (binomial 10 3)
  /\ fact_Z (Z.to_nat 10)
     = binomial 10 3 * (fact_Z (Z.to_nat 3) * fact_Z (Z.to_nat (10 - 3))).
Proof. apply comb_below_2_53; [lia|lia|by vm_compute]. Defined.

(** X2.  For 0 <= k <= n, [comb n k] and [comb n (n - k)] are the same
    outcome, also where the quotient is rounded or too large for a float. *)
Theorem comb_symmetric (n k : Z) : 0 <= k <= n -> comb n (n - k) = comb n k.
Proof. intros H. symmetry. by apply comb_sym. Qed.

Lemma comb_symmetric_witness : comb 57 (57 - 25) = comb 57 25.
Proof. apply comb_symmetric. lia. Defined.

(** X3.  [comb n k] takes the factorials of n, k and n - k in this order,
    and the first that fails decides: ValueError when n is negative, or when
    n is below 2^63 and k is negative or k is above n and below 2^63;
    OverflowError when n is 2^63 or more, or n is not negative and k is 2^63
    or more. *)
Theorem comb_out_of_range (n k : Z) :
  (n < 0 \/ (n < 2 ^ 63 /\ (k < 0 \/ n < k < 2 ^ 63)) -> comb n k = Raise ValueError)
  /\ (2 ^ 63 <= n \/ (0 <= n /\ 2 ^ 63 <= k) -> comb n k = Raise OverflowError).
Proof.
  unfold comb. split.
  - intros [Hn|[Hn [Hk|Hk]]].
    + rewrite (factorial_negative n) by lia. reflexivity.
    + destruct (Z.lt_ge_cases n 0); [rewrite (factorial_negative n) by lia; reflexivity|].
      rewrite (factorial_ok n), (factorial_negative k) by lia. reflexivity.
    + destruct (Z.lt_ge_cases n 0); [rewrite (factorial_negative n) by lia; reflexivity|].
      rewrite (factorial_ok n), (factorial_ok k), (factorial_negative (n - k)) by lia.
      reflexivity.
  - intros [Hn|[Hn Hk]].
    + rewrite (factorial_too_large n) by lia. reflexivity.
    + destruct (Z.lt_ge_cases n (2 ^ 63));
        [|rewrite (factorial_too_large n) by lia; reflexivity].
      rewrite (factorial_ok n), (factorial_too_large k) by lia. reflexivity.
Qed.

Lemma comb_out_of_range_witness :
  comb 1 2 = Raise ValueError /\ comb 1 (2 ^ 63) = Raise OverflowError.
Proof.
  split.
  - apply (proj1 (comb_out_of_range 1 2)). lia.
  - apply (proj2 (comb_out_of_range 1 (2 ^ 63))). lia.
Defined.

(** ** compute_coalescence *)

(** X4.  With fewer than two populations [compute_coalescence] raises
    ValueError, whatever t and f are: [comb n 2] takes the factorial of
    n - 2. *)
Theorem compute_coalescence_one_population (t f : vector) (n : nat) :
  (n <= 1)%nat -> compute_coalescence t f n = Raise ValueError.
Proof.
  intros Hn. unfold compute_coalescence, compute_coalescence_with.
  assert (E : comb (Z.of_nat n) 2 = Raise ValueError).
  { unfold comb.
    rewrite (factorial_ok (Z.of_nat n)), (factorial_ok 2), factorial_negative by lia.
    reflexivity. }
  rewrite E. reflexivity.
Qed.

Lemma compute_coalescence_one_population_witness :
  compute_coalescence [1]%float [] 1 = Raise ValueError.
Proof. apply compute_coalescence_one_population. lia. Defined.

(** ** f_to_m *)

(** X5.  For u and f of length n^2, for every sum [sum] of numpy and every
    dot product [dot] of BLAS, the equations of population i start at
    position i(i+1)/2 of the list whose norm [f_to_m] returns, and the first
    of them is the self equation of i:
    (1 + M_i) T(i,i) - 0.5 sum_{k <> i} M(i,k)(T(k,k) + T(i,i))(1 + f(i,k))/(1 - f(i,k)) - 1,
    where M_i is [sum] of the rates M(i,k), k <> i, and the sum over k is
    [dot] of the rates and their weights. *)
Theorem f_to_m_self_equation (sum : vector -> float) (dot : vector -> vector -> float)
    (u f : vector) (n i : nat) :
  length u = (n ^ 2)%nat -> length f = (n ^ 2)%nat -> (i < n)%nat ->
  exists eqs,
    f_to_m_equations sum dot u f n = Ok eqs
    /\ f_to_m sum dot u f n = Ok (PrimFloat.sqrt (dot eqs eqs))
    /\ eqs !! (i * (i + 1) / 2)%nat
       = Some ((1 + sum (migration u n i <$> others n i)) * diag_time u n i
               - 0.5 * dot (migration u n i <$> others n i)
                           ((fun k => (diag_time u n k + diag_time u n i)
                                      * slatkin_ratio (fst_entry f n i k))
                              <$> others n i)
               - 1)%float.
Proof.
  intros Hu Hf Hi. exists (joint_equations sum dot u f n).
  pose proof (f_to_m_equations_ok sum dot u f n Hu Hf) as Heq.
  split; [exact Heq|]. split; [unfold f_to_m; by rewrite Heq|].
  unfold joint_equations.
  replace (i * (i + 1) / 2)%nat with (i * (i + 1) / 2 + 0)%nat by lia.
  rewrite joint_block_lookup; [reflexivity| |lia|lia].
  intros k. cbn [length]. by rewrite length_fmap, length_seq.
Qed.

Lemma f_to_m_self_equation_witness :
  exists eqs,
    f_to_m_equations np_sum blas_seq [1; 1; 1; 1]%float [0; 0; 0; 0]%float 2 = Ok eqs
    /\ eqs !! 1%nat = Some 0%float.
Proof.
  destruct (f_to_m_self_equation np_sum blas_seq [1; 1; 1; 1]%float [0; 0; 0; 0]%float 2 1)
    as (eqs & H1 & _ & H2).
  - reflexivity.
  - reflexivity.
  - lia.
  - exists eqs. split; [exact H1|].
    change 1%nat with (1 * (1 + 1) / 2)%nat. rewrite H2. vm_compute. reflexivity.
Defined.

(** ** find_components, split_migration and reassemble_matrix together *)

Lemma labelled_values comps : (labelled comps).*2 = comps.
Proof. unfold labelled. apply snd_zip. by rewrite length_seq. Qed.

Lemma connected_trans m n a b c :
  connected m n a b -> connected m n b c -> connected m n a c.
Proof. unfold connected. intros H1 H2. by etrans. Qed.

(** A component holds, with each of its vertices, the vertices joined to
    it. *)
Lemma component_of_members set_iter m n earlier comp u v :
  component_of set_iter m n earlier comp -> u ∈ comp ->
  v ∈ comp <-> (v < n)%nat /\ connected m n u v.
Proof.
  intros (s & _ & _ & _ & Hmem) Hu.
  apply Hmem in Hu as [Hun Hsu]. rewrite Hmem. split.
  - intros [Hv Hsv]. split; [done|].
    apply (connected_trans m n u s v); [by apply connected_sym|done].
  - intros [Hv Huv]. split; [done|]. by apply (connected_trans m n s u v).
Qed.

Lemma component_of_nonempty set_iter m n earlier comp :
  component_of set_iter m n earlier comp -> comp <> [].
Proof. intros (s & _ & Hh & _) ->. done. Qed.

Lemma concat_length_nonempty {A} (ls : list (list A)) :
  Forall (fun l => l <> []) ls -> (length ls <= length (concat ls))%nat.
Proof.
  induction 1 as [|l ls Hl _ IH]; [done|].
  cbn [concat length]. rewrite length_app. destruct l; [done|]. cbn [length]. lia.
Qed.

(** X6.  For a square matrix of dimension n >= 1, the lists that
    [find_components] returns are the connected components of the graph:
    none is empty, there are at most n, and two vertices stand in one list
    exactly when a path of edges joins them. *)
Theorem find_components_connected set_iter (m : matrix) (n : nat) :
  (1 <= n)%nat -> square n m -> iterates set_iter ->
  exists comps,
    find_components set_iter m = Ok (labelled comps)
    /\ Forall (fun comp => comp <> []) comps
    /\ (length comps <= n)%nat
    /\ forall u v, (u < n)%nat -> (v < n)%nat ->
         (exists comp, comp ∈ comps /\ u ∈ comp /\ v ∈ comp) <-> connected m n u v.
Proof.
  intros Hn Hm Hiter.
  destruct (find_components_components set_iter m n Hn Hm Hiter)
    as (comps & Hrun & Hperm & Hcomp).
  exists comps. split; [done|].
  assert (Hne : Forall (fun comp => comp <> []) comps).
  { apply Forall_lookup. intros p comp Hp.
    by apply (component_of_nonempty set_iter m n (take p comps)), Hcomp. }
  split; [done|]. split.
  { pose proof (concat_length_nonempty comps Hne) as H.
    by rewrite Hperm, length_seq in H. }
  intros u v Hu Hv. split.
  - intros (comp & Hin & Huc & Hvc). apply list_elem_of_lookup in Hin as [p Hp].
    by apply (component_of_members set_iter m n (take p comps) comp u v (Hcomp p comp Hp)).
  - intros Huv.
    assert (Hin : u ∈ concat comps) by (rewrite Hperm; apply elem_of_seq; lia).
    apply elem_of_concat in Hin as (comp & Hin & Huc). exists comp.
    split; [done|]. split; [done|].
    apply list_elem_of_lookup in Hin as [p Hp].
    by apply (component_of_members set_iter m n (take p comps) comp u v (Hcomp p comp Hp)).
Qed.

Lemma find_components_connected_witness :
  exists comps,
    find_components increasing [[0; 0; 1]; [0; 0; 0]; [0; 0; 0]]%float = Ok (labelled comps)
    /\ (length comps <= 3)%nat.
Proof.
  destruct (find_components_connected increasing [[0; 0; 1]; [0; 0; 0]; [0; 0; 0]]%float 3)
    as (comps & H1 & _ & H2 & _).
  - lia.
  - split; [reflexivity|]. repeat constructor.
  - exact iterates_increasing.
  - exists comps. split; assumption.
Defined.

(** *** split_migration *)

Lemma entry_restriction (m : matrix) comp a b r c :
  comp !! a = Some r -> comp !! b = Some c ->
  entry (restriction m comp) a b = entry m r c.
Proof.
  intros Ha Hb. unfold entry at 1. unfold restriction.
  rewrite (list_lookup_total_correct _ a ((fun c => entry m r c) <$> comp)).
  2:{ by rewrite list_lookup_fmap, Ha. }
  apply list_lookup_total_correct. by rewrite list_lookup_fmap, Hb.
Qed.

Lemma restriction_square (m : matrix) comp : square (length comp) (restriction m comp).
Proof.
  unfold restriction. split; [by rewrite length_fmap|].
  apply Forall_fmap, Forall_forall. intros r _. cbn. by rewrite length_fmap.
Qed.

Lemma split_migration_matrix_ok (m : matrix) n comps :
  square n m -> Forall (Forall (fun v => (v < n)%nat)) comps ->
  split_migration_matrix m comps = Ok (restriction m <$> comps).
Proof.
  intros Hm Hb. unfold split_migration_matrix. apply map_res_ok.
  intros comp Hin. rewrite Forall_forall in Hb.
  apply (np_ix_get_ok m n); [done|by apply Hb|by apply Hb].
Qed.

Lemma partition_bound (comps : list (list nat)) n :
  concat comps ≡ₚ seq 0 n -> Forall (Forall (fun v => (v < n)%nat)) comps.
Proof.
  intros Hperm. apply Forall_forall. intros comp Hin.
  apply Forall_forall. intros v Hv.
  assert (H : v ∈ concat comps) by (apply elem_of_concat; by exists comp).
  rewrite Hperm in H. apply elem_of_seq in H. lia.
Qed.

Lemma split_migration_ok set_iter (m : matrix) n :
  (1 <= n)%nat -> square n m -> iterates set_iter ->
  exists comps,
    split_migration set_iter m = Ok (restriction m <$> comps, comps)
    /\ concat comps ≡ₚ seq 0 n
    /\ forall p comp, comps !! p = Some comp ->
         component_of set_iter m n (take p comps) comp.
Proof.
  intros Hn Hm Hiter.
  destruct (find_components_components set_iter m n Hn Hm Hiter)
    as (comps & Hrun & Hperm & Hcomp).
  exists comps. split; [|by split].
  unfold split_migration. rewrite Hrun.
  cbn [fmap res_fmap mbind res_bind]. rewrite labelled_values.
  rewrite (split_migration_matrix_ok m n) by (done || by apply partition_bound).
  reflexivity.
Qed.

Lemma restriction_matching (m : matrix) comps n :
  concat comps ≡ₚ seq 0 n -> matching (restriction m <$> comps) comps.
Proof.
  intros Hperm. split.
  - by rewrite Hperm, length_seq.
  - apply Forall2_fmap_r, Forall_Forall2_diag, Forall_forall.
    intros comp _. apply restriction_square.
Qed.

(** X7.  For a square matrix of dimension n >= 1, [split_migration] returns
    component lists that split {0, ..., n-1} and, for each of them, the
    sub-matrix of its rows and columns, in the order of the list; the two
    results satisfy what [reassemble_matrix] expects. *)
Theorem split_migration_spec set_iter (m : matrix) (n : nat) :
  (1 <= n)%nat -> square n m -> iterates set_iter ->
  exists subs comps,
    split_migration set_iter m = Ok (subs, comps)
    /\ concat comps ≡ₚ seq 0 n
    /\ matching subs comps
    /\ forall p comp a b r c,
         comps !! p = Some comp -> comp !! a = Some r -> comp !! b = Some c ->
         entry (subs !!! p) a b = entry m r c.
Proof.
  intros Hn Hm Hiter.
  destruct (split_migration_ok set_iter m n Hn Hm Hiter) as (comps & Hrun & Hperm & _).
  exists (restriction m <$> comps), comps.
  split; [done|]. split; [done|]. split; [by apply (restriction_matching m comps n)|].
  intros p comp a b r c Hp Ha Hb.
  rewrite (list_lookup_total_correct _ p (restriction m comp)).
  2:{ by rewrite list_lookup_fmap, Hp. }
  by apply entry_restriction.
Qed.

Lemma split_migration_spec_witness :
  exists subs comps,
    split_migration increasing [[0; 0; 1]; [0; 0; 0]; [0; 0; 0]]%float = Ok (subs, comps)
    /\ matching subs comps.
Proof.
  destruct (split_migration_spec increasing [[0; 0; 1]; [0; 0; 0]; [0; 0; 0]]%float 3)
    as (subs & comps & H1 & _ & H2 & _).
  - lia.
  - split; [reflexivity|]. repeat constructor.
  - exact iterates_increasing.
  - exists subs, comps. split; assumption.
Defined.

(** *** reassemble_matrix on matching arguments *)

Lemma reassemble_matching (subs : list matrix) (comps : list (list nat)) (which : string) :
  matching subs comps ->
  exists R,
    reassemble_matrix subs comps which = Ok R
    /\ square (length (concat comps)) R
    /\ forall p q cp cq a b r c,
         comps !! p = Some cp -> comps !! q = Some cq ->
         cp !! a = Some r -> cq !! b = Some c ->
         entry R r c = if decide (p = q) then entry (subs !!! p) a b
                       else fill_value which.
Proof.
  intros [Hperm Hshapes].
  set (N := length (concat comps)) in *.
  assert (Hnd : NoDup (concat comps)) by (rewrite Hperm; apply NoDup_seq).
  assert (Hlt : forall v, v ∈ concat comps -> (v < N)%nat).
  { intros v Hv. rewrite Hperm in Hv. apply elem_of_seq in Hv. lia. }
  unfold reassemble_matrix. rewrite num_nodes_eq. fold N. fold (fill_value which).
  set (init := replicate N (replicate N (fill_value which))).
  assert (Hinit : length init = N) by apply length_replicate.
  rewrite reassemble_loop.
  2:{ apply Forall_forall. intros [cp sub] Hin. apply list_elem_of_lookup in Hin as [p Hp].
      apply lookup_zip_Some in Hp as [Hp1 Hp2]. cbn [fst snd]. split.
      - apply Forall_forall. intros v Hv. rewrite Hinit. apply Hlt, elem_of_concat.
        exists cp. split; [by eapply list_elem_of_lookup_2|done].
      - exact (Forall2_lookup_lr _ comps subs p cp sub Hshapes Hp1 Hp2). }
  fold (all_writes comps subs). eexists. split; [reflexivity|].
  split; [apply writes_square|].
  intros p q cp cq a b r c Hp Hq Ha Hb.
  assert (Hr : (r < N)%nat).
  { apply Hlt, elem_of_concat. exists cp.
    split; by eapply list_elem_of_lookup_2. }
  assert (Hc : (c < N)%nat).
  { apply Hlt, elem_of_concat. exists cq.
    split; by eapply list_elem_of_lookup_2. }
  destruct (decide (p = q)) as [<-|Hpq].
  - assert (cq = cp) as -> by congruence.
    destruct (Forall2_lookup_l _ _ _ _ _ Hshapes Hp) as (sub & Hsub & Hsq).
    rewrite (list_lookup_total_correct _ _ _ Hsub).
    rewrite <- (stretched_entry_square (length cp) sub a b)
      by (done || by eapply lookup_lt_Some).
    apply writes_hit.
    + by apply all_writes_NoDup.
    + apply elem_of_all_writes. by exists p, cp, sub, a, b.
    + by rewrite Hinit.
    + unfold init. rewrite (list_lookup_total_correct _ r (replicate N (fill_value which)))
        by by apply lookup_replicate_2.
      by rewrite length_replicate.
  - rewrite writes_miss; [by apply entry_fill|].
    intros Hin. apply all_writes_targets in Hin as (k & ck & Hk & Hrk & Hck).
    apply Hpq. transitivity k.
    + apply (component_unique comps p k cp ck r); try done.
      by eapply list_elem_of_lookup_2.
    + apply (component_unique comps k q ck cq c); try done.
      by eapply list_elem_of_lookup_2.
Qed.

(** X8.  For every square matrix of dimension n >= 1, [split_migration]
    followed by [reassemble_matrix] returns an n-by-n matrix that holds the
    entry of the matrix wherever a path of edges joins the row and the
    column, and the fill value, 1.0 for "fst" and +infinity otherwise,
    everywhere else. *)
Theorem split_reassemble_entries set_iter (m : matrix) (n : nat) (which : string) :
  (1 <= n)%nat -> square n m -> iterates set_iter ->
  exists R,
    round_trip set_iter m which = Ok R
    /\ square n R
    /\ forall r c, (r < n)%nat -> (c < n)%nat ->
         (connected m n r c -> entry R r c = entry m r c)
         /\ (~ connected m n r c -> entry R r c = fill_value which).
Proof.
  intros Hn Hm Hiter.
  destruct (split_migration_ok set_iter m n Hn Hm Hiter) as (comps & Hrun & Hperm & Hcomp).
  destruct (reassemble_matching (restriction m <$> comps) comps which
              (restriction_matching m comps n Hperm)) as (R & HR & Hsq & Hent).
  assert (Hlen : length (concat comps) = n) by (by rewrite Hperm, length_seq).
  assert (Hnd : NoDup (concat comps)) by (rewrite Hperm; apply NoDup_seq).
  rewrite Hlen in Hsq.
  exists R. split; [|split; [done|]].
  { unfold round_trip. rewrite Hrun. cbn [mbind res_bind fst snd]. exact HR. }
  intros r c Hr Hc.
  assert (Hrin : r ∈ concat comps) by (rewrite Hperm; apply elem_of_seq; lia).
  assert (Hcin : c ∈ concat comps) by (rewrite Hperm; apply elem_of_seq; lia).
  apply elem_of_concat in Hrin as (cp & Hcp & Hrcp).
  apply elem_of_concat in Hcin as (cq & Hcq & Hccq).
  apply list_elem_of_lookup in Hcp as [p Hp]. apply list_elem_of_lookup in Hcq as [q Hq].
  apply list_elem_of_lookup in Hrcp as Ha. destruct Ha as [a Ha].
  apply list_elem_of_lookup in Hccq as Hb. destruct Hb as [b Hb].
  assert (Hra : r ∈ cp) by by eapply list_elem_of_lookup_2.
  assert (Hcb : c ∈ cq) by by eapply list_elem_of_lookup_2.
  pose proof (Hent p q cp cq a b r c Hp Hq Ha Hb) as E.
  pose proof (component_of_members set_iter m n (take p comps) cp r c (Hcomp p cp Hp) Hra)
    as Hmem.
  split.
  - intros Hconn.
    assert (Hccp : c ∈ cp) by (apply Hmem; by split).
    assert (p = q) as <- by by apply (component_unique comps p q cp cq c).
    assert (cq = cp) as -> by congruence.
    rewrite decide_True in E by done. rewrite E.
    rewrite (list_lookup_total_correct _ p (restriction m cp)).
    2:{ by rewrite list_lookup_fmap, Hp. }
    by apply entry_restriction.
  - intros Hnot. rewrite decide_False in E; [done|].
    intros <-. assert (cq = cp) as -> by congruence.
    apply Hnot. by apply Hmem.
Qed.

Lemma split_reassemble_entries_witness :
  exists R,
    round_trip increasing [[0; 0; 1]; [0; 0; 0]; [0; 0; 0]]%float "fst" = Ok R
    /\ square 3 R.
Proof.
  destruct (split_reassemble_entries increasing [[0; 0; 1]; [0; 0; 0]; [0; 0; 0]]%float 3 "fst")
    as (R & H1 & H2 & _).
  - lia.
  - split; [reflexivity|]. repeat constructor.
  - exact iterates_increasing.
  - exists R. split; assumption.
Defined.

(** X9.  For sub-matrices and component lists that match, splitting the
    matrix that [reassemble_matrix] returns along the same component lists
    gives the sub-matrices back. *)
Theorem reassemble_split_round_trip (subs : list matrix) (comps : list (list nat))
    (which : string) :
  matching subs comps ->
  (R ← reassemble_matrix subs comps which; split_migration_matrix R comps) = Ok subs.
Proof.
  intros Hmatch.
  destruct (reassemble_matching subs comps which Hmatch) as (R & HR & Hsq & Hent).
  destruct Hmatch as [Hperm Hshapes].
  rewrite HR. cbn [mbind res_bind].
  rewrite (split_migration_matrix_ok R (length (concat comps))) by (done || by apply partition_bound).
  f_equal. apply list_eq_Forall2, Forall2_fmap_l.
  apply Forall2_same_length_lookup_2; [by eapply Forall2_length|].
  intros p cp sub Hp Hsub.
  pose proof (Forall2_lookup_lr _ comps subs p cp sub Hshapes Hp Hsub) as Hs.
  apply (square_ext (length cp)); [apply restriction_square|done|].
  intros a b Ha Hb.
  destruct (lookup_lt_is_Some_2 cp a Ha) as [r Hr].
  destruct (lookup_lt_is_Some_2 cp b Hb) as [c Hc].
  rewrite (entry_restriction R cp a b r c Hr Hc).
  rewrite (Hent p p cp cp a b r c Hp Hp Hr Hc), decide_True by done.
  by rewrite (list_lookup_total_correct _ _ _ Hsub).
Qed.

Lemma reassemble_split_round_trip_witness :
  (R ← reassemble_matrix [[[2]]; [[3]]]%float [[1%nat]; [0%nat]] "fst";
   split_migration_matrix R [[1%nat]; [0%nat]]) = Ok [[[2]]; [[3]]]%float.
Proof.
  apply reassemble_split_round_trip.
  split; [|repeat constructor].
  cbn. apply Permutation_swap.
Defined.

(** ** More facts about binary64 *)

(** *** Rounding keeps the sign *)

Lemma shr_1_nonneg r : 0 <= shr_m r -> 0 <= shr_m (shr_1 r).
Proof. destruct r as [m r s]. cbn. destruct m as [|[p|p|]|p]; cbn; lia. Qed.

Lemma iter_pos_invariant {A} (P : A -> Prop) (f : A -> A) p x :
  (forall y, P y -> P (f y)) -> P x -> P (SpecFloat.iter_pos f p x).
Proof.
  intros Hf. revert x. induction p as [p IH|p IH|]; intros x Hx; cbn [SpecFloat.iter_pos]; auto.
Qed.

Lemma shr_fexp_nonneg m e l : 0 <= m -> 0 <= shr_m (shr_fexp prec emax m e l).1.
Proof.
  intros Hm. unfold shr_fexp, shr.
  assert (H0 : 0 <= shr_m (shr_record_of_loc m l)) by (by destruct l as [|[]]).
  destruct (IntDef.Z.sub _ e); cbn [fst]; try done.
  apply (iter_pos_invariant (fun r => 0 <= shr_m r)); [apply shr_1_nonneg|done].
Qed.

Lemma round_nearest_even_nonneg m l : 0 <= m -> 0 <= round_nearest_even m l.
Proof.
  intros Hm. unfold round_nearest_even. std_Z.
  destruct l as [|[]]; try lia. destruct (Z.even m); lia.
Qed.

Lemma round_aux_signed s m e l :
  0 <= m -> SFsigned s (binary_round_aux prec emax s m e l).
Proof.
  intros Hm. unfold binary_round_aux.
  pose proof (shr_fexp_nonneg m e l Hm) as H1.
  destruct (shr_fexp prec emax m e l) as [mrs' e']. cbn [fst] in H1.
  pose proof (shr_fexp_nonneg _ e' loc_Exact
                (round_nearest_even_nonneg _ (loc_of_shr_record mrs') H1)) as H2.
  destruct (shr_fexp prec emax _ e' loc_Exact) as [mrs'' e'']. cbn [fst] in H2.
  destruct (shr_m mrs'') as [|p|p]; [done| |lia].
  by destruct (IntDef.Z.leb e'' _).
Qed.

Lemma SFsigned_not_nan s x : SFsigned s x -> x <> S754_nan.
Proof. by intros H ->. Qed.

(** *** Comparisons *)

Lemma SFcompare_refl x : x <> S754_nan -> SFcompare x x = Some Eq.
Proof.
  intros Hx. unfold SFcompare. std_Z.
  destruct x as [[]|[]| |[] m e]; try done;
    rewrite Z.compare_refl; change (Pos.compare_cont Eq m m) with (Pos.compare m m);
    by rewrite Pos.compare_refl.
Qed.

Lemma SFeqb_sym x y : SFeqb x y = SFeqb y x.
Proof.
  unfold SFeqb, SFcompare. std_Z.
  destruct x as [[]|[]| |[] m1 e1], y as [[]|[]| |[] m2 e2]; try reflexivity;
    destruct (Z.compare_spec e1 e2), (Z.compare_spec e2 e1); try lia; try reflexivity;
    change (Pos.compare_cont Eq m1 m2) with (Pos.compare m1 m2);
    change (Pos.compare_cont Eq m2 m1) with (Pos.compare m2 m1);
    destruct (Pos.compare_spec m1 m2), (Pos.compare_spec m2 m1); try lia; reflexivity.
Qed.

Lemma eqb_sym (x y : float) : (x =? y)%float = (y =? x)%float.
Proof. rewrite !FloatAxioms.eqb_spec. apply SFeqb_sym. Qed.

Lemma eqb_refl_number (x : float) : is_nan x = false -> (x =? x)%float = true.
Proof.
  intros Hx. apply is_nan_false in Hx.
  rewrite FloatAxioms.eqb_spec. unfold SFeqb. by rewrite SFcompare_refl.
Qed.

Lemma np_ne_sym x y : np_ne x y = np_ne y x.
Proof. unfold np_ne. by rewrite eqb_sym. Qed.

(** *** Products and quotients are NaN only on the known operands *)

Lemma SFmul_finite_not_nan x s m e :
  x <> S754_nan -> SFmul prec emax x (S754_finite s m e) <> S754_nan.
Proof.
  intros Hx. destruct x as [sx|sx| |sx mx ex]; try done. cbn [SFmul].
  eapply SFsigned_not_nan, round_aux_signed. done.
Qed.

Lemma SFdiv_finite_not_nan x s m e :
  x <> S754_nan -> SFdiv prec emax x (S754_finite s m e) <> S754_nan.
Proof.
  intros Hx. destruct x as [sx|sx| |sx mx ex]; try done. cbn [SFdiv].
  unfold SFdiv_core_binary. std_Z.
  set (m' := match _ with Z0 => _ | Zpos _ => _ | Zneg _ => _ end).
  assert (Hm' : 0 <= m').
  { unfold m'. destruct (_ - _ - _) as [|p|p]; try lia.
    apply Z.shiftl_nonneg. lia. }
  rewrite div_eucl_pair.
  eapply SFsigned_not_nan, round_aux_signed.
  apply Z.div_pos; lia.
Qed.

(** *** rint *)

Lemma valid_mantissa_bound s m e :
  valid_binary (S754_finite s m e) = true -> Z.pos m < 2 ^ 53 /\ -1074 <= e.
Proof.
  unfold SpecFloat.valid_binary, bounded, canonical_mantissa, fexp, SpecFloat.emin.
  std_Z. rewrite digits2_pos_log2. intros H.
  apply andb_prop in H as [H1 H2]. apply Z.eqb_eq in H1.
  unfold prec, emax in *. split; [|lia].
  apply Z.log2_lt_pow2; lia.
Qed.

Lemma binary_normalize_signed_small s z :
  0 < z < 2 ^ 53 ->
  binary_normalize prec emax (cond_Zopp s z) 0 s = S754_finite s (sig53 z) (exp53 z).
Proof.
  intros Hz. pose proof (binary_normalize_small z Hz) as H.
  destruct z as [|p|]; try lia. destruct s; [|done].
  change (cond_Zopp true (Z.pos p)) with (Z.neg p).
  cbn [binary_normalize] in *. unfold binary_round in *.
  destruct (shl_align p 0 _) as [mz ez].
  pose proof (SFabs_round_aux true (Z.pos mz) ez loc_Exact) as Habs.
  rewrite H in Habs.
  pose proof (round_aux_signed true (Z.pos mz) ez loc_Exact ltac:(lia)) as Hs.
  destruct (binary_round_aux prec emax true (Z.pos mz) ez loc_Exact) as [| | |s' m' e'];
    cbn in Habs, Hs; try done.
  by inversion Habs; subst.
Qed.

Lemma SFrint_valid x : valid_binary x = true -> valid_binary (SFrint x) = true.
Proof.
  intros Hv. destruct x as [s|s| |s m e]; try done. unfold SFrint.
  destruct (0 <=? e) eqn:He; [done|]. apply Z.leb_gt in He.
  apply valid_mantissa_bound in Hv as [Hm _].
  set (d := 2 ^ (- e)).
  assert (Hd : 2 <= d).
  { unfold d. change 2 with (2 ^ 1) at 1. apply Z.pow_le_mono_r; lia. }
  set (n := if match 2 * (Z.pos m mod d) ?= d with
               | Eq => Z.odd (Z.pos m / d) | Lt => false | Gt => true end
            then Z.pos m / d + 1 else Z.pos m / d).
  assert (Hq : 0 <= Z.pos m / d < 2 ^ 52).
  { split; [apply Z.div_pos; lia|]. apply Z.div_lt_upper_bound; lia. }
  assert (Hn : 0 <= n < 2 ^ 53).
  { unfold n. destruct (2 * (Z.pos m mod d) ?= d); [destruct (Z.odd _)| |]; lia. }
  destruct (decide (n = 0)) as [->|Hn0].
  { by destruct s. }
  rewrite binary_normalize_signed_small by lia.
  pose proof (sig53_valid n ltac:(lia)) as H. exact H.
Qed.

Lemma SFrint_not_nan x : valid_binary x = true -> x <> S754_nan -> SFrint x <> S754_nan.
Proof.
  intros Hv Hx. destruct x as [s|s| |s m e]; try done. unfold SFrint.
  destruct (0 <=? e) eqn:He; [done|]. apply Z.leb_gt in He.
  apply valid_mantissa_bound in Hv as [Hm _].
  set (d := 2 ^ (- e)).
  assert (Hd : 2 <= d).
  { unfold d. change 2 with (2 ^ 1) at 1. apply Z.pow_le_mono_r; lia. }
  set (n := if match 2 * (Z.pos m mod d) ?= d with
               | Eq => Z.odd (Z.pos m / d) | Lt => false | Gt => true end
            then Z.pos m / d + 1 else Z.pos m / d).
  assert (Hq : 0 <= Z.pos m / d < 2 ^ 52).
  { split; [apply Z.div_pos; lia|]. apply Z.div_lt_upper_bound; lia. }
  assert (Hn : 0 <= n < 2 ^ 53).
  { unfold n. destruct (2 * (Z.pos m mod d) ?= d); [destruct (Z.odd _)| |]; lia. }
  destruct (decide (n = 0)) as [->|Hn0].
  { by destruct s. }
  by rewrite binary_normalize_signed_small by lia.
Qed.

Lemma Prim2SF_np_rint x : Prim2SF (np_rint x) = SFrint (Prim2SF x).
Proof. unfold np_rint. apply Prim2SF_SF2Prim, SFrint_valid, Prim2SF_valid. Qed.

(** Rounding to two decimals gives NaN only on NaN. *)
Lemma np_round2_not_nan x : is_nan x = false -> is_nan (np_round2 x) = false.
Proof.
  rewrite !is_nan_false. intros Hx. unfold np_round2.
  rewrite div_spec, Prim2SF_np_rint, mul_spec.
  change (Prim2SF 100) with (S754_finite false 7036874417766400 (-46)).
  apply SFdiv_finite_not_nan, SFrint_not_nan.
  - change (S754_finite false 7036874417766400 (-46)) with (Prim2SF 100).
    rewrite <- mul_spec. apply Prim2SF_valid.
  - by apply SFmul_finite_not_nan.
Qed.

(** *** The order of the floats, again *)

Lemma SFcompare_antisym x y : SFcompare y x = CompOpp <$> SFcompare x y.
Proof.
  unfold SFcompare. std_Z.
  destruct x as [[]|[]| |[] m1 e1], y as [[]|[]| |[] m2 e2]; try reflexivity;
    cbn [fmap option_fmap option_map];
    rewrite (Z.compare_antisym e1 e2);
    destruct (e1 ?= e2); cbn [CompOpp]; try reflexivity;
    change (Pos.compare_cont Eq m1 m2) with (Pos.compare m1 m2);
    change (Pos.compare_cont Eq m2 m1) with (Pos.compare m2 m1);
    rewrite (Pos.compare_antisym m1 m2); by destruct (m1 ?= m2)%positive.
Qed.

Lemma SFcompare_None x y : SFcompare x y = None <-> x = S754_nan \/ y = S754_nan.
Proof.
  destruct x as [[]|[]| |[] m1 e1], y as [[]|[]| |[] m2 e2]; cbn;
    (split; [discriminate|intros [?|?]; discriminate]) || (split; [auto|done]).
Qed.

Lemma SFltb_SFleb x y :
  SFltb x y = true <-> x <> S754_nan /\ y <> S754_nan /\ SFleb y x = false.
Proof.
  unfold SFltb, SFleb. rewrite (SFcompare_antisym x y).
  destruct (SFcompare x y) as [c|] eqn:E.
  - assert (Hx : x <> S754_nan /\ y <> S754_nan).
    { split; intros ->; [by destruct y as [[]|[]| |[] ? ?]|by destruct x as [[]|[]| |[] ? ?]]. }
    destruct Hx as [Hx Hy]. destruct c; cbn; split; try done; by intros (_ & _ & ?).
  - apply SFcompare_None in E. cbn. split; [done|]. intros (Hx & Hy & _). by destruct E.
Qed.

Lemma ltb_float_le x y :
  (x <? y)%float = true
  <-> is_nan x = false /\ is_nan y = false /\ ~ float_le y x.
Proof.
  rewrite ltb_spec, SFltb_SFleb, !is_nan_false. split.
  - intros (Hx & Hy & Hle). repeat split; try done.
    intros H. apply (SFleb_lex _ _ Hy Hx) in H. congruence.
  - intros (Hx & Hy & Hle). repeat split; try done.
    destruct (SFleb (Prim2SF y) (Prim2SF x)) eqn:E; [|done].
    destruct Hle. by apply (SFleb_lex _ _ Hy Hx).
Qed.

Lemma ltb_irrefl x : (x <? x)%float = false.
Proof.
  destruct (x <? x)%float eqn:E; [|done].
  apply ltb_float_le in E as (_ & _ & H). destruct H. apply float_le_refl.
Qed.

Lemma ltb_trans x y z :
  (x <? y)%float = true -> (y <? z)%float = true -> (x <? z)%float = true.
Proof.
  rewrite !ltb_float_le. intros (Hx & Hy & H1) (_ & Hz & H2).
  repeat split; try done. intros H3.
  destruct (float_le_total y x) as [H|H]; [done|].
  apply H2. by apply (float_le_trans z x y).
Qed.

(** *** Shifting a significand *)

Lemma shr_1_div2 r : 0 <= shr_m r -> shr_m (shr_1 r) = shr_m r / 2.
Proof.
  intros H. rewrite <- Z.div2_div. destruct r as [m r s]. cbn in *.
  destruct m as [|[p|p|]|p]; try reflexivity; lia.
Qed.

Lemma shr_m_iter p r :
  0 <= shr_m r -> shr_m (SpecFloat.iter_pos shr_1 p r) = shr_m r / 2 ^ Z.pos p.
Proof.
  revert r. induction p as [p IH|p IH|]; intros r Hr; cbn [SpecFloat.iter_pos].
  - assert (H1 : 0 <= shr_m (shr_1 r)) by by apply shr_1_nonneg.
    assert (H2 : 0 <= shr_m (SpecFloat.iter_pos shr_1 p (shr_1 r))).
    { apply (iter_pos_invariant (fun r => 0 <= shr_m r)); [apply shr_1_nonneg|done]. }
    rewrite IH, IH, shr_1_div2 by done.
    rewrite !Z.div_div by lia. f_equal.
    change 2 with (2 ^ 1) at 1. rewrite <- !Z.pow_add_r by lia. f_equal. lia.
  - assert (H2 : 0 <= shr_m (SpecFloat.iter_pos shr_1 p r)).
    { apply (iter_pos_invariant (fun r => 0 <= shr_m r)); [apply shr_1_nonneg|done]. }
    rewrite IH, IH by done.
    rewrite !Z.div_div by lia. f_equal.
    rewrite <- Z.pow_add_r by lia. f_equal. lia.
  - rewrite shr_1_div2 by done. reflexivity.
Qed.

Lemma shr_fexp_pos m e l :
  0 < m -> -1074 <= e ->
  0 < shr_m (shr_fexp prec emax m e l).1 /\ -1074 <= (shr_fexp prec emax m e l).2.
Proof.
  intros Hm He. unfold shr_fexp, shr, fexp, SpecFloat.emin. std_Z.
  rewrite Zdigits2_log2 by done.
  assert (H0 : shr_m (shr_record_of_loc m l) = m) by (by destruct l as [|[]]).
  unfold prec, emax.
  destruct (Z.max (Z.log2 m + 1 + e - 53) (3 - 1024 - 53) - e) as [|p|p] eqn:E;
    cbn [fst snd]; [rewrite H0; lia| |rewrite H0; lia].
  rewrite shr_m_iter, H0 by lia. split; [|lia].
  assert (Hp : Z.pos p = Z.log2 m - 52) by lia.
  pose proof (Z.log2_spec m Hm) as [Hlo _].
  apply Z.lt_le_trans with (2 ^ 52); [lia|].
  apply Z.div_le_lower_bound; [lia|].
  rewrite Hp, <- Z.pow_add_r by lia.
  replace (Z.log2 m - 52 + 52) with (Z.log2 m) by lia. done.
Qed.

(** Rounding a significand that is not zero, at an exponent of a float,
    gives no zero. *)
Lemma round_aux_nonzero s m e l :
  0 < m -> -1074 <= e ->
  match binary_round_aux prec emax s m e l with
  | S754_finite s' _ _ | S754_infinity s' => s' = s
  | _ => False
  end.
Proof.
  intros Hm He. unfold binary_round_aux.
  pose proof (shr_fexp_pos m e l Hm He) as [H1 H1'].
  destruct (shr_fexp prec emax m e l) as [mrs' e']. cbn [fst snd] in H1, H1'.
  assert (H2 : 0 < round_nearest_even (shr_m mrs') (loc_of_shr_record mrs')).
  { unfold round_nearest_even. std_Z.
    destruct (loc_of_shr_record mrs') as [|[]]; try lia.
    destruct (Z.even (shr_m mrs')); lia. }
  pose proof (shr_fexp_pos _ e' loc_Exact H2 H1') as [H3 _].
  destruct (shr_fexp prec emax _ e' loc_Exact) as [mrs'' e'']. cbn [fst] in H3.
  destruct (shr_m mrs'') as [|p|p]; [lia| |lia].
  by destruct (IntDef.Z.leb e'' _).
Qed.

Lemma shl_align_value m e e' :
  e' <= e ->
  Z.pos (shl_align m e e').1 = Z.pos m * 2 ^ (e - e')
  /\ (shl_align m e e').2 = e'.
Proof.
  intros H. unfold shl_align. std_Z.
  destruct (e' - e) as [|d|d] eqn:E; cbn [fst snd]; try lia.
  - replace (e - e') with 0 by lia. lia.
  - fold (Zpower.shift_pos d m).
    rewrite Zpower.shift_pos_correct, Z.pow_pos_fold, Z.mul_comm.
    replace (e - e') with (Z.pos d) by lia. done.
Qed.

Lemma binary_round_nonzero s m e :
  -1074 <= e ->
  match binary_round prec emax s m e with
  | S754_finite s' _ _ | S754_infinity s' => s' = s
  | _ => False
  end.
Proof.
  intros He. unfold binary_round.
  set (e' := fexp prec emax (Z.pos (digits2_pos m) + e)).
  assert (He' : -1074 <= e').
  { unfold e', fexp, SpecFloat.emin, prec, emax. std_Z. lia. }
  destruct (shl_align m e e') as [mz ez] eqn:E.
  apply round_aux_nonzero; [lia|].
  unfold shl_align in E. std_Z.
  destruct (e' - e) as [|d|d] eqn:E'; inversion E; subst; lia.
Qed.

(** The class of an integer, rounded at an exponent of a float. *)
Lemma binary_normalize_class d e :
  -1074 <= e ->
  SFsign_class (binary_normalize prec emax d e false) = Some (d ?= 0).
Proof.
  intros He. destruct d as [|p|p]; [done| |].
  - cbn [binary_normalize]. pose proof (binary_round_nonzero false p e He) as H.
    destruct (binary_round prec emax false p e); try done; by subst.
  - cbn [binary_normalize]. pose proof (binary_round_nonzero true p e He) as H.
    destruct (binary_round prec emax true p e); try done; by subst.
Qed.

(** *** Numbers and their units *)

Lemma valid_finite s m e :
  valid_binary (S754_finite s m e) = true ->
  Z.pos m < 2 ^ 53 /\ -1074 <= e /\ (-1074 < e -> 2 ^ 52 <= Z.pos m).
Proof.
  unfold SpecFloat.valid_binary, bounded, canonical_mantissa, fexp, SpecFloat.emin.
  std_Z. rewrite digits2_pos_log2. intros H.
  apply andb_prop in H as [H1 H2]. apply Z.eqb_eq in H1.
  unfold prec, emax in *.
  pose proof (Z.log2_spec (Z.pos m) ltac:(lia)) as [Hlo Hhi].
  split; [|split; [lia|]].
  - apply Z.log2_lt_pow2; lia.
  - intros He. replace 52 with (Z.log2 (Z.pos m)) by lia. done.
Qed.

Lemma units_lt m1 e1 m2 e2 :
  valid_binary (S754_finite false m1 e1) = true ->
  valid_binary (S754_finite false m2 e2) = true ->
  e1 < e2 -> Z.pos m1 * 2 ^ (e1 + 1074) < Z.pos m2 * 2 ^ (e2 + 1074).
Proof.
  intros H1 H2 He.
  apply valid_finite in H1 as (Hm1 & He1 & _).
  apply valid_finite in H2 as (_ & _ & Hm2). specialize (Hm2 ltac:(lia)).
  replace (e2 + 1074) with ((e2 - e1) + (e1 + 1074)) by lia.
  rewrite (Z.pow_add_r 2 (e2 - e1) (e1 + 1074)) by lia.
  assert (Hp : 0 < 2 ^ (e1 + 1074)) by (apply Z.pow_pos_nonneg; lia).
  assert (Hq : 2 <= 2 ^ (e2 - e1)).
  { change 2 with (2 ^ 1) at 1. apply Z.pow_le_mono_r; lia. }
  change (2 ^ 53) with (2 * 2 ^ 52) in Hm1.
  set (P := 2 ^ (e1 + 1074)) in *. set (Q := 2 ^ (e2 - e1)) in *.
  set (T := 2 ^ 52) in *. set (M1 := Z.pos m1) in *. set (M2 := Z.pos m2) in *.
  assert (HT : 0 < T) by (unfold T; lia).
  assert (A1 : M1 * P < 2 * T * P) by (apply Z.mul_lt_mono_pos_r; lia).
  assert (A2 : 2 * T <= M2 * Q) by nia.
  assert (A3 : 2 * T * P <= M2 * Q * P) by (apply Z.mul_le_mono_nonneg_r; lia).
  lia.
Qed.

Lemma SFcompare_units x y :
  valid_binary x = true -> valid_binary y = true -> SFnumber x -> SFnumber y ->
  SFcompare x y = Some (SFunits x ?= SFunits y).
Proof.
  intros Vx Vy Nx Ny.
  destruct x as [sx|sx| |sx m1 e1], y as [sy|sy| |sy m2 e2]; try done.
  - cbn [SFcompare SFunits]. f_equal. symmetry.
    assert (0 < Z.pos m2 * 2 ^ (e2 + 1074)).
    { apply Z.mul_pos_pos; [lia|]. apply Z.pow_pos_nonneg; [lia|].
      apply valid_finite in Vy. lia. }
    destruct sy; cbn [cond_Zopp]; [apply Z.compare_gt_iff|apply Z.compare_lt_iff]; lia.
  - cbn [SFcompare SFunits]. f_equal. symmetry.
    assert (0 < Z.pos m1 * 2 ^ (e1 + 1074)).
    { apply Z.mul_pos_pos; [lia|]. apply Z.pow_pos_nonneg; [lia|].
      apply valid_finite in Vx. lia. }
    destruct sx; cbn [cond_Zopp]; [apply Z.compare_lt_iff|apply Z.compare_gt_iff]; lia.
  - assert (Hx : 0 < Z.pos m1 * 2 ^ (e1 + 1074)).
    { apply Z.mul_pos_pos; [lia|]. apply Z.pow_pos_nonneg; [lia|].
      apply valid_finite in Vx. lia. }
    assert (Hy : 0 < Z.pos m2 * 2 ^ (e2 + 1074)).
    { apply Z.mul_pos_pos; [lia|]. apply Z.pow_pos_nonneg; [lia|].
      apply valid_finite in Vy. lia. }
    assert (Vx' : valid_binary (S754_finite false m1 e1) = true) by exact Vx.
    assert (Vy' : valid_binary (S754_finite false m2 e2) = true) by exact Vy.
    assert (Heq : e1 = e2 ->
              (Z.pos m1 * 2 ^ (e1 + 1074) ?= Z.pos m2 * 2 ^ (e2 + 1074))
              = (m1 ?= m2)%positive).
    { intros <-. rewrite Pos2Z.inj_compare.
      symmetry. apply Zmult_compare_compat_r.
      apply Z.lt_gt, Z.pow_pos_nonneg; [lia|]. apply valid_finite in Vx. lia. }
    unfold SFcompare, SFunits. std_Z. f_equal.
    change (Pos.compare_cont Eq m1 m2) with (Pos.compare m1 m2).
    destruct sx, sy; cbn [cond_Zopp].
    + destruct (Z.compare_spec e1 e2) as [E|E|E].
      * rewrite Z.compare_opp, (Z.compare_antisym (Z.pos m1 * _) (Z.pos m2 * _)).
        by rewrite (Heq E).
      * symmetry. apply Z.compare_gt_iff.
        pose proof (units_lt m1 e1 m2 e2 Vx' Vy' E). lia.
      * symmetry. apply Z.compare_lt_iff.
        pose proof (units_lt m2 e2 m1 e1 Vy' Vx' E). lia.
    + symmetry. apply Z.compare_lt_iff. lia.
    + symmetry. apply Z.compare_gt_iff. lia.
    + destruct (Z.compare_spec e1 e2) as [E|E|E].
      * by rewrite (Heq E).
      * symmetry. apply Z.compare_lt_iff. by apply units_lt.
      * symmetry. apply Z.compare_gt_iff.
        pose proof (units_lt m2 e2 m1 e1 Vy' Vx' E). lia.
Qed.

Lemma aligned_units s m e ez :
  -1074 <= ez -> ez <= e ->
  cond_Zopp s (Z.pos (shl_align m e ez).1) * 2 ^ (ez + 1074)
  = cond_Zopp s (Z.pos m * 2 ^ (e + 1074)).
Proof.
  intros H1 H2. destruct (shl_align_value m e ez H2) as [-> _].
  replace (e + 1074) with ((e - ez) + (ez + 1074)) by lia.
  rewrite (Z.pow_add_r 2 (e - ez) (ez + 1074)) by lia. destruct s; cbn [cond_Zopp]; ring.
Qed.

(** The difference of two numbers compares with zero as the numbers compare
    with one another. *)
Lemma SFsub_class x y :
  valid_binary x = true -> valid_binary y = true -> SFnumber x -> SFnumber y ->
  SFsign_class (SFsub prec emax x y) = Some (SFunits x ?= SFunits y).
Proof.
  intros Vx Vy Nx Ny.
  destruct x as [sx|sx| |sx m1 e1], y as [sy|sy| |sy m2 e2]; try done.
  - by destruct sx, sy.
  - cbn [SFsub SFsign_class SFunits]. f_equal. symmetry.
    assert (0 < Z.pos m2 * 2 ^ (e2 + 1074)).
    { apply Z.mul_pos_pos; [lia|]. apply Z.pow_pos_nonneg; [lia|].
      apply valid_finite in Vy. lia. }
    destruct sy; cbn [cond_Zopp negb]; [apply Z.compare_gt_iff|apply Z.compare_lt_iff]; lia.
  - cbn [SFsub SFsign_class SFunits]. f_equal. symmetry.
    assert (0 < Z.pos m1 * 2 ^ (e1 + 1074)).
    { apply Z.mul_pos_pos; [lia|]. apply Z.pow_pos_nonneg; [lia|].
      apply valid_finite in Vx. lia. }
    destruct sx; cbn [cond_Zopp]; [apply Z.compare_lt_iff|apply Z.compare_gt_iff]; lia.
  - apply valid_finite in Vx as (_ & He1 & _). apply valid_finite in Vy as (_ & He2 & _).
    cbn [SFsub]. std_Z. set (ez := Z.min e1 e2).
    rewrite binary_normalize_class by (unfold ez; lia). f_equal.
    cbn [SFunits].
    pose proof (aligned_units sx m1 e1 ez ltac:(unfold ez; lia) ltac:(unfold ez; lia)) as Ea.
    pose proof (aligned_units sy m2 e2 ez ltac:(unfold ez; lia) ltac:(unfold ez; lia)) as Eb.
    rewrite <- Ea, <- Eb.
    assert (Hp : 0 < 2 ^ (ez + 1074)) by (apply Z.pow_pos_nonneg; unfold ez; lia).
    set (a := cond_Zopp sx _) in *. set (b := cond_Zopp sy _) in *.
    set (P := 2 ^ (ez + 1074)) in *. symmetry.
    destruct (Z.compare_spec (a - b) 0) as [H|H|H];
      [apply Z.compare_eq_iff|apply Z.compare_lt_iff|apply Z.compare_gt_iff]; nia.
Qed.

Lemma SFcompare_zero x : SFcompare x (S754_zero false) = SFsign_class x.
Proof. by destruct x as [[]|[]| |[] m e]. Qed.

Lemma is_number_SFnumber x : is_number x <-> SFnumber (Prim2SF x).
Proof. unfold is_number, SFnumber. by destruct (Prim2SF x). Qed.

(** [a - b == 0] exactly when [a == b], on numbers. *)
Lemma sub_eqb_zero (a b : float) :
  is_number a -> is_number b -> ((a - b) =? 0)%float = (a =? b)%float.
Proof.
  intros Ha Hb. apply is_number_SFnumber in Ha, Hb.
  rewrite !FloatAxioms.eqb_spec, sub_spec. unfold SFeqb.
  change (Prim2SF 0) with (S754_zero false).
  rewrite SFcompare_zero, SFsub_class, SFcompare_units
    by (done || apply Prim2SF_valid).
  reflexivity.
Qed.

(** [a - b >= 0] exactly when [a >= b], on numbers. *)
Lemma sub_leb_zero (a b : float) :
  is_number a -> is_number b -> (0 <=? a - b)%float = (b <=? a)%float.
Proof.
  intros Ha Hb. apply is_number_SFnumber in Ha, Hb.
  rewrite !leb_spec, sub_spec. unfold SFleb, SF64sub.
  change (Prim2SF 0) with (S754_zero false).
  rewrite (SFcompare_antisym (SFsub _ _ _ _)), SFcompare_zero, SFsub_class,
    (SFcompare_units (Prim2SF b)) by (done || apply Prim2SF_valid).
  cbn [fmap option_fmap option_map].
  rewrite (Z.compare_antisym (SFunits (Prim2SF a))).
  by destruct (SFunits (Prim2SF a) ?= SFunits (Prim2SF b)).
Qed.

(** *** Sums of floats that are zero or above *)

Lemma not_below_zero_SF x :
  not_below_zero x <->
  match Prim2SF x with
  | S754_zero _ | S754_finite false _ _ | S754_infinity false => True
  | _ => False
  end.
Proof.
  unfold not_below_zero. rewrite leb_spec. change (Prim2SF 0) with (S754_zero false).
  destruct (Prim2SF x) as [[]|[]| |[] m e]; cbn; split; try done.
Qed.

Lemma not_below_zero_not_nan x : not_below_zero x -> is_nan x = false.
Proof.
  intros H. apply is_nan_false. apply not_below_zero_SF in H.
  by destruct (Prim2SF x).
Qed.

Lemma not_below_zero_add x y :
  not_below_zero x -> not_below_zero y -> not_below_zero (x + y).
Proof.
  rewrite !not_below_zero_SF, add_spec. unfold SF64add.
  destruct (Prim2SF x) as [sx|sx| |sx mx ex], (Prim2SF y) as [sy|sy| |sy my ey];
    try done; try (destruct sx, sy; cbn; tauto).
  destruct sx, sy; try tauto. intros _ _.
  cbn [SFadd cond_Zopp]. std_Z.
  destruct (shl_align mx ex (Z.min ex ey)) as [mx' ex'].
  destruct (shl_align my ey (Z.min ex ey)) as [my' ey']. cbn [fst].
  change (Z.pos mx' + Z.pos my') with (Z.pos (mx' + my')).
  cbn [binary_normalize]. unfold binary_round.
  destruct (shl_align (mx' + my') _ _) as [mz ez].
  pose proof (round_aux_signed false (Z.pos mz) ez loc_Exact ltac:(lia)) as Hs.
  destruct (binary_round_aux prec emax false (Z.pos mz) ez loc_Exact) as [[]|[]| |[] m e];
    done.
Qed.

Lemma sum_of_not_below_zero xs s :
  sum_of xs s -> Forall not_below_zero xs -> not_below_zero s.
Proof.
  induction 1 as [| |x|xs ys s t _ IHs _ IHt|xs ys s Hp _ IH]; intros Hz.
  - done.
  - done.
  - by apply Forall_cons in Hz as [? _].
  - apply Forall_app in Hz as [Hx Hy]. apply not_below_zero_add; auto.
  - apply IH. by rewrite Hp.
Qed.

(** ** check_conservative *)

Lemma column_ok (m : matrix) n i :
  square n m -> (i < n)%nat -> map_res (fun r => getitem r i) m = Ok (column m i).
Proof.
  intros [Hl Hrows] Hi. apply map_res_ok. intros r Hr.
  rewrite Forall_forall in Hrows. apply getitem_lt. rewrite (Hrows r Hr). done.
Qed.

Lemma check_conservative_from_ok sum (m : matrix) n is_ :
  square n m -> Forall (fun i => (i < n)%nat) is_ ->
  check_conservative_from sum m is_ = Ok (forallb (balanced sum m) is_).
Proof.
  intros Hm. induction 1 as [|i is_ Hi _ IH]; [done|].
  cbn [check_conservative_from forallb].
  rewrite getitem_lt by (destruct Hm as [-> _]; done). cbn [mbind res_bind].
  rewrite (column_ok m n) by done. cbn [mbind res_bind].
  unfold np_ne. fold (balanced sum m i). destruct (balanced sum m i); [exact IH|done].
Qed.

Lemma check_conservative_with_ok sum (m : matrix) n :
  square n m -> check_conservative_with sum m = Ok (forallb (balanced sum m) (seq 0 n)).
Proof.
  intros Hm. unfold check_conservative_with, range.
  destruct Hm as [Hl Hrows]. rewrite Hl, Nat.sub_0_r.
  apply (check_conservative_from_ok sum m n); [done|].
  apply Forall_forall. intros i Hi. apply elem_of_seq in Hi. lia.
Qed.

Lemma check_conservative_ok (m : matrix) n :
  square n m -> check_conservative m = Ok (forallb (balanced np_sum m) (seq 0 n)).
Proof. apply check_conservative_with_ok. Qed.

Lemma forallb_seq (f : nat -> bool) n :
  forallb f (seq 0 n) = true <-> forall i, (i < n)%nat -> f i = true.
Proof.
  rewrite forallb_forall. split.
  - intros H i Hi. apply H, list_elem_of_In, elem_of_seq. lia.
  - intros H i Hi. apply list_elem_of_In, elem_of_seq in Hi. apply H. lia.
Qed.

Lemma column_seq (m : matrix) n i :
  length m = n -> column m i = (fun k => entry m k i) <$> seq 0 n.
Proof.
  intros <-. unfold column. rewrite (list_eta m) at 1.
  rewrite <- list_fmap_compose. done.
Qed.

Lemma row_seq (m : matrix) n i :
  square n m -> (i < n)%nat -> m !!! i = (fun k => entry m i k) <$> seq 0 n.
Proof.
  intros [Hl Hrows] Hi. rewrite (list_eta (m !!! i)) at 1.
  rewrite Forall_lookup in Hrows.
  rewrite (Hrows i (m !!! i)); [done|]. apply list_lookup_lookup_total_lt. lia.
Qed.

(** X11.  A symmetric n-by-n matrix whose entries are all zero or above
    (no NaN, no negative rate) is conservative: [check_conservative] returns
    True, in whatever order numpy adds the rows and the columns. *)
Theorem check_conservative_symmetric (sum : vector -> float) (m : matrix) (n : nat) :
  summation sum -> square n m ->
  (forall i j, (i < n)%nat -> (j < n)%nat -> entry m i j = entry m j i) ->
  Forall (Forall not_below_zero) m ->
  check_conservative_with sum m = Ok true.
Proof.
  intros Hs Hm Hsym Hpos. rewrite (check_conservative_with_ok sum m n Hm). f_equal.
  apply forallb_seq. intros i Hi. unfold balanced.
  assert (E : column m i = m !!! i).
  { rewrite (column_seq m n) by apply Hm. rewrite (row_seq m n i) by done.
    apply list_fmap_ext. intros k j Hk. apply lookup_seq in Hk as [-> Hk].
    apply Hsym; lia. }
  rewrite E. apply eqb_refl_number, np_round2_not_nan, not_below_zero_not_nan.
  apply (sum_of_not_below_zero (m !!! i)); [apply Hs|].
  rewrite Forall_lookup in Hpos. apply (Hpos i).
  apply list_lookup_lookup_total_lt. destruct Hm as [-> _]. done.
Qed.

Lemma check_conservative_symmetric_witness :
  check_conservative [[0; 1; 5]; [1; 0; 2]; [5; 2; 0]]%float = Ok true.
Proof.
  apply (check_conservative_symmetric np_sum _ 3).
  - exact np_sum_summation.
  - split; [reflexivity|]. repeat constructor.
  - intros i j Hi Hj.
    destruct i as [|[|[|i]]]; [| | |lia]; destruct j as [|[|[|j]]]; try lia; reflexivity.
  - repeat constructor.
Defined.

Lemma transpose_square n (m : matrix) : square n (transpose n m).
Proof.
  unfold transpose. split; [by rewrite length_fmap, length_seq|].
  apply Forall_fmap, Forall_forall. intros j _. cbn. by rewrite length_fmap, length_seq.
Qed.

Lemma entry_transpose n (m : matrix) i j :
  (i < n)%nat -> (j < n)%nat -> entry (transpose n m) i j = entry m j i.
Proof.
  intros Hi Hj. unfold entry at 1. unfold transpose.
  rewrite (list_lookup_total_correct _ i ((fun k => entry m k i) <$> seq 0 n)).
  2:{ by rewrite list_lookup_fmap, lookup_seq_lt. }
  apply list_lookup_total_correct. by rewrite list_lookup_fmap, lookup_seq_lt.
Qed.

Lemma balanced_transpose sum n (m : matrix) i :
  square n m -> (i < n)%nat -> balanced sum (transpose n m) i = balanced sum m i.
Proof.
  intros Hm Hi. unfold balanced.
  assert (E1 : transpose n m !!! i = column m i).
  { rewrite (row_seq _ n i (transpose_square n m) Hi), (column_seq m n) by apply Hm.
    apply list_fmap_ext. intros k j Hk. apply lookup_seq in Hk as [-> Hk].
    apply entry_transpose; lia. }
  assert (E2 : column (transpose n m) i = m !!! i).
  { rewrite (column_seq _ n) by apply transpose_square. rewrite (row_seq m n i) by done.
    apply list_fmap_ext. intros k j Hk. apply lookup_seq in Hk as [-> Hk].
    apply entry_transpose; lia. }
  rewrite E1, E2. apply eqb_sym.
Qed.

(** X12.  Transposing a square matrix does not change the answer of
    [check_conservative]. *)
Theorem check_conservative_transpose (m : matrix) (n : nat) :
  square n m -> check_conservative (transpose n m) = check_conservative m.
Proof.
  intros Hm.
  rewrite (check_conservative_ok m n Hm).
  rewrite (check_conservative_ok _ n (transpose_square n m)). f_equal.
  apply eq_true_iff_eq. rewrite !forallb_seq.
  split; intros H i Hi; [rewrite <- (balanced_transpose np_sum n) by done|
                          rewrite (balanced_transpose np_sum n) by done]; by apply H.
Qed.

Lemma check_conservative_transpose_witness :
  check_conservative (transpose 2 [[0; 1]; [2; 0]]%float)
  = check_conservative [[0; 1]; [2; 0]]%float.
Proof.
  apply check_conservative_transpose. split; [reflexivity|]. repeat constructor.
Defined.

(** ** cons_migration_constraint_generator *)

Lemma filter_bind {A B} (P : B -> Prop) `{!forall x, Decision (P x)}
    (f : A -> list B) (l : list A) :
  filter P (l ≫= f) = l ≫= (fun x => filter P (f x)).
Proof.
  induction l as [|x l IH]; [done|]. by rewrite !bind_cons, filter_app, IH.
Qed.

Lemma filter_all {A} (P : A -> Prop) `{!forall x, Decision (P x)} (l : list A) :
  Forall P l -> filter P l = l.
Proof.
  induction 1 as [|x l Hx _ IH]; [done|]. by rewrite filter_cons_True, IH.
Qed.

Lemma bind_ext_elem {A B} (f g : A -> list B) (l : list A) :
  (forall x, x ∈ l -> f x = g x) -> l ≫= f = l ≫= g.
Proof.
  induction l as [|x l IH]; intros H; [done|].
  rewrite !bind_cons, H by left. f_equal. apply IH. intros y Hy. apply H. by right.
Qed.

Lemma filter_others n a :
  (a < n)%nat -> filter (fun c => a <> c) (seq 0 n) = others n a.
Proof.
  intros Ha. unfold others.
  replace n with (a + (1 + (n - (a + 1))))%nat at 1 by lia.
  rewrite !seq_app, !filter_app. cbn [seq Nat.add].
  rewrite filter_cons_False, filter_nil by (intros H; by apply H). cbn [app].
  rewrite !filter_all; [by rewrite Nat.add_1_r| |].
  - apply Forall_forall. intros c Hc. apply elem_of_seq in Hc. lia.
  - apply Forall_forall. intros c Hc. apply elem_of_seq in Hc. lia.
Qed.

Lemma filter_pair_fmap (a : nat) (l : list nat) :
  filter (fun rc : nat * nat => rc.1 <> rc.2) (pair a <$> l)
  = pair a <$> filter (fun c => a <> c) l.
Proof.
  induction l as [|c l IH]; [done|]. rewrite fmap_cons, !filter_cons. cbn [fst snd].
  destruct (decide (a <> c)); by rewrite IH.
Qed.

(** The positions that the mask keeps: row by row, the columns other than
    the row. *)
Lemma off_diagonal_positions n :
  filter (fun rc : nat * nat => rc.1 <> rc.2) (np_index_pairs n)
  = seq 0 n ≫= fun a => pair a <$> others n a.
Proof.
  unfold np_index_pairs. rewrite filter_bind. apply bind_ext_elem.
  intros a Ha. apply elem_of_seq in Ha.
  rewrite filter_pair_fmap, filter_others by lia. done.
Qed.

Lemma uniform_block_length {B} (h : nat -> list B) L s cnt :
  (forall i, (s <= i < s + cnt)%nat -> length (h i) = L) ->
  length (seq s cnt ≫= h) = (cnt * L)%nat.
Proof.
  revert s. induction cnt as [|cnt IH]; intros s Hh; [done|].
  cbn [seq]. rewrite bind_cons, length_app, Hh, IH by (intros; apply Hh; lia) || lia. lia.
Qed.

Lemma uniform_block_lookup {B} (h : nat -> list B) L s cnt a k :
  (forall i, (s <= i < s + cnt)%nat -> length (h i) = L) ->
  (a < cnt)%nat -> (k < L)%nat ->
  (seq s cnt ≫= h) !! (L * a + k)%nat = h (s + a)%nat !! k.
Proof.
  revert s a. induction cnt as [|cnt IH]; intros s a Hh Ha Hk; [lia|].
  cbn [seq]. rewrite bind_cons. destruct a as [|a].
  - rewrite Nat.mul_0_r, Nat.add_0_r. cbn [Nat.add].
    apply lookup_app_l. rewrite Hh; lia.
  - rewrite lookup_app_r by (rewrite Hh; nia). rewrite Hh by lia.
    replace (L * S a + k - L)%nat with (L * a + k)%nat by nia.
    rewrite IH by (lia || (intros; apply Hh; lia)).
    by replace (S s + a)%nat with (s + S a)%nat by lia.
Qed.

Lemma others_lookup n a k :
  (a < n)%nat -> (k < n - 1)%nat ->
  others n a !! k = Some (if decide (k < a)%nat then k else S k).
Proof.
  intros Ha Hk. unfold others. destruct (decide (k < a)%nat) as [Hlt|Hge].
  - rewrite lookup_app_l by (rewrite length_seq; lia). by rewrite lookup_seq_lt.
  - rewrite lookup_app_r by (rewrite length_seq; lia). rewrite length_seq.
    rewrite lookup_seq_lt by lia. f_equal. lia.
Qed.

Lemma off_diagonal_lookup n a b :
  (a < n)%nat -> (b < n)%nat -> a <> b ->
  (seq 0 n ≫= fun a => pair a <$> others n a)
    !! ((n - 1) * a + (if decide (b < a)%nat then b else b - 1))%nat
  = Some (a, b).
Proof.
  intros Ha Hb Hab.
  rewrite (uniform_block_lookup _ (n - 1)%nat).
  - cbn [Nat.add]. rewrite list_lookup_fmap.
    destruct (decide (b < a)%nat) as [Hlt|Hge].
    + rewrite others_lookup by lia. cbn. by rewrite decide_True.
    + rewrite others_lookup by lia. cbn. rewrite decide_False by lia.
      do 2 f_equal. lia.
  - intros i Hi. rewrite length_fmap, others_length; lia.
  - done.
  - case_decide; lia.
Qed.

Lemma index_pairs_NoDup n : NoDup (np_index_pairs n).
Proof.
  unfold np_index_pairs. apply NoDup_bind.
  - intros r1 r2 [r c] _ _ H1 H2.
    apply list_elem_of_fmap in H1 as (c1 & E1 & _). apply list_elem_of_fmap in H2 as (c2 & E2 & _).
    congruence.
  - intros r _. apply NoDup_fmap_2; [|apply NoDup_seq]. by intros c1 c2 [= ->].
  - apply NoDup_seq.
Qed.

Lemma migration_matrix_square x n : square n (migration_matrix x n).
Proof.
  unfold migration_matrix. split; [by rewrite length_fmap, length_seq|].
  apply Forall_fmap, Forall_forall. intros j _. cbn. by rewrite length_fmap, length_seq.
Qed.

Lemma entry_migration_matrix x n a b :
  (a < n)%nat -> (b < n)%nat ->
  entry (migration_matrix x n) a b
  = if decide (a = b) then 0%float else migration x n a b.
Proof.
  intros Ha Hb. unfold entry, migration_matrix.
  rewrite (list_lookup_total_correct _ a
    ((fun b => if decide (a = b) then 0%float else migration x n a b) <$> seq 0 n)).
  2:{ by rewrite list_lookup_fmap, lookup_seq_lt. }
  apply list_lookup_total_correct. by rewrite list_lookup_fmap, lookup_seq_lt.
Qed.

(** The matrix that the constraint builds is the migration matrix that
    [f_to_m] reads from the same vector. *)
Lemma cons_migration_matrix_ok (x : vector) n :
  (n ^ 2 - n <= length x)%nat ->
  cons_migration_matrix n x = Ok (migration_matrix x n).
Proof.
  intros Hx. unfold cons_migration_matrix, np_fancy_set.
  rewrite off_diagonal_positions.
  set (positions := seq 0 n ≫= fun a => pair a <$> others n a).
  assert (Hlen : length positions = (n ^ 2 - n)%nat).
  { unfold positions. rewrite (uniform_block_length _ (n - 1)%nat).
    - rewrite Nat.pow_2_r. nia.
    - intros i Hi. rewrite length_fmap, others_length; lia. }
  rewrite length_take, Hlen, Nat.min_l, Nat.eqb_refl by done.
  cbn [mbind res_bind]. f_equal.
  change (foldl (fun a pv => set_entry a pv.1.1 pv.1.2 pv.2))
    with (foldl write).
  assert (Hfst : (zip positions (take (n ^ 2 - n) x)).*1 = positions).
  { apply fst_zip. rewrite length_take. lia. }
  assert (Hnd : NoDup positions).
  { unfold positions. rewrite <- off_diagonal_positions.
    apply NoDup_filter, index_pairs_NoDup. }
  apply (square_ext n); [apply writes_square|apply migration_matrix_square|].
  intros a b Ha Hb. rewrite entry_migration_matrix by done.
  destruct (decide (a = b)) as [<-|Hab].
  - rewrite writes_miss; [by apply entry_fill|].
    rewrite Hfst. unfold positions. rewrite <- off_diagonal_positions.
    intros Hin. apply list_elem_of_filter in Hin as [Hne _]. by apply Hne.
  - set (p := ((n - 1) * a + (if decide (b < a)%nat then b else b - 1))%nat).
    assert (Hp : (p < n ^ 2 - n)%nat).
    { unfold p. rewrite Nat.pow_2_r. case_decide; nia. }
    apply writes_hit.
    + by rewrite Hfst.
    + apply (list_elem_of_lookup_2 _ p). apply lookup_zip_Some. split.
      * by apply off_diagonal_lookup.
      * rewrite lookup_take_lt by done. apply list_lookup_lookup_total_lt. lia.
    + by rewrite length_replicate.
    + rewrite (list_lookup_total_correct _ a (replicate n 0%float))
        by by apply lookup_replicate_2.
      by rewrite length_replicate.
Qed.

Lemma np_index_ok n i :
  - Z.of_nat n <= i < Z.of_nat n ->
  np_index n i = Ok (Z.to_nat (i mod Z.of_nat n)) /\ (Z.to_nat (i mod Z.of_nat n) < n)%nat.
Proof.
  intros Hi. unfold np_index.
  destruct (Z.leb_spec 0 i), (Z.ltb_spec i (Z.of_nat n)); cbn [andb]; try lia.
  - rewrite Z.mod_small by lia. split; [done|lia].
  - destruct (Z.leb_spec (- Z.of_nat n) i), (Z.ltb_spec i 0); cbn [andb]; try lia.
    replace (i mod Z.of_nat n) with (Z.of_nat n + i).
    + split; [done|lia].
    + apply (Z.mod_unique _ _ (-1)); lia.
Qed.

Lemma np_index_out n i :
  i < - Z.of_nat n \/ Z.of_nat n <= i -> np_index n i = Raise IndexError.
Proof.
  intros Hi. unfold np_index.
  destruct (Z.leb_spec 0 i), (Z.ltb_spec i (Z.of_nat n)),
    (Z.leb_spec (- Z.of_nat n) i), (Z.ltb_spec i 0); cbn [andb]; try lia; done.
Qed.

Lemma np_column_ok (m : matrix) n i :
  square n m -> - Z.of_nat n <= i < Z.of_nat n ->
  np_column m i = Ok (column m (Z.to_nat (i mod Z.of_nat n))).
Proof.
  intros [Hl Hrows] Hi. apply map_res_ok. intros r Hr.
  rewrite Forall_forall in Hrows. unfold np_getitem. rewrite (Hrows r Hr).
  destruct (np_index_ok n i Hi) as [-> Hp]. cbn [mbind res_bind].
  apply getitem_lt. by rewrite (Hrows r Hr).
Qed.

(** X13.  For a vector x with at least n^2 - n entries and an index i of a
    population, counted from the front or from the back, the constraint
    that [cons_migration_constraint_generator] returns builds the migration
    matrix that [f_to_m] reads from x, zero on the diagonal, and gives the
    rounded sum of row i minus the rounded sum of column i, the sums being
    those of numpy. *)
Theorem cons_migration_constraint_spec (sum : vector -> float) (n : nat) (i : Z)
    (x : vector) :
  (n ^ 2 - n <= length x)%nat -> - Z.of_nat n <= i < Z.of_nat n ->
  let M := migration_matrix x n in
  let p := Z.to_nat (i mod Z.of_nat n) in
  cons_migration_matrix n x = Ok M
  /\ (forall a b, (a < n)%nat -> (b < n)%nat ->
        entry M a b = if decide (a = b) then 0%float else migration x n a b)
  /\ cons_migration_constraint_generator_with sum n i x
     = Ok (np_round2 (sum ((fun b => entry M p b) <$> seq 0 n))
           - np_round2 (sum ((fun a => entry M a p) <$> seq 0 n)))%float.
Proof.
  intros Hx Hi M p. split; [by apply cons_migration_matrix_ok|].
  split; [intros a b Ha Hb; by apply entry_migration_matrix|].
  unfold cons_migration_constraint_generator_with.
  rewrite cons_migration_matrix_ok by done. cbn [mbind res_bind]. fold M.
  pose proof (migration_matrix_square x n) as Hsq. fold M in Hsq.
  unfold np_row. pose proof Hsq as [Hl Hrows]. rewrite Hl.
  destruct (np_index_ok n i Hi) as [-> Hp]. fold p in Hp |- *. cbn [mbind res_bind].
  rewrite getitem_lt by lia. cbn [mbind res_bind].
  rewrite (np_column_ok M n) by done. fold p.
  by rewrite (row_seq M n p), (column_seq M n p) by (done || lia).
Qed.

Lemma cons_migration_constraint_spec_witness :
  cons_migration_constraint_generator 3 (-2) [1; 2; 3; 4; 5; 7; 7; 8; 9]%float
    = Ok (-1)%float.
Proof.
  destruct (cons_migration_constraint_spec np_sum 3 (-2) [1; 2; 3; 4; 5; 7; 7; 8; 9]%float)
    as (_ & _ & H).
  - cbn. lia.
  - lia.
  - unfold cons_migration_constraint_generator. rewrite H. by vm_compute.
Defined.

(** X14.  The constraint raises ValueError when x has fewer than n^2 - n
    entries, unless it has exactly one, and IndexError when x is long enough
    and i is not the index of a population. *)
Theorem cons_migration_constraint_errors (n : nat) (i : Z) (x : vector) :
  ((length x < n ^ 2 - n)%nat -> length x <> 1%nat ->
   cons_migration_constraint_generator n i x = Raise ValueError)
  /\ ((n ^ 2 - n <= length x)%nat -> i < - Z.of_nat n \/ Z.of_nat n <= i ->
      cons_migration_constraint_generator n i x = Raise IndexError).
Proof.
  split.
  - intros Hx H1. unfold cons_migration_constraint_generator, cons_migration_constraint_generator_with,
      cons_migration_matrix,
      np_fancy_set.
    rewrite off_diagonal_positions.
    rewrite (uniform_block_length _ (n - 1)%nat)
      by (intros k Hk; rewrite length_fmap, others_length; lia).
    rewrite length_take, Nat.min_r by lia.
    destruct (Nat.eqb_spec (length x) (n * (n - 1))) as [E|_].
    { rewrite Nat.pow_2_r in Hx. nia. }
    destruct (Nat.eqb_spec (length x) 1) as [E|_]; [done|]. reflexivity.
  - intros Hx Hi.
    unfold cons_migration_constraint_generator, cons_migration_constraint_generator_with.
    rewrite cons_migration_matrix_ok by done. cbn [mbind res_bind].
    unfold np_row. destruct (migration_matrix_square x n) as [-> _].
    by rewrite np_index_out.
Qed.

Lemma cons_migration_constraint_errors_witness :
  cons_migration_constraint_generator 3 0 [1; 2]%float = Raise ValueError
  /\ cons_migration_constraint_generator 2 2 [1; 2]%float = Raise IndexError.
Proof.
  split.
  - apply (proj1 (cons_migration_constraint_errors 3 0 [1; 2]%float)); cbn; lia.
  - apply (proj2 (cons_migration_constraint_errors 2 2 [1; 2]%float)); cbn; lia.
Defined.

(** ** constraint_generator *)

Lemma np_getitem_ok (x : vector) i :
  - Z.of_nat (length x) <= i < Z.of_nat (length x) ->
  np_getitem x i = Ok (x !!! Z.to_nat (i mod Z.of_nat (length x))).
Proof.
  intros Hi. unfold np_getitem.
  destruct (np_index_ok (length x) i Hi) as [-> Hp]. cbn [mbind res_bind].
  by apply getitem_lt.
Qed.

Lemma np_getitem_out (x : vector) i :
  i < - Z.of_nat (length x) \/ Z.of_nat (length x) <= i ->
  np_getitem x i = Raise IndexError.
Proof. intros Hi. unfold np_getitem. by rewrite np_index_out. Qed.

(** X15.  For indices i and j inside x, counted from the front or from the
    back, the constraint of [constraint_generator] returns the float
    x[i] - x[j]; when both entries are numbers, it is at least 0 exactly when
    x[i] >= x[j], and equal to 0 exactly when x[i] == x[j]. *)
Theorem constraint_generator_spec (i j : Z) (x : vector) :
  - Z.of_nat (length x) <= i < Z.of_nat (length x) ->
  - Z.of_nat (length x) <= j < Z.of_nat (length x) ->
  let xi := x !!! Z.to_nat (i mod Z.of_nat (length x)) in
  let xj := x !!! Z.to_nat (j mod Z.of_nat (length x)) in
  constraint_generator i j x = Ok (xi - xj)%float
  /\ (is_number xi -> is_number xj ->
      (0 <=? xi - xj)%float = (xj <=? xi)%float
      /\ (xi - xj =? 0)%float = (xi =? xj)%float).
Proof.
  intros Hi Hj xi xj. split.
  - unfold constraint_generator. by rewrite !np_getitem_ok.
  - intros Ni Nj. split; [by apply sub_leb_zero|by apply sub_eqb_zero].
Qed.

Lemma constraint_generator_spec_witness :
  constraint_generator 0 (-1) [3; 1; 2]%float = Ok (3 - 2)%float
  /\ (0 <=? 3 - 2)%float = (2 <=? 3)%float.
Proof.
  destruct (constraint_generator_spec 0 (-1) [3; 1; 2]%float) as [H1 H2].
  - cbn. lia.
  - cbn. lia.
  - split; [exact H1|]. apply H2; exact I.
Defined.

(** X16.  When i or j is not an index of x, the constraint raises
    IndexError. *)
Theorem constraint_generator_out_of_range (i j : Z) (x : vector) :
  (i < - Z.of_nat (length x) \/ Z.of_nat (length x) <= i)
  \/ (j < - Z.of_nat (length x) \/ Z.of_nat (length x) <= j) ->
  constraint_generator i j x = Raise IndexError.
Proof.
  intros H. unfold constraint_generator.
  destruct (decide (- Z.of_nat (length x) <= i < Z.of_nat (length x))) as [Hi|Hi].
  - rewrite (np_getitem_ok x i Hi). cbn [mbind res_bind].
    rewrite (np_getitem_out x j) by lia. reflexivity.
  - rewrite (np_getitem_out x i) by lia. reflexivity.
Qed.

Lemma constraint_generator_out_of_range_witness :
  constraint_generator 0 3 [3; 1; 2]%float = Raise IndexError.
Proof. apply constraint_generator_out_of_range. cbn. lia. Defined.

(** ** check_conservative and the constraints *)

Lemma cons_migration_constraint_ok sum (n : nat) (i : Z) (x : vector) :
  (n ^ 2 - n <= length x)%nat -> - Z.of_nat n <= i < Z.of_nat n ->
  cons_migration_constraint_generator_with sum n i x
  = Ok (np_round2 (sum (migration_matrix x n !!! Z.to_nat (i mod Z.of_nat n)))
        - np_round2 (sum (column (migration_matrix x n) (Z.to_nat (i mod Z.of_nat n)))))%float.
Proof.
  intros Hx Hi. unfold cons_migration_constraint_generator_with.
  rewrite cons_migration_matrix_ok by done. cbn [mbind res_bind].
  pose proof (migration_matrix_square x n) as Hsq.
  unfold np_row. destruct Hsq as [Hl Hrows]. rewrite Hl.
  destruct (np_index_ok n i Hi) as [-> Hp]. cbn [mbind res_bind].
  rewrite getitem_lt by lia. cbn [mbind res_bind].
  rewrite (np_column_ok _ n) by done. reflexivity.
Qed.

(** X17.  For a vector x with at least n^2 - n entries, and for the sum of
    numpy whatever its order is: when the rounded sums of the rows and of
    the columns of the migration matrix of x are numbers,
    [check_conservative] accepts the matrix exactly when the constraints of
    all n populations are zero on x. *)
Theorem conservative_iff_constraints (sum : vector -> float) (n : nat) (x : vector) :
  (n ^ 2 - n <= length x)%nat ->
  (forall p, (p < n)%nat ->
     is_number (np_round2 (sum (migration_matrix x n !!! p)))
     /\ is_number (np_round2 (sum (column (migration_matrix x n) p)))) ->
  check_conservative_with sum (migration_matrix x n) = Ok true
  <-> forall p, (p < n)%nat ->
        exists r, cons_migration_constraint_generator_with sum n (Z.of_nat p) x = Ok r
                  /\ (r =? 0)%float = true.
Proof.
  intros Hx Hnum.
  rewrite (check_conservative_with_ok sum _ n (migration_matrix_square x n)).
  assert (Hc : forall p, (p < n)%nat ->
            cons_migration_constraint_generator_with sum n (Z.of_nat p) x
            = Ok (np_round2 (sum (migration_matrix x n !!! p))
                  - np_round2 (sum (column (migration_matrix x n) p)))%float).
  { intros p Hp. rewrite cons_migration_constraint_ok by (done || lia).
    by rewrite Z.mod_small, Nat2Z.id by lia. }
  split.
  - intros [= H] p Hp. rewrite forallb_seq in H. specialize (H p Hp).
    eexists. split; [by apply Hc|].
    destruct (Hnum p Hp) as [N1 N2]. rewrite sub_eqb_zero by done. exact H.
  - intros H. f_equal. apply forallb_seq. intros p Hp.
    destruct (H p Hp) as (r & Hr & Hz). rewrite Hc in Hr by done. injection Hr as <-.
    destruct (Hnum p Hp) as [N1 N2]. rewrite sub_eqb_zero in Hz by done. exact Hz.
Qed.

Lemma conservative_iff_constraints_witness :
  check_conservative (migration_matrix [1; 1]%float 2) = Ok true
  <-> forall p, (p < 2)%nat ->
        exists r, cons_migration_constraint_generator 2 (Z.of_nat p) [1; 1]%float = Ok r
                  /\ (r =? 0)%float = true.
Proof.
  apply (conservative_iff_constraints np_sum).
  - cbn. lia.
  - intros p Hp. destruct p as [|[|p]]; [| |lia]; split; exact I.
Defined.

(** ** diameter *)

Lemma for_app {S A} (l1 l2 : list A) (body : S -> A -> res S) (s : S) :
  for_ (l1 ++ l2) body s = s' ← for_ l1 body s; for_ l2 body s'.
Proof.
  revert s. induction l1 as [|x l1 IH]; intros s; [done|].
  cbn [app for_]. destruct (body s x); cbn [mbind res_bind]; [apply IH|done|done].
Qed.

Lemma for_bind {S A B} (f : A -> list B) (body : S -> B -> res S) (l : list A) (s : S) :
  for_ (l ≫= f) body s = for_ l (fun s x => for_ (f x) body s) s.
Proof.
  revert s. induction l as [|x l IH]; intros s; [done|].
  rewrite bind_cons, for_app. cbn [for_].
  destruct (for_ (f x) body s); cbn [mbind res_bind]; [apply IH|done|done].
Qed.

Lemma for_fmap {S A B} (g : A -> B) (body : S -> B -> res S) (l : list A) (s : S) :
  for_ (g <$> l) body s = for_ l (fun s x => body s (g x)) s.
Proof.
  revert s. induction l as [|x l IH]; intros s; [done|].
  rewrite fmap_cons. cbn [for_].
  destruct (body s (g x)); cbn [mbind res_bind]; [apply IH|done|done].
Qed.

Lemma for_ext {S A} (body body' : S -> A -> res S) (l : list A) (s : S) :
  (forall s x, x ∈ l -> body s x = body' s x) -> for_ l body s = for_ l body' s.
Proof.
  revert s. induction l as [|x l IH]; intros s H; [done|].
  cbn [for_]. rewrite H by left.
  destruct (body' s x); cbn [mbind res_bind]; [|done|done].
  apply IH. intros s' y Hy. apply H. by right.
Qed.

Lemma for_pure {S A} (step : S -> A -> S) (l : list A) (s : S) :
  for_ l (fun s x => Ok (step s x)) s = Ok (foldl step s l).
Proof. revert s. induction l as [|x l IH]; intros s; [done|]. cbn. apply IH. Qed.

(** The two loops of [diameter] as one loop over the pairs. *)
Lemma diameter_pairs (mats : list matrix) :
  diameter mats
  = for_ (lower_pairs (length mats)) (fun max_diam ij =>
      mi ← getitem mats ij.1;
      mj ← getitem mats ij.2;
      d ← matrix_distance mi mj;
      Ok (py_max max_diam d)) PyZero.
Proof.
  unfold diameter, lower_pairs, range. rewrite Nat.sub_0_r, for_bind.
  apply for_ext. intros s i _. by rewrite Nat.sub_0_r, for_fmap.
Qed.

Lemma elem_of_lower_pairs k i j : (i, j) ∈ lower_pairs k <-> (j < i < k)%nat.
Proof.
  unfold lower_pairs. rewrite list_elem_of_bind. split.
  - intros (i' & H & Hi). apply list_elem_of_fmap in H as (j' & [= -> ->] & Hj).
    apply elem_of_seq in Hi, Hj. lia.
  - intros H. exists i. split; [|apply elem_of_seq; lia].
    apply list_elem_of_fmap. exists j. split; [done|]. apply elem_of_seq. lia.
Qed.

Lemma py_gt_trans d d' a :
  py_gt d a = true -> (d <? d')%float = true -> py_gt d' a = true.
Proof. destruct a as [|x]; cbn; intros H1 H2; by apply (ltb_trans _ d). Qed.

(** The running maximum: above everything seen, and either the start or
    something seen that exceeds the start. *)
Lemma fold_py_max (ds : list float) (acc : pynum) :
  let r := foldl py_max acc ds in
  (forall d, py_gt d r = true -> py_gt d acc = true)
  /\ (forall d, d ∈ ds -> py_gt d r = false)
  /\ (r = acc \/ exists d, d ∈ ds /\ r = PyFloat d /\ py_gt d acc = true).
Proof.
  revert acc. induction ds as [|d0 ds IH]; intros acc; cbn zeta.
  { split; [done|]. split; [|by left]. intros d Hd. by apply elem_of_nil in Hd. }
  cbn [foldl]. destruct (IH (py_max acc d0)) as (H1 & H2 & H3).
  assert (Hstep : forall d, py_gt d (py_max acc d0) = true -> py_gt d acc = true).
  { intros d. unfold py_max. destruct (py_gt d0 acc) eqn:E; [|done].
    cbn [py_gt]. intros Hd. by apply (py_gt_trans d0). }
  split; [|split].
  - intros d Hd. by apply Hstep, H1.
  - intros d Hd. apply elem_of_cons in Hd as [->|Hd]; [|by apply H2].
    destruct (py_gt d0 (foldl py_max (py_max acc d0) ds)) eqn:E; [|done].
    apply H1 in E. unfold py_max in E. destruct (py_gt d0 acc) eqn:E'; [|congruence].
    cbn [py_gt] in E. by rewrite ltb_irrefl in E.
  - destruct H3 as [->|(d & Hd & -> & Hgt)].
    + unfold py_max. destruct (py_gt d0 acc) eqn:E; [|by left].
      right. exists d0. split; [left|done].
    + right. exists d. split; [by right|]. split; [done|]. by apply Hstep.
Qed.

(** X18.  When the distance of every pair of the matrices is defined,
    [diameter] returns either the integer 0, and then no distance is above
    0, or a float above 0 that is the distance of one pair and that no
    distance exceeds; it is never a NaN and never negative. *)
Theorem diameter_spec (mats : list matrix) (dist : nat -> nat -> float) :
  (forall i j, (j < i < length mats)%nat ->
     matrix_distance (mats !!! i) (mats !!! j) = Ok (dist i j)) ->
  exists r,
    diameter mats = Ok r
    /\ match r with
       | PyZero => forall i j, (j < i < length mats)%nat -> (0 <? dist i j)%float = false
       | PyFloat d =>
           (0 <? d)%float = true
           /\ (exists i j, (j < i < length mats)%nat /\ d = dist i j)
           /\ forall i j, (j < i < length mats)%nat -> (d <? dist i j)%float = false
       end.
Proof.
  intros Hd. rewrite diameter_pairs.
  rewrite (for_ext _ (fun acc ij => Ok (py_max acc (dist ij.1 ij.2)))).
  2:{ intros s [i j] Hin. apply elem_of_lower_pairs in Hin. cbn [fst snd].
      rewrite !getitem_lt by lia. cbn [mbind res_bind].
      rewrite Hd by lia. reflexivity. }
  rewrite (for_pure (fun acc ij => py_max acc (dist ij.1 ij.2))).
  eexists. split; [reflexivity|].
  set (ds := (fun ij : nat * nat => dist ij.1 ij.2) <$> lower_pairs (length mats)).
  assert (E : foldl (fun acc ij => py_max acc (dist ij.1 ij.2)) PyZero
                (lower_pairs (length mats)) = foldl py_max PyZero ds).
  { unfold ds. generalize PyZero. induction (lower_pairs (length mats)) as [|p l IH];
      intros acc; [done|]. rewrite fmap_cons. cbn [foldl]. apply IH. }
  rewrite E. destruct (fold_py_max ds PyZero) as (_ & H2 & H3). cbn zeta in H2, H3.
  assert (Hin : forall i j, (j < i < length mats)%nat -> dist i j ∈ ds).
  { intros i j Hij. unfold ds. apply list_elem_of_fmap. exists (i, j).
    split; [done|]. by apply elem_of_lower_pairs. }
  destruct H3 as [E0|(d & Hdin & E0 & Hgt)]; rewrite E0 in *.
  - intros i j Hij. exact (H2 _ (Hin i j Hij)).
  - split; [exact Hgt|]. split.
    + unfold ds in Hdin. apply list_elem_of_fmap in Hdin as ([i j] & -> & Hp).
      exists i, j. split; [by apply elem_of_lower_pairs|done].
    + intros i j Hij. exact (H2 _ (Hin i j Hij)).
Qed.

Lemma diameter_spec_witness :
  exists r,
    diameter [[[0; 1]; [1; 0]]; [[0; 2]; [2; 0]]]%float = Ok r
    /\ r = PyFloat 1.
Proof.
  destruct (diameter_spec [[[0; 1]; [1; 0]]; [[0; 2]; [2; 0]]]%float (fun _ _ => 1%float))
    as (r & Hr & Hspec).
  - intros i j Hij. cbn [length] in Hij.
    assert (i = 1%nat /\ j = 0%nat) as [-> ->] by lia. by vm_compute.
  - exists r. split; [exact Hr|].
    destruct r as [|d]; [|by destruct Hspec as (_ & (i & j & _ & ->) & _)].
    specialize (Hspec 1%nat 0%nat ltac:(cbn; lia)). discriminate.
Defined.

(** X19.  A list of at most one matrix has the diameter 0, the integer, and
    a list that starts with two 1-by-1 matrices makes [diameter] raise
    ZeroDivisionError. *)
Theorem diameter_edges (mats : list matrix) :
  ((length mats <= 1)%nat -> diameter mats = Ok PyZero)
  /\ (forall a b rest, mats = a :: b :: rest -> square 1 a -> square 1 b ->
        diameter mats = Raise ZeroDivisionError).
Proof.
  split.
  - intros H. destruct mats as [|a [|b rest]]; [done|done|cbn in H; lia].
  - intros a b rest -> Ha Hb. rewrite diameter_pairs.
    unfold lower_pairs. cbn [length seq]. rewrite !bind_cons.
    cbn [seq fmap list_fmap app for_ fst snd].
    unfold getitem. cbn [lookup list_lookup mbind res_bind].
    rewrite (matrix_distance_unfold b a 1) by done.
    change (Z.of_nat 1 ^ 2 - Z.of_nat 1) with 0.
    by rewrite float_div_int_zero.
Qed.

Lemma diameter_edges_witness :
  diameter [[[1]]]%float = Ok PyZero
  /\ diameter [[[1]]; [[2]]; [[3]]]%float = Raise ZeroDivisionError.
Proof.
  split.
  - apply (proj1 (diameter_edges [[[1]]]%float)). cbn. lia.
  - apply (proj2 (diameter_edges [[[1]]; [[2]]; [[3]]]%float) [[1]]%float [[2]]%float [[[3]]]%float).
    + reflexivity.
    + split; [reflexivity|]. repeat constructor.
    + split; [reflexivity|]. repeat constructor.
Defined.

(** ** Errors of the loops over components *)

(** A map over a list whose function either returns or raises [e] raises [e]
    as soon as one element raises. *)
Lemma map_res_raise {A B} (f : A -> res B) e xs :
  (forall x, x ∈ xs -> (exists y, f x = Ok y) \/ f x = Raise e) ->
  (exists x, x ∈ xs /\ f x = Raise e) -> map_res f xs = Raise e.
Proof.
  induction xs as [|x xs IH]; intros Hall [z [Hz Hf]].
  { by apply elem_of_nil in Hz. }
  cbn [map_res]. destruct (Hall x ltac:(left)) as [[y Hy]|Hy]; [|by rewrite Hy].
  rewrite Hy. cbn [mbind res_bind].
  apply elem_of_cons in Hz as [->|Hz]; [congruence|].
  rewrite IH; [done| |by exists z].
  intros x' Hx'. apply Hall. by right.
Qed.

Lemma getitem_out {A} (l : list A) i : (length l <= i)%nat -> getitem l i = Raise IndexError.
Proof. intros Hi. unfold getitem. by rewrite lookup_ge_None_2. Qed.

Lemma getitem2_out (m : matrix) n a b :
  square n m -> (n <= a)%nat \/ (n <= b)%nat -> getitem2 m a b = Raise IndexError.
Proof.
  intros [Hl Hrows] Hab. unfold getitem2.
  destruct (decide (a < n)%nat) as [Ha|Ha].
  - rewrite getitem_lt by lia. cbn [mbind res_bind].
    apply getitem_out. rewrite Forall_lookup in Hrows.
    rewrite (Hrows a (m !!! a)); [lia|]. apply list_lookup_lookup_total_lt. lia.
  - by rewrite getitem_out by lia.
Qed.

Lemma getitem2_cases (m : matrix) n a b :
  square n m -> (exists y, getitem2 m a b = Ok y) \/ getitem2 m a b = Raise IndexError.
Proof.
  intros Hm. destruct (decide (a < n)%nat); [destruct (decide (b < n)%nat)|].
  - left. eexists. by apply (getitem2_ok m n).
  - right. apply (getitem2_out m n); [done|lia].
  - right. apply (getitem2_out m n); [done|lia].
Qed.

Lemma map_res_cases {A B} (f : A -> res B) e xs :
  (forall x, x ∈ xs -> (exists y, f x = Ok y) \/ f x = Raise e) ->
  (exists ys, map_res f xs = Ok ys) \/ map_res f xs = Raise e.
Proof.
  induction xs as [|x xs IH]; intros Hall; [left; by eexists|].
  cbn [map_res]. destruct (Hall x ltac:(left)) as [[y Hy]|Hy]; rewrite Hy; [|by right].
  cbn [mbind res_bind].
  destruct IH as [[ys Hys]|Hys]; [intros; apply Hall; by right| |]; rewrite Hys.
  - left. by eexists.
  - by right.
Qed.

Lemma np_ix_get_out (m : matrix) n comp v :
  square n m -> v ∈ comp -> (n <= v)%nat -> np_ix_get m comp comp = Raise IndexError.
Proof.
  intros Hm Hv Hn. unfold np_ix_get. apply map_res_raise.
  - intros r _. apply map_res_cases. intros c _. by apply (getitem2_cases m n).
  - assert (Hrow : forall r, map_res (fun c => getitem2 m r c) comp = Raise IndexError).
    { intros r. apply map_res_raise.
      - intros c _. by apply (getitem2_cases m n).
      - exists v. split; [done|]. apply (getitem2_out m n); [done|lia]. }
    exists v. by split.
Qed.

Lemma np_ix_get_cases (m : matrix) n comp :
  square n m ->
  (exists s, np_ix_get m comp comp = Ok s) \/ np_ix_get m comp comp = Raise IndexError.
Proof.
  intros Hm. apply map_res_cases. intros r _.
  apply map_res_cases. intros c _. by apply (getitem2_cases m n).
Qed.

(** X20.  On an n-by-n matrix, [split_migration_matrix] raises IndexError
    exactly when one of the component lists holds a vertex that is not
    below n; otherwise it returns. *)
Theorem split_migration_matrix_index_error (m : matrix) (n : nat)
    (comps : list (list nat)) :
  square n m ->
  (split_migration_matrix m comps = Raise IndexError
   <-> exists comp v, comp ∈ comps /\ v ∈ comp /\ (n <= v)%nat)
  /\ (split_migration_matrix m comps = Ok (restriction m <$> comps)
      <-> Forall (Forall (fun v => (v < n)%nat)) comps).
Proof.
  intros Hm.
  assert (Hbad : (exists comp v, comp ∈ comps /\ v ∈ comp /\ (n <= v)%nat) ->
                 split_migration_matrix m comps = Raise IndexError).
  { intros (comp & v & Hc & Hv & Hn). unfold split_migration_matrix.
    apply map_res_raise.
    - intros c _. by apply (np_ix_get_cases m n).
    - exists comp. split; [done|]. by apply (np_ix_get_out m n comp v). }
  assert (Hdec : Forall (Forall (fun v => (v < n)%nat)) comps
                 \/ exists comp v, comp ∈ comps /\ v ∈ comp /\ (n <= v)%nat).
  { destruct (decide (Forall (Forall (fun v => (v < n)%nat)) comps)) as [H|H]; [by left|].
    right. apply not_Forall_Exists in H; [|apply _].
    apply Exists_exists in H as (comp & Hc & H).
    apply not_Forall_Exists in H; [|apply _].
    apply Exists_exists in H as (v & Hv & H).
    exists comp, v. split; [done|]. split; [done|]. cbn in H. lia. }
  split; split.
  - intros Hr. destruct Hdec as [H|H]; [|done].
    rewrite (split_migration_matrix_ok m n) in Hr by done. discriminate.
  - done.
  - intros Hr. destruct Hdec as [H|H]; [done|].
    rewrite Hbad in Hr by done. discriminate.
  - by apply split_migration_matrix_ok.
Qed.

Lemma split_migration_matrix_index_error_witness :
  split_migration_matrix [[1; 2]; [3; 4]]%float [[0; 2]]%nat = Raise IndexError.
Proof.
  apply (split_migration_matrix_index_error [[1; 2]; [3; 4]]%float 2 [[0; 2]]%nat).
  - split; [done|]. by repeat constructor.
  - exists [0; 2]%nat, 2%nat. split; [by left|]. split; [|lia].
    right. by left.
Defined.

(** ** Errors of [reassemble_matrix] *)

Lemma np_ix_set_index_error (adjacency : matrix) indices sub v :
  v ∈ indices -> (length adjacency <= v)%nat ->
  np_ix_set adjacency indices sub = Raise IndexError.
Proof.
  intros Hv Hn. unfold np_ix_set.
  assert (H : forallb (fun v => (v <? length adjacency)%nat) indices = false).
  { apply not_true_is_false. intros H. rewrite forallb_forall in H.
    specialize (H v). rewrite <- list_elem_of_In in H. specialize (H Hv).
    apply Nat.ltb_lt in H. lia. }
  by rewrite H.
Qed.

Lemma stretches_to_wrong k d sub :
  square d sub -> d <> k -> d <> 1%nat -> stretches_to k sub = false.
Proof.
  intros [Hl _] Hk H1. unfold stretches_to. rewrite Hl.
  rewrite !bool_decide_eq_false_2 by done. done.
Qed.

Lemma np_ix_set_value_error (adjacency : matrix) indices sub d :
  Forall (fun v => (v < length adjacency)%nat) indices ->
  square d sub -> d <> length indices -> d <> 1%nat ->
  np_ix_set adjacency indices sub = Raise ValueError.
Proof.
  intros Hb Hs Hd H1. unfold np_ix_set.
  assert (Hin : forallb (fun v => (v <? length adjacency)%nat) indices = true).
  { apply forallb_forall. intros v Hv. apply list_elem_of_In in Hv.
    rewrite Forall_forall in Hb. apply Nat.ltb_lt. by apply Hb. }
  rewrite Hin, (stretches_to_wrong _ d) by done. done.
Qed.

(** The loop over the pairs: the pairs before the first failing one are
    written, then the error of that one is raised. *)
Lemma reassemble_loop_raise (l1 l2 : list (list nat * matrix)) cs e (a : matrix) :
  Forall (fun cs => Forall (fun v => (v < length a)%nat) cs.1
                    /\ square (length cs.1) cs.2) l1 ->
  (forall a', length a' = length a -> np_ix_set a' cs.1 cs.2 = Raise e) ->
  for_ (l1 ++ cs :: l2) (fun adj cs => np_ix_set adj cs.1 cs.2) a = Raise e.
Proof.
  intros H1 Hcs. rewrite for_app, reassemble_loop by done. cbn [mbind res_bind for_].
  rewrite Hcs; [done|]. by destruct (writes_shape (l1 ≫= fun cs => block_writes cs.1 cs.2) a).
Qed.

Lemma zip_lookup_split {A B} (l : list A) (k : list B) p x y :
  l !! p = Some x -> k !! p = Some y ->
  zip l k = zip (take p l) (take p k) ++ (x, y) :: zip (drop (S p) l) (drop (S p) k).
Proof.
  revert k p. induction l as [|a l IH]; intros [|b k] [|p] Hl Hk; try done.
  - cbn in *. by simplify_eq.
  - cbn in *. f_equal. by apply IH.
Qed.

Lemma fitting_prefix (subs : list matrix) (comps : list (list nat)) p N :
  Forall (Forall (fun v => (v < N)%nat)) comps ->
  (forall q comp sub, (q < p)%nat -> comps !! q = Some comp -> subs !! q = Some sub ->
     square (length comp) sub) ->
  Forall (fun cs : list nat * matrix => Forall (fun v => (v < N)%nat) cs.1
                    /\ square (length cs.1) cs.2) (zip (take p comps) (take p subs)).
Proof.
  intros Hb Hfit. apply Forall_lookup. intros q [comp sub] Hq.
  apply lookup_zip_with_Some in Hq as (c & s & Heq & Hc & Hs). simplify_eq. cbn.
  apply lookup_take_Some in Hc as [Hc Hqp]. apply lookup_take_Some in Hs as [Hs _].
  split.
  - rewrite Forall_lookup in Hb. by apply (Hb q).
  - by apply (Hfit q _ _ Hqp Hc Hs).
Qed.

(** X21.  When the sub-matrices up to position p have the shapes of their
    components and the vertices of the components before p are below the
    number N of listed vertices, a component at position p that holds a
    vertex not below N makes [reassemble_matrix] raise IndexError. *)
Theorem reassemble_matrix_index_error (subs : list matrix) (comps : list (list nat))
    (which : string) (p : nat) (comp : list nat) (v : nat) :
  comps !! p = Some comp ->
  (forall q c, (q <= p)%nat -> comps !! q = Some c ->
     exists s, subs !! q = Some s /\ square (length c) s) ->
  (forall q c, (q < p)%nat -> comps !! q = Some c ->
     Forall (fun u => (u < length (concat comps))%nat) c) ->
  v ∈ comp -> (length (concat comps) <= v)%nat ->
  reassemble_matrix subs comps which = Raise IndexError.
Proof.
  intros Hc Hfit Hb Hv Hn. unfold reassemble_matrix. rewrite num_nodes_eq.
  set (N := length (concat comps)) in *.
  destruct (Hfit p comp ltac:(lia) Hc) as (sub & Hs & _).
  rewrite (zip_lookup_split comps subs p comp sub) by done.
  apply reassemble_loop_raise.
  - rewrite length_replicate. apply Forall_lookup. intros q [c s] Hq.
    apply lookup_zip_with_Some in Hq as (c' & s' & Heq & Hc' & Hs'). simplify_eq. cbn.
    apply lookup_take_Some in Hc' as [Hc' Hqp]. apply lookup_take_Some in Hs' as [Hs' _].
    split; [by apply (Hb q)|].
    destruct (Hfit q _ ltac:(lia) Hc') as (s'' & Hs'' & Hsq). congruence.
  - intros a' Ha'. rewrite length_replicate in Ha'. cbn.
    apply (np_ix_set_index_error a' comp sub v); [done|lia].
Qed.

Lemma reassemble_matrix_index_error_witness :
  reassemble_matrix [[[0; 5]; [5; 0]]]%float [[0; 2]]%nat "fst" = Raise IndexError.
Proof.
  apply (reassemble_matrix_index_error _ _ _ 0%nat [0; 2]%nat 2%nat).
  - reflexivity.
  - intros [|q] c Hq Hc; [|lia]. cbn in Hc. injection Hc as <-.
    eexists. split; [reflexivity|]. split; [done|]. by repeat constructor.
  - intros q c Hq. lia.
  - right. by left.
  - cbn. lia.
Defined.

(** X22.  When all listed vertices are below their number N and the
    sub-matrices before position p have the shapes of their components, a
    d-by-d sub-matrix at position p whose component has another number of
    vertices than d, d not 1, makes [reassemble_matrix] raise ValueError. *)
Theorem reassemble_matrix_value_error (subs : list matrix) (comps : list (list nat))
    (which : string) (p d : nat) (comp : list nat) (sub : matrix) :
  Forall (Forall (fun v => (v < length (concat comps))%nat)) comps ->
  comps !! p = Some comp -> subs !! p = Some sub ->
  (forall q c s, (q < p)%nat -> comps !! q = Some c -> subs !! q = Some s ->
     square (length c) s) ->
  square d sub -> d <> length comp -> d <> 1%nat ->
  reassemble_matrix subs comps which = Raise ValueError.
Proof.
  intros Hb Hc Hs Hfit Hd Hne H1. unfold reassemble_matrix. rewrite num_nodes_eq.
  set (N := length (concat comps)) in *.
  rewrite (zip_lookup_split comps subs p comp sub) by done.
  apply reassemble_loop_raise.
  - rewrite length_replicate. by apply fitting_prefix.
  - intros a' Ha'. rewrite length_replicate in Ha'. cbn.
    apply (np_ix_set_value_error a' comp sub d); try done.
    rewrite Ha'. rewrite Forall_lookup in Hb. by apply (Hb p).
Qed.

Lemma reassemble_matrix_value_error_witness :
  reassemble_matrix [[[0; 5]; [5; 0]]]%float [[0; 1; 2]]%nat "fst" = Raise ValueError.
Proof.
  apply (reassemble_matrix_value_error _ _ _ 0%nat 2%nat [0; 1; 2]%nat [[0; 5]; [5; 0]]%float).
  - cbn. repeat constructor.
  - reflexivity.
  - reflexivity.
  - intros q c s Hq. lia.
  - split; [done|]. by repeat constructor.
  - cbn. lia.
  - lia.
Defined.

(** ** [matrix_distance] on shapes that differ, and its sign *)

Lemma np_binop_stretch_l op x ys : np_binop op [x] ys = Ok (op x <$> ys).
Proof. done. Qed.

Lemma np_binop_stretch_r op xs y :
  length xs <> 1%nat -> np_binop op xs [y] = Ok ((fun x => op x y) <$> xs).
Proof. intros H. by destruct xs as [|x [|x' xs]]. Qed.

Lemma square_1 b : square 1 b -> b = [[entry b 0 0]].
Proof.
  intros [Hl Hr]. destruct b as [|r [|r' b]]; try done.
  apply Forall_cons in Hr as [Hr _]. by destruct r as [|x [|x' r]].
Qed.

Lemma matrix_distance_stretch (a : matrix) (n : nat) y :
  (2 <= n)%nat -> square n a ->
  matrix_distance a [[y]] = matrix_distance a (replicate n (replicate n y)).
Proof.
  intros Hn Ha.
  assert (Hb : square n (replicate n (replicate n y))).
  { split; [by rewrite length_replicate|].
    apply Forall_forall. intros r Hr. apply elem_of_replicate in Hr as [-> _].
    by rewrite length_replicate. }
  rewrite (matrix_distance_unfold a (replicate n (replicate n y)) n) by done.
  unfold matrix_distance, matrix_distance_with.
  assert (Hbin : np_binop2 PrimFloat.sub a [[y]] = Ok ((fun r : vector => (fun x => x - y)%float <$> r) <$> a)).
  { destruct Ha as [Hl Hr]. unfold np_binop2.
    destruct a as [|r1 [|r2 a]]; [cbn in Hl; lia|cbn in Hl; lia|].
    apply map_res_ok. intros r Hin. apply np_binop_stretch_r.
    rewrite Forall_forall in Hr. rewrite (Hr r Hin). lia. }
  rewrite Hbin. cbn [mbind res_bind].
  destruct Ha as [Hl Hr]. rewrite Hl. f_equal. unfold abs_diff_sum, abs_diffs. f_equal. f_equal.
  rewrite (square_eta n a) at 1 by done.
  rewrite <- !list_fmap_compose. apply list_fmap_ext. intros p i Hi.
  apply lookup_seq in Hi as [-> Hi]. cbn.
  rewrite <- !list_fmap_compose. apply list_fmap_ext. intros q j Hj.
  apply lookup_seq in Hj as [-> Hj]. cbn.
  fold (entry (replicate n (replicate n y)) p q). by rewrite entry_fill by lia.
Qed.

(** X23.  For an n-by-n first matrix and a k-by-k second one with n and k
    different and at least 1: when n is 1, [matrix_distance] raises
    ZeroDivisionError; otherwise, when k is 1, the single entry of the second
    matrix stands for an n-by-n matrix filled with it; otherwise ValueError
    is raised. *)
Theorem matrix_distance_mismatch (a b : matrix) (n k : nat) :
  square n a -> square k b -> n <> k -> (1 <= n)%nat -> (1 <= k)%nat ->
  matrix_distance a b =
    if (n =? 1)%nat then Raise ZeroDivisionError
    else if (k =? 1)%nat then matrix_distance a (replicate n (replicate n (entry b 0 0)))
    else Raise ValueError.
Proof.
  intros Ha Hb Hnk Hn Hk.
  destruct (Nat.eqb_spec n 1) as [->|Hn1]; [|destruct (Nat.eqb_spec k 1) as [->|Hk1]].
  - rewrite (square_1 a Ha). unfold matrix_distance, matrix_distance_with, np_binop2.
    rewrite (map_res_ok _ (fun r : vector => PrimFloat.sub (entry a 0 0) <$> r)) by done.
    cbn [mbind res_bind length]. apply float_div_int_zero.
  - rewrite (square_1 b Hb) at 1. apply matrix_distance_stretch; [lia|done].
  - destruct Ha as [La _], Hb as [Lb _]. unfold matrix_distance, matrix_distance_with, np_binop2.
    destruct a as [|r1 [|r2 a]]; [cbn in La; lia|cbn in La; lia|].
    destruct b as [|s1 [|s2 b]]; [cbn in Lb; lia|cbn in Lb; lia|].
    rewrite La, Lb. by rewrite (proj2 (Nat.eqb_neq n k)).
Qed.

Lemma matrix_distance_mismatch_witness :
  matrix_distance [[0; 1]; [2; 0]]%float [[1]]%float
  = matrix_distance [[0; 1]; [2; 0]]%float [[1; 1]; [1; 1]]%float.
Proof.
  apply (matrix_distance_mismatch [[0; 1]; [2; 0]]%float [[1]]%float 2 1).
  - split; [done|]. by repeat constructor.
  - split; [done|]. by repeat constructor.
  - lia.
  - lia.
  - lia.
Defined.

(** *** Sums of absolute values are not negative *)

Lemma SFabs_not_negative x : SFnot_negative (SFabs x).
Proof. destruct x; [right|right|left|right]; done. Qed.

Lemma SFadd_not_negative x y :
  SFnot_negative x -> SFnot_negative y -> SFnot_negative (SFadd prec emax x y).
Proof.
  intros [->|Hx] [->|Hy]; try (by left); try (destruct x; by left).
  destruct x as [sx|sx| |sx mx ex], y as [sy|sy| |sy my ey];
    cbn in Hx, Hy; try done; subst; try (by right).
  cbn [SFadd cond_Zopp]. std_Z.
  destruct (shl_align mx ex (Z.min ex ey)) as [mx' ex'].
  destruct (shl_align my ey (Z.min ex ey)) as [my' ey']. cbn [fst].
  change (Z.pos mx' + Z.pos my') with (Z.pos (mx' + my')).
  cbn [binary_normalize]. unfold binary_round.
  destruct (shl_align (mx' + my') _ _) as [mz ez].
  right. by apply round_aux_signed.
Qed.

Lemma np_sum_not_negative l :
  Forall (fun v => SFnot_negative (Prim2SF v)) l -> SFnot_negative (Prim2SF (np_sum l)).
Proof.
  unfold np_sum.
  assert (H : forall acc, SFnot_negative (Prim2SF acc) ->
            Forall (fun v => SFnot_negative (Prim2SF v)) l ->
            SFnot_negative (Prim2SF (foldl PrimFloat.add acc l))).
  { induction l as [|v l IH]; intros acc Hacc Hl; [done|].
    apply Forall_cons in Hl as [Hv Hl]. cbn [foldl]. apply IH; [|done].
    rewrite add_spec. by apply SFadd_not_negative. }
  apply H. by right.
Qed.

Lemma SFdiv_not_negative x m e :
  SFnot_negative x -> SFnot_negative (SFdiv prec emax x (S754_finite false m e)).
Proof.
  intros [->|Hx]; [by left|].
  destruct x as [sx|sx| |sx mx ex]; cbn in Hx; try done; subst; try (by right).
  cbn [SFdiv xorb]. unfold SFdiv_core_binary. std_Z.
  set (m' := match _ with Z0 => _ | Zpos _ => _ | Zneg _ => _ end).
  assert (Hm' : 0 <= m').
  { unfold m'. destruct (_ - _ - _) as [|p|p]; try lia.
    apply Z.shiftl_nonneg. lia. }
  rewrite div_eucl_pair. right.
  apply round_aux_signed, Z.div_pos; lia.
Qed.

Lemma not_negative_ltb x : SFnot_negative (Prim2SF x) -> (x <? 0)%float = false.
Proof.
  intros H. rewrite ltb_spec. change (Prim2SF 0) with (S754_zero false).
  destruct H as [->|H]; [done|]. by destruct (Prim2SF x) as [[]|[]| |[] mx ex].
Qed.

Lemma abs_diff_sum_not_negative a b n : SFnot_negative (Prim2SF (abs_diff_sum a b n)).
Proof.
  unfold abs_diff_sum, abs_diffs. apply np_sum_not_negative, Forall_forall.
  intros v Hv. apply elem_of_concat in Hv as (row & Hrow & Hv).
  apply list_elem_of_fmap in Hrow as (i & -> & _).
  apply list_elem_of_fmap in Hv as (j & -> & _).
  rewrite abs_spec. apply SFabs_not_negative.
Qed.

(** X24.  The distance of two n-by-n matrices, n at least 2, is never below
    zero: [matrix_distance] returns a float d for which d < 0 is false. *)
Theorem matrix_distance_not_negative (a b : matrix) (n : nat) :
  (2 <= n)%nat -> machine_dim n -> square n a -> square n b ->
  exists d, matrix_distance a b = Ok d /\ (d <? 0)%float = false.
Proof.
  intros Hn Hm Ha Hb.
  pose proof (machine_dim_count n Hn Hm) as Hc.
  rewrite (matrix_distance_unfold a b n), float_div_int_small by done.
  eexists. split; [done|]. apply not_negative_ltb.
  rewrite div_spec, Prim2SF_float_of_Z by done.
  apply SFdiv_not_negative, abs_diff_sum_not_negative.
Qed.

Lemma matrix_distance_not_negative_witness :
  exists d, matrix_distance [[0; 1]; [2; 0]]%float [[0; 3]; [1; 0]]%float = Ok d
            /\ (d <? 0)%float = false.
Proof.
  apply (matrix_distance_not_negative _ _ 2).
  - lia.
  - unfold machine_dim. lia.
  - split; [done|]. by repeat constructor.
  - split; [done|]. by repeat constructor.
Defined.

(** ** [compute_coalescence] on vectors that are too short *)

Lemma getitem_cases {A} (l : list A) i :
  (exists x, getitem l i = Ok x) \/ getitem l i = Raise IndexError.
Proof. unfold getitem. destruct (l !! i); [left; by eexists|by right]. Qed.

(** One step of the loop appends one equation and counts it, or raises
    IndexError. *)
Lemma coalescence_step_cases t f nC2 i eqs k j :
  (exists eq, coalescence_step t f nC2 i (eqs, k) j = Ok (eqs ++ [eq], S k))
  \/ coalescence_step t f nC2 i (eqs, k) j = Raise IndexError.
Proof.
  unfold coalescence_step.
  destruct (getitem_cases t k) as [[x1 ->]| ->]; [|by right].
  destruct (getitem_cases t (nC2 + i)) as [[x2 ->]| ->]; [|by right].
  destruct (getitem_cases t (nC2 + j)) as [[x3 ->]| ->]; [|by right].
  destruct (getitem_cases f k) as [[x4 ->]| ->]; [|by right].
  left. by eexists.
Qed.

Lemma coalescence_step_short_t t f nC2 i st j :
  (length t <= nC2 + j)%nat -> coalescence_step t f nC2 i st j = Raise IndexError.
Proof.
  intros H. destruct st as [eqs k]. unfold coalescence_step.
  destruct (getitem_cases t k) as [[x1 ->]| ->]; [|done].
  destruct (getitem_cases t (nC2 + i)) as [[x2 ->]| ->]; [|done].
  by rewrite (getitem_out t (nC2 + j)).
Qed.

Lemma coalescence_step_short_f t f nC2 i eqs k j :
  (length f <= k)%nat -> coalescence_step t f nC2 i (eqs, k) j = Raise IndexError.
Proof.
  intros H. unfold coalescence_step.
  destruct (getitem_cases t k) as [[x1 ->]| ->]; [|done].
  destruct (getitem_cases t (nC2 + i)) as [[x2 ->]| ->]; [|done].
  destruct (getitem_cases t (nC2 + j)) as [[x3 ->]| ->]; [|done].
  by rewrite (getitem_out f k).
Qed.

(** The two loops as one loop over the pairs. *)
Lemma coalescence_pairs t f n nC2 is_ st :
  for_ is_ (fun st i => for_ (range (i + 1) n) (coalescence_step t f nC2 i) st) st
  = for_ (pairs_of n is_) (fun st ij => coalescence_step t f nC2 ij.1 st ij.2) st.
Proof.
  unfold pairs_of. rewrite for_bind. apply for_ext. intros s i _.
  by rewrite for_fmap.
Qed.

Lemma coalescence_loop_short_t t f nC2 ps j st :
  (length t <= nC2 + j)%nat -> j ∈ ps.*2 ->
  for_ ps (fun st ij => coalescence_step t f nC2 ij.1 st ij.2) st = Raise IndexError.
Proof.
  intros Ht. revert st. induction ps as [|[i j'] ps IH]; intros [eqs k] Hj.
  { by apply elem_of_nil in Hj. }
  cbn [for_ fst snd]. rewrite fmap_cons in Hj. cbn [snd] in Hj.
  destruct (coalescence_step_cases t f nC2 i eqs k j') as [[eq Hs]|Hs]; rewrite Hs; [|done].
  cbn [mbind res_bind]. apply elem_of_cons in Hj as [<-|Hj]; [|by apply IH].
  rewrite coalescence_step_short_t in Hs by done. discriminate.
Qed.

Lemma coalescence_loop_short_f t f nC2 ps eqs k :
  (k <= length f < k + length ps)%nat ->
  for_ ps (fun st ij => coalescence_step t f nC2 ij.1 st ij.2) (eqs, k) = Raise IndexError.
Proof.
  revert eqs k. induction ps as [|[i j] ps IH]; intros eqs k Hk.
  { cbn in Hk. lia. }
  cbn [for_ fst snd length] in *.
  destruct (coalescence_step_cases t f nC2 i eqs k j) as [[eq Hs]|Hs]; rewrite Hs; [|done].
  cbn [mbind res_bind].
  destruct (decide (k = length f)) as [Hkf|Hkf].
  - rewrite coalescence_step_short_f in Hs by lia. discriminate.
  - apply IH. lia.
Qed.

Lemma last_pair n : (2 <= n)%nat -> (n - 1)%nat ∈ (pairs n).*2.
Proof.
  intros Hn. apply list_elem_of_fmap. exists (0, n - 1)%nat. split; [done|].
  unfold pairs. apply list_elem_of_bind. exists 0%nat.
  split; [|apply elem_of_seq; lia].
  apply list_elem_of_fmap. exists (n - 1)%nat. split; [done|]. apply elem_of_seq. lia.
Qed.

(** X25.  For n at least 2, [compute_coalescence] raises IndexError when t
    has fewer than C(n,2) + n entries or f has fewer than C(n,2). *)
Theorem compute_coalescence_short (t f : vector) (n : nat) :
  (2 <= n)%nat -> machine_dim n ->
  (length t < n_choose_2 n + n)%nat \/ (length f < n_choose_2 n)%nat ->
  compute_coalescence t f n = Raise IndexError.
Proof.
  intros Hn Hm Hshort. unfold compute_coalescence, compute_coalescence_with.
  rewrite comb_2 by done. cbn [fmap res_fmap mbind res_bind].
  rewrite Nat2Z.id. unfold range at 1. rewrite Nat.sub_0_r.
  assert (Hen : (n - 1 <= n_choose_2 n)%nat).
  { rewrite <- pairs_length. unfold pairs. fold (pairs_of n (seq 0 n)).
    pose proof (pairs_of_length n 0 n ltac:(lia)). nia. }
  rewrite coalescence_pairs, pairs_of_enough by done.
  destruct (decide (length t < n_choose_2 n + n)%nat) as [Ht|Ht].
  - rewrite (coalescence_loop_short_t t f _ _ (n - 1)%nat); [done|lia|by apply last_pair].
  - rewrite coalescence_loop_short_f; [done|]. rewrite pairs_length. lia.
Qed.

Lemma compute_coalescence_short_witness :
  compute_coalescence [1; 2; 3; 4; 5]%float [0.5; 0.5]%float 3 = Raise IndexError.
Proof.
  apply (compute_coalescence_short _ _ 3).
  - lia.
  - unfold machine_dim. lia.
  - right. cbn. lia.
Defined.

(** ** A 1-by-1 sub-matrix is stretched over its block *)

Lemma np_ix_set_stretch (adjacency : matrix) indices sub :
  Forall (fun v => (v < length adjacency)%nat) indices ->
  stretches_to (length indices) sub = true ->
  np_ix_set adjacency indices sub = Ok (foldl write adjacency (block_writes indices sub)).
Proof.
  intros Hb Hs. unfold np_ix_set.
  assert (Hin : forallb (fun v => (v <? length adjacency)%nat) indices = true).
  { apply forallb_forall. intros v Hv. apply list_elem_of_In in Hv.
    rewrite Forall_forall in Hb. apply Nat.ltb_lt. by apply Hb. }
  rewrite Hin, Hs. cbn [negb].
  f_equal. unfold block_writes. rewrite <- foldl_bind.
  apply foldl_fun_ext. intros a ar. by rewrite <- foldl_bind.
Qed.

Lemma reassemble_loop_stretch (l : list (list nat * matrix)) (a : matrix) :
  Forall (fun cs => Forall (fun v => (v < length a)%nat) cs.1
                    /\ stretches_to (length cs.1) cs.2 = true) l ->
  for_ l (fun adj cs => np_ix_set adj cs.1 cs.2) a
  = Ok (foldl write a (l ≫= fun cs => block_writes cs.1 cs.2)).
Proof.
  revert a. induction l as [|cs l IH]; intros a Hl; [done|].
  apply Forall_cons in Hl as [[Hb Hs] Hl].
  cbn [for_]. rewrite np_ix_set_stretch by done. cbn [mbind res_bind].
  rewrite IH, bind_cons, foldl_app; [done|].
  destruct (writes_shape (block_writes cs.1 cs.2) a) as [-> _]. done.
Qed.

Lemma stretches_to_1x1 k x : stretches_to k [[x]] = true.
Proof.
  unfold stretches_to. cbn [length forallb].
  rewrite (bool_decide_eq_true_2 (1%nat = 1%nat)) by done.
  by rewrite !orb_true_r.
Qed.

Lemma stretched_entry_1x1 x a b : stretched_entry [[x]] a b = x.
Proof. done. Qed.

(** X26.  When the component lists partition {0, ..., N-1} and every
    sub-matrix has the shape of its component except the one at position p,
    which is the 1-by-1 matrix [[x]], [reassemble_matrix] raises no error
    and returns a matrix whose block of component p holds x everywhere. *)
Theorem reassemble_matrix_stretch (subs : list matrix) (comps : list (list nat))
    (which : string) (p : nat) (cp : list nat) (x : float) :
  concat comps ≡ₚ seq 0 (length (concat comps)) ->
  comps !! p = Some cp -> subs !! p = Some [[x]] ->
  (forall q c s, q <> p -> comps !! q = Some c -> subs !! q = Some s ->
     square (length c) s) ->
  exists R,
    reassemble_matrix subs comps which = Ok R
    /\ forall r c, r ∈ cp -> c ∈ cp -> entry R r c = x.
Proof.
  intros Hperm Hp Hsub Hfit.
  set (N := length (concat comps)) in *.
  assert (Hnd : NoDup (concat comps)) by (rewrite Hperm; apply NoDup_seq).
  assert (Hlt : forall v, v ∈ concat comps -> (v < N)%nat).
  { intros v Hv. rewrite Hperm in Hv. apply elem_of_seq in Hv. lia. }
  unfold reassemble_matrix. rewrite num_nodes_eq. fold N.
  set (init := replicate N (replicate N (if String.eqb which "fst" then 1%float else infinity))).
  assert (Hinit : length init = N) by apply length_replicate.
  rewrite reassemble_loop_stretch.
  2:{ apply Forall_forall. intros [c s] Hin. apply list_elem_of_lookup in Hin as [q Hq].
      apply lookup_zip_Some in Hq as [Hq1 Hq2]. cbn [fst snd]. split.
      - apply Forall_forall. intros v Hv. rewrite Hinit. apply Hlt, elem_of_concat.
        exists c. split; [by eapply list_elem_of_lookup_2|done].
      - destruct (decide (q = p)) as [->|Hqp].
        + assert (s = [[x]]) as -> by congruence. apply stretches_to_1x1.
        + apply stretches_to_square. by apply (Hfit q). }
  fold (all_writes comps subs). eexists. split; [reflexivity|].
  intros r c Hr Hc.
  apply list_elem_of_lookup in Hr as [a Ha]. apply list_elem_of_lookup in Hc as [b Hb].
  assert (Hr : (r < N)%nat).
  { apply Hlt, elem_of_concat. exists cp. split; by eapply list_elem_of_lookup_2. }
  rewrite <- (stretched_entry_1x1 x a b).
  apply writes_hit.
  - by apply all_writes_NoDup.
  - apply elem_of_all_writes. by exists p, cp, [[x]], a, b.
  - by rewrite Hinit.
  - unfold init. rewrite (list_lookup_total_correct _ r (replicate N _) )
      by by apply lookup_replicate_2.
    rewrite length_replicate. apply Hlt, elem_of_concat. exists cp.
    split; by eapply list_elem_of_lookup_2.
Qed.

Lemma reassemble_matrix_stretch_witness :
  exists R,
    reassemble_matrix [[[7]]; [[0; 5]; [5; 0]]]%float [[0; 2]; [1; 3]]%nat "fst" = Ok R
    /\ forall r c, r ∈ [0; 2]%nat -> c ∈ [0; 2]%nat -> entry R r c = 7%float.
Proof.
  apply (reassemble_matrix_stretch _ _ _ 0%nat).
  - change ([0; 2; 1; 3]%nat ≡ₚ [0; 1; 2; 3]%nat).
    apply perm_skip, perm_swap.
  - reflexivity.
  - reflexivity.
  - intros [|[|q]] c s Hq Hc Hs; [done| |done].
    cbn in Hc, Hs. injection Hc as <-. injection Hs as <-.
    split; [done|]. by repeat constructor.
Defined.
